(** * Abydos: the Editex and typo edit distances

    A shallow embedding of [abydos/distance/editex.py] and
    [abydos/distance/typo.py], and the properties of the weighted
    edit-distance engine that are established on it.

    Conventions of the embedding.
    - A Python [str] is the list of its code points ([N]); a character is a
      code point (Editex) or a [str] of length one (typo, whose layout cells
      are strings that may be empty or longer than one character).
    - A numpy matrix is a list of rows, read and written by index.
    - Editex costs are Python integers ([Z]); fractional costs, which numpy
      truncates when it stores a sum, are not modelled.  The Editex matrix is
      a matrix of int64: a sum that is stored in it wraps around, and a cost
      that is no int64 cannot be added to a cell.
    - Typo costs and distances are rationals ([Q]), and the arithmetic of
      Python floats is exact.  The typo matrix is a matrix of float32: the
      rounding of a number that is stored in it, and of the sum of a cell and
      a number, are parameters of the model, of which the two behaviours of
      numpy are instances.  Values beyond the range of float32 ([inf],
      [nan]) are not modelled.
    - A raised exception is a value of [exn]; code that may raise lives in the
      [result] monad. *)

From Stdlib Require Import ZArith QArith Qminmax Lqa Ascii String.
From stdpp Require Import base list gmap strings.

(** ** Python values *)

Module Py.

Definition str := list N.

(** The code point of an ASCII character. *)
Definition chr (a : ascii) : N := N_of_ascii a.

(** An ASCII string literal. *)
Definition lit (s : string) : str := chr <$> list_ascii_of_string s.

(** [len(s)] as an integer. *)
Definition len (s : str) : Z := Z.of_nat (length s).

(** Exceptions raised by the modelled code.  [ValueError_unpack n] is the
    failure of a tuple unpacking that expects [n] values; [KeyError k] a
    failed dictionary lookup; [ValueError_not_found c] is
    [ValueError(c + ' not found in any keyboard layouts')];
    [TypeError_unpack_None] the unpacking of [None];
    [DivisionByZero] a division whose divisor is zero (a
    [ZeroDivisionError] on Python numbers, [inf] or [nan] with a warning on
    numpy scalars: in both cases no number comes out);
    [OverflowError] a Python integer that is out of the bounds of the int64
    it is combined with. *)
Inductive exn :=
| ValueError_unpack (expected : nat)
| KeyError (key : string)
| ValueError_not_found (c : str)
| TypeError_unpack_None
| DivisionByZero
| OverflowError.

Inductive result (A : Type) :=
| Ok (a : A)
| Raise (e : exn).
Arguments Ok {A} a.
Arguments Raise {A} e.

Definition bind {A B} (r : result A) (k : A -> result B) : result B :=
  match r with
  | Ok a => k a
  | Raise e => Raise e
  end.

(** A [for] loop whose body may raise: the first exception ends the loop. *)
Fixpoint for_each {S X} (body : S -> X -> result S) (xs : list X) (s : S)
  : result S :=
  match xs with
  | [] => Ok s
  | x :: xs' => bind (body s x) (for_each body xs')
  end.

End Py.

Import Py.

(** [x ← r; k] sequences code that may raise. *)
#[export] Instance result_bind : MBind result :=
  fun A B k r => Py.bind r k.

#[export] Instance Q_inhabited : Inhabited Q := populate 0%Q.

(** ** numpy matrices *)

Module Matrix.
Section Matrix.
Context {V : Type} `{!Inhabited V}.

(** [np_zeros((rows, cols))], given the zero of the element type. *)
Definition np_zeros (zero : V) (rows cols : nat) : list (list V) :=
  replicate rows (replicate cols zero).

(** [d[i, j]].  Every access of the modelled code is inside the shape of
    the matrix, where numpy raises no [IndexError]. *)
Definition get (d : list (list V)) (i j : nat) : V := (d !!! i) !!! j.

(** [d[i, j] = v]. *)
Definition set (d : list (list V)) (i j : nat) (v : V) : list (list V) :=
  <[i := <[j := v]> (d !!! i)]> d.

Definition shape (d : list (list V)) (rows cols : nat) : Prop :=
  length d = rows /\ Forall (fun row => length row = cols) d.
End Matrix.

Abbreviation matrix V := (list (list V)).
End Matrix.

Import Matrix.

(** ** numpy int64

    [np_int] is numpy's default integer type, the C long: 64 bits wide on
    Linux and macOS. *)

Module Int64.

Local Open Scope Z_scope.

Definition int64_min : Z := - 2 ^ 63.
Definition int64_max : Z := 2 ^ 63 - 1.

Definition fits (z : Z) : bool := (int64_min <=? z) && (z <=? int64_max).

(** The int64 with the same last 64 bits. *)
Definition wrap (z : Z) : Z := (z + 2 ^ 63) mod 2 ^ 64 - 2 ^ 63.

(** [a + c] for an int64 [a], read from the matrix, and a Python int [c].
    When [c] is an int64 the sum of the two wraps around (numpy only warns).
    When it is not, numpy 2 raises an [OverflowError] at the addition, which
    is what the model does; older versions form such a sum in another type
    and raise when it is stored in the matrix.  The theorems that state that
    the loops return a value assume costs that are int64. *)
Definition add (a c : Z) : result Z :=
  if fits c then Ok (wrap (a + c)) else Raise OverflowError.

End Int64.

(** ** editex.py *)

Module Editex.

Local Open Scope Z_scope.

Definition letter_groups : list (gset N) :=
  [ {[ chr "A"; chr "E"; chr "I"; chr "O"; chr "U"; chr "Y" ]};
    {[ chr "B"; chr "P" ]};
    {[ chr "C"; chr "K"; chr "Q" ]};
    {[ chr "D"; chr "T" ]};
    {[ chr "L"; chr "R" ]};
    {[ chr "M"; chr "N" ]};
    {[ chr "G"; chr "J" ]};
    {[ chr "F"; chr "P"; chr "V" ]};
    {[ chr "S"; chr "X"; chr "Z" ]};
    {[ chr "C"; chr "S"; chr "Z" ]} ].

Definition all_letters : gset N :=
  {[ chr "A"; chr "B"; chr "C"; chr "D"; chr "E"; chr "F"; chr "G";
     chr "I"; chr "J"; chr "K"; chr "L"; chr "M"; chr "N"; chr "O";
     chr "P"; chr "Q"; chr "R"; chr "S"; chr "T"; chr "U"; chr "V";
     chr "X"; chr "Y"; chr "Z" ]}.

(** [s.replace('ß', 'SS')]; U+00DF is code point 223. *)
Definition replace_eszett (s : str) : str :=
  c ← s; if decide (c = 223%N) then lit "SS" else [c].

Section Costs.
Variables match_cost group_cost mismatch_cost : Z.

(** Zobel and Dart's r(a,b). *)
Definition r_cost (ch1 ch2 : N) : Z :=
  if decide (ch1 = ch2) then match_cost
  else if bool_decide (ch1 ∈ all_letters) && bool_decide (ch2 ∈ all_letters)
  then
    if existsb (fun group : gset N =>
                  bool_decide (ch1 ∈ group) && bool_decide (ch2 ∈ group))
         letter_groups
    then group_cost
    else mismatch_cost
  else mismatch_cost.

(** Zobel and Dart's d(a,b). *)
Definition d_cost (ch1 ch2 : N) : Z :=
  if bool_decide (ch1 ≠ ch2)
     && (bool_decide (ch1 = chr "H") || bool_decide (ch1 = chr "W"))
  then group_cost
  else r_cost ch1 ch2.

(** The three loops over [d_mat], a matrix of int64 ([dtype=np_int]);
    [src] and [tar] carry the leading blank.  Every sum is that of a cell
    and of the Python int that a cost function returns. *)
Definition init_column (src : str) (lens : nat) (d_mat : matrix Z)
  : result (matrix Z) :=
  for_each
    (fun d i =>
       v ← Int64.add (get d (i - 1) 0)
                     (d_cost (src !!! (i - 1)%nat) (src !!! i));
       Ok (set d i 0 v))
    (seq 1 lens) d_mat.

Definition init_row (tar : str) (lent : nat) (d_mat : matrix Z)
  : result (matrix Z) :=
  for_each
    (fun d j =>
       v ← Int64.add (get d 0 (j - 1))
                     (d_cost (tar !!! (j - 1)%nat) (tar !!! j));
       Ok (set d 0 j v))
    (seq 1 lent) d_mat.

Definition fill_cell (src tar : str) (d : matrix Z) (i j : nat)
  : result (matrix Z) :=
  a ← Int64.add (get d (i - 1) j)
                (d_cost (src !!! (i - 1)%nat) (src !!! i));
  b ← Int64.add (get d i (j - 1))
                (d_cost (tar !!! (j - 1)%nat) (tar !!! j));
  c ← Int64.add (get d (i - 1) (j - 1)) (r_cost (src !!! i) (tar !!! j));
  Ok (set d i j (Z.min a (Z.min b c))).

Definition fill (src tar : str) (lens lent : nat) (d_mat : matrix Z)
  : result (matrix Z) :=
  for_each
    (fun d i => for_each (fun d j => fill_cell src tar d i j) (seq 1 lent) d)
    (seq 1 lens) d_mat.

(** Lines 106 to 124: the dynamic programme on the preprocessed, non-empty
    and distinct strings. *)
Definition editex_dp (src tar : str) (local : bool) : result Z :=
  let d_mat := np_zeros 0 (length src + 1) (length tar + 1) in
  let lens := length src in
  let lent := length tar in
  let src := chr " " :: src in
  let tar := chr " " :: tar in
  d_mat ← (if negb local then init_column src lens d_mat else Ok d_mat);
  d_mat ← init_row tar lent d_mat;
  d_mat ← fill src tar lens lent d_mat;
  Ok (get d_mat lens lent).
End Costs.

(** The recurrence that the loops of [editex_dp] compute: the value that
    ends up in [d_mat[i, j]], for [src] and [tar] with their leading blank.
    It is not part of the source; [editex_dp_wcell] relates the two. *)
Fixpoint wcell (mc gc xc : Z) (src tar : str) (local : bool) (i : nat)
  : nat -> Z :=
  match i with
  | O =>
      fix row (j : nat) : Z :=
        match j with
        | O => 0
        | S j' =>
            Int64.wrap (row j' + d_cost mc gc xc (tar !!! j') (tar !!! S j'))
        end
  | S i' =>
      fix row (j : nat) : Z :=
        match j with
        | O => if local then 0
               else Int64.wrap
                      (wcell mc gc xc src tar local i' O
                       + d_cost mc gc xc (src !!! i') (src !!! S i'))
        | S j' =>
            Z.min
              (Int64.wrap
                 (wcell mc gc xc src tar local i' (S j')
                  + d_cost mc gc xc (src !!! i') (src !!! S i')))
              (Z.min
                 (Int64.wrap
                    (row j' + d_cost mc gc xc (tar !!! j') (tar !!! S j')))
                 (Int64.wrap
                    (wcell mc gc xc src tar local i' j'
                     + r_cost mc gc xc (src !!! S i') (tar !!! S j'))))
        end
  end.

(** The same recurrence on unbounded integers, which the matrix holds as
    long as no sum leaves the range of int64.  Not part of the source. *)
Fixpoint cell (mc gc xc : Z) (src tar : str) (local : bool) (i : nat)
  : nat -> Z :=
  match i with
  | O =>
      fix row (j : nat) : Z :=
        match j with
        | O => 0
        | S j' => row j' + d_cost mc gc xc (tar !!! j') (tar !!! S j')
        end
  | S i' =>
      fix row (j : nat) : Z :=
        match j with
        | O => if local then 0
               else cell mc gc xc src tar local i' O
                    + d_cost mc gc xc (src !!! i') (src !!! S i')
        | S j' =>
            Z.min (cell mc gc xc src tar local i' (S j')
                   + d_cost mc gc xc (src !!! i') (src !!! S i'))
              (Z.min (row j' + d_cost mc gc xc (tar !!! j') (tar !!! S j'))
                     (cell mc gc xc src tar local i' j'
                      + r_cost mc gc xc (src !!! S i') (tar !!! S j')))
        end
  end.

(** Collapse every run of adjacent equal characters into one character.
    Not part of the source: it states which strings Editex does not tell
    apart. *)
Fixpoint squeeze (s : str) : str :=
  match s with
  | [] => []
  | c :: s' =>
      match s' with
      | [] => [c]
      | c' :: _ => if decide (c = c') then squeeze s' else c :: squeeze s'
      end
  end.

Section Preprocessing.
(** [str.upper] and [unicodedata.normalize('NFKD', .)] belong to the
    Python library, not to this repository: they are parameters. *)
Variable upper : str -> str.
Variable nfkd : str -> str.

Definition preprocess (s : str) : str := replace_eszett (nfkd (upper s)).

(** The early returns compute on Python integers, which have no bound. *)
Definition editex (src tar : str) (cost : Z * Z * Z) (local : bool)
  : result Z :=
  let '(match_cost, group_cost, mismatch_cost) := cost in
  let src := preprocess src in
  let tar := preprocess tar in
  if decide (src = tar) then Ok 0
  else if decide (src = []) then Ok (len tar * mismatch_cost)
  else if decide (tar = []) then Ok (len src * mismatch_cost)
  else editex_dp match_cost group_cost mismatch_cost src tar local.

(** The quotient is exact.  A divisor of zero gives no number; a divisor
    beyond int64, which numpy refuses to divide an int64 by, is not
    modelled: the theorems that state that a quotient is returned keep the
    divisor below 2 ** 63. *)
Definition dist_editex (src tar : str) (cost : Z * Z * Z) (local : bool)
  : result Q :=
  if decide (src = tar) then Ok 0%Q
  else
    let mismatch_cost := cost.2 in
    num ← editex src tar cost local;
    let den := Z.max (len src * mismatch_cost) (len tar * mismatch_cost) in
    if decide (den = 0) then Raise DivisionByZero
    else Ok (inject_Z num / inject_Z den)%Q.

Definition sim_editex (src tar : str) (cost : Z * Z * Z) (local : bool)
  : result Q :=
  d ← dist_editex src tar cost local; Ok (1 - d)%Q.
End Preprocessing.

(** What the theorems about ASCII inputs assume of the two library
    functions: on a string of ASCII characters [str.upper] maps the letters
    a to z to A to Z and leaves the other characters, and NFKD changes
    nothing. *)
Definition ascii_only (s : str) : Prop := Forall (fun c => (c < 128)%N) s.

Definition ascii_upper (c : N) : N :=
  if bool_decide (97 ≤ c ≤ 122)%N then (c - 32)%N else c.

Definition upper_on_ascii (upper : str -> str) : Prop :=
  forall s, ascii_only s -> upper s = ascii_upper <$> s.

Definition nfkd_on_ascii (nfkd : str -> str) : Prop :=
  forall s, ascii_only s -> nfkd s = s.

(** Instances of the two library functions on a fragment of Unicode, for
    evaluating the code on concrete inputs.  [upper_latin] is [str.upper]
    on Basic Latin and on U+00DF, which Python 3 maps to SS; [nfkd_latin]
    is NFKD there, the identity.  Code points outside that fragment are
    left unchanged, which is not what Python does for all of them. *)
Definition upper_latin (s : str) : str :=
  c ← s;
  if bool_decide (97 ≤ c ≤ 122)%N then [(c - 32)%N]
  else if decide (c = 223%N) then lit "SS"
  else [c].

Definition nfkd_latin (s : str) : str := s.

Definition default_cost : Z * Z * Z := (0, 1, 2).

(** The costs are small for two strings when no sum of the matrix can leave
    the range of int64: the two lengths after preprocessing, added up and
    multiplied by the largest of the three costs, stay below 2 ** 63. *)
Definition small_costs (upper nfkd : str -> str) (src tar : str)
           (cost : Z * Z * Z) : Prop :=
  let '(match_cost, group_cost, mismatch_cost) := cost in
  (len (preprocess upper nfkd src) + len (preprocess upper nfkd tar))
  * Z.max match_cost (Z.max group_cost mismatch_cost) <= Int64.int64_max.

End Editex.
(** ** typo.py *)

Module Typo.

Local Open Scope Q_scope.

(** A shift state of a layout is a tuple of rows of cells; a layout is the
    pair of its unshifted and shifted states. *)
Definition kb_array := list (list str).
Definition keyboard := (kb_array * kb_array)%type.

(** A run of one-character cells.  A cell is written as the list of its
    code points when it is empty (a placeholder that only reserves a column),
    holds a character outside ASCII, the quotation mark or the backslash, or
    is longer than one character. *)
Definition keys (row : string) : list str :=
  (fun a => [chr a]) <$> list_ascii_of_string row.

Definition QWERTY : keyboard :=
  ([ keys "`1234567890-=";
     [[]] ++ keys "qwertyuiop[]" ++ [[92]%N]           (* backslash *);
     [[]] ++ keys "asdfghjkl;'";
     [[]] ++ keys "zxcvbnm,./" ],
   [ keys "~!@#$%^&*()_+";
     [[]] ++ keys "QWERTYUIOP{}|";
     [[]] ++ keys "ASDFGHJKL:" ++ [[34]%N]             (* quotation mark *);
     [[]] ++ keys "ZXCVBNM<>?" ]).

Definition Dvorak : keyboard :=
  ([ keys "`1234567890[]";
     [[]] ++ keys "',.pyfgcrl/=" ++ [[92]%N]           (* backslash *);
     [[]] ++ keys "aoeuidhtns-";
     [[]] ++ keys ";qjkxbmwvz" ],
   [ keys "~!@#$%^&*(){}";
     [[]; [34]%N] ++ keys "<>PYFGCRL?+|"               (* quotation mark *);
     [[]] ++ keys "AOEUIDHTNS_";
     [[]] ++ keys ":QJKXBMWVZ" ]).

Definition AZERTY : keyboard :=
  ([ [[178]%N] ++ keys "&"                             (* superscript two *)
     ++ [[233]%N; [34]%N] ++ keys "'(-"     (* e acute, quotation mark *)
     ++ [[232]%N] ++ keys "_"                          (* e grave *)
     ++ [[231]%N; [224]%N] ++ keys ")="                (* c cedilla, a grave *);
     [[]] ++ keys "azertyuiop" ++ [[]] ++ keys "$";
     [[]] ++ keys "qsdfghjklm" ++ [[249]%N] ++ keys "*"  (* u grave *);
     keys "<wxcvbn,;:!" ],
   [ keys "~1234567890" ++ [[176]%N] ++ keys "+"       (* degree sign *);
     [[]] ++ keys "AWERTYUIOP" ++ [[]; [163]%N]        (* pound sign *);
     [[]] ++ keys "QSDFGHJKLM"
     ++ [[217]%N; [956]%N]                   (* U grave, Greek small mu *);
     keys ">WXCVBN?./" ++ [[167]%N]                    (* section sign *) ]).

Definition QWERTZ : keyboard :=
  ([ [[]] ++ keys "1234567890" ++ [[223]%N; []]        (* eszett *);
     [[]] ++ keys "qwertzuiop"
     ++ [[32; 252]%N] ++ keys "+"      (* a space and u diaeresis: one cell *)
     ++ [[92]%N]                                       (* backslash *);
     [[]] ++ keys "asdfghjkl"
     ++ [[246]%N; [228]%N] ++ keys "#"     (* o diaeresis, a diaeresis *);
     keys "<yxcvbnm,.-" ],
   [ [[176]%N] ++ keys "!"                             (* degree sign *)
     ++ [[34]%N; [167]%N]              (* quotation mark, section sign *)
     ++ keys "$%&/()=?" ++ [[]];
     [[]] ++ keys "QWERTZUIOP" ++ [[220]%N]            (* U diaeresis *)
     ++ keys "*" ++ [[]];
     [[]] ++ keys "ASDFGHJKL"
     ++ [[214]%N; [196]%N] ++ keys "'"     (* O diaeresis, A diaeresis *);
     keys ">YXCVBNM;:_" ]).

Definition kbs : gmap string keyboard :=
  list_to_map
    [ ("QWERTY"%string, QWERTY); ("Dvorak"%string, Dvorak);
      ("AZERTY"%string, AZERTY); ("QWERTZ"%string, QWERTZ) ].

(** [d[k]] on a dictionary. *)
Definition getitem {A} (d : gmap string A) (k : string) : result A :=
  match d !! k with
  | Some a => Ok a
  | None => Raise (KeyError k)
  end.

(** [a, b, c, d = cost] and [a, b = cost[:2]]. *)
Definition unpack4 (cost : list Q) : result (Q * Q * Q * Q) :=
  match cost with
  | [a; b; c; d] => Ok (a, b, c, d)
  | _ => Raise (ValueError_unpack 4)
  end.

Definition unpack2 (cost : list Q) : result (Q * Q) :=
  match cost with
  | [a; b] => Ok (a, b)
  | _ => Raise (ValueError_unpack 2)
  end.

(** [l.index(x)]: the first position of [x]. *)
Fixpoint index {A} `{EqDecision A} (l : list A) (x : A) : option nat :=
  match l with
  | [] => None
  | y :: l' => if decide (y = x) then Some 0%nat else S <$> index l' x
  end.

(** [s[i]], a string of length one. *)
Definition item (s : str) (i : nat) : str := [s !!! i].

(** [d_mat] is a matrix of float32 ([dtype=np_float32]).  Two operations of
    numpy on it are parameters: [f32 q] is what a cell holds once the number
    [q] is stored in it, and [add32 a c] is the sum of a cell [a] and a Python
    number [c], which numpy computes in float32 or in float64 according to its
    promotion rules.  Both are functions of the values of their arguments,
    whichever fractions denote these. *)
Record float32 := {
  f32 : Q -> Q;
  add32 : Q -> Q -> Q;
  f32_proper : forall q q', q == q' -> f32 q == f32 q';
  add32_proper :
    forall a a' c c', a == a' -> c == c' -> add32 a c == add32 a' c'
}.

Section Layout.
Variable fp : float32.

(** [x ** 0.5] on an integer and [math.log] belong to the Python library:
    they are parameters. *)
Variable sqrt_f : Z -> Q.
Variable log_f : Q -> Q.

Variable keyboard : keyboard.

Definition lowercase : gset str := list_to_set (concat keyboard.1).
Definition uppercase : gset str := list_to_set (concat keyboard.2).

Definition _kb_array_for_char (char : str) : result kb_array :=
  if bool_decide (char ∈ lowercase) then Ok keyboard.1
  else if bool_decide (char ∈ uppercase) then Ok keyboard.2
  else Raise (ValueError_not_found char).

(** The loop returns at the first row that holds [char] and falls off
    its end, returning [None], when there is none. *)
Definition _get_char_coord (char : str) (kb_array : kb_array)
  : option (nat * nat) :=
  row ← List.find (fun row => bool_decide (char ∈ row)) kb_array;
  r ← index kb_array row;
  col ← index row char;
  Some (r, col).

(** [row, col = _get_char_coord(char, _kb_array_for_char(char))]. *)
Definition char_coord (char : str) : result (Z * Z) :=
  kb ← _kb_array_for_char char;
  match _get_char_coord char kb with
  | Some (r, col) => Ok (Z.of_nat r, Z.of_nat col)
  | None => Raise TypeError_unpack_None
  end.

Definition _euclidean_keyboard_distance (char1 char2 : str) : result Q :=
  '(row1, col1) ← char_coord char1;
  '(row2, col2) ← char_coord char2;
  Ok (sqrt_f ((row1 - row2) ^ 2 + (col1 - col2) ^ 2)).

Definition _manhattan_keyboard_distance (char1 char2 : str) : result Q :=
  '(row1, col1) ← char_coord char1;
  '(row2, col2) ← char_coord char2;
  Ok (inject_Z (Z.abs (row1 - row2) + Z.abs (col1 - col2))).

Definition _log_euclidean_keyboard_distance (char1 char2 : str) : result Q :=
  d ← _euclidean_keyboard_distance char1 char2;
  Ok (log_f (1 + d)).

Definition _log_manhattan_keyboard_distance (char1 char2 : str) : result Q :=
  d ← _manhattan_keyboard_distance char1 char2;
  Ok (log_f (1 + d)).

Definition metric_dict : gmap string (str -> str -> result Q) :=
  list_to_map
    [ ("euclidean"%string, _euclidean_keyboard_distance);
      ("manhattan"%string, _manhattan_keyboard_distance);
      ("log-euclidean"%string, _log_euclidean_keyboard_distance);
      ("log-manhattan"%string, _log_manhattan_keyboard_distance) ].

Variable metric : string.
Variables ins_cost del_cost sub_cost shift_cost : Q.

Definition _substitution_cost (char1 char2 : str) : result Q :=
  let cost := sub_cost in
  f ← getitem metric_dict metric;
  m ← f char1 char2;
  kb1 ← _kb_array_for_char char1;
  kb2 ← _kb_array_for_char char2;
  Ok (cost * (m + shift_cost * (if bool_decide (kb1 ≠ kb2) then 1 else 0))).

(** The loops over [d_mat]: the products [i * del_cost] and [j * ins_cost]
    are those of Python numbers, every sum is that of a cell and a Python
    number, and what is stored is rounded to float32. *)
Definition init_column (lens : nat) (d_mat : matrix Q) : matrix Q :=
  foldl (fun d i => set d i 0 (f32 fp (inject_Z (Z.of_nat i) * del_cost)))
        d_mat (seq 0 (lens + 1)).

Definition init_row (lent : nat) (d_mat : matrix Q) : matrix Q :=
  foldl (fun d j => set d 0 j (f32 fp (inject_Z (Z.of_nat j) * ins_cost)))
        d_mat (seq 0 (lent + 1)).

Definition fill_cell (src tar : str) (d : matrix Q) (i j : nat)
  : result (matrix Q) :=
  let ins := add32 fp (get d (i + 1) j) ins_cost in
  let del := add32 fp (get d i (j + 1)) del_cost in
  s ← (if bool_decide (item src i ≠ item tar j)
       then _substitution_cost (item src i) (item tar j)
       else Ok 0);
  Ok (set d (i + 1) (j + 1)
          (f32 fp (Qmin ins (Qmin del (add32 fp (get d i j) s))))).

Definition fill (src tar : str) (d_mat : matrix Q) : result (matrix Q) :=
  for_each
    (fun d i => for_each (fun d j => fill_cell src tar d i j)
                         (seq 0 (length tar)) d)
    (seq 0 (length src)) d_mat.

(** Lines 180 to 195. *)
Definition typo_dp (src tar : str) : result Q :=
  let d_mat := np_zeros 0 (length src + 1) (length tar + 1) in
  let d_mat := init_column (length src) d_mat in
  let d_mat := init_row (length tar) d_mat in
  d_mat ← fill src tar d_mat;
  Ok (get d_mat (length src) (length tar)).
End Layout.

Section Typo.
Variable fp : float32.
Variable sqrt_f : Z -> Q.
Variable log_f : Q -> Q.

Definition typo (src tar : str) (metric : string) (cost : list Q)
           (layout : string) : result Q :=
  '(ins_cost, del_cost, sub_cost, shift_cost) ← unpack4 cost;
  if decide (src = tar) then Ok 0
  else if decide (src = []) then Ok (inject_Z (len tar) * ins_cost)
  else if decide (tar = []) then Ok (inject_Z (len src) * del_cost)
  else
    keyboard ← getitem kbs layout;
    typo_dp fp sqrt_f log_f keyboard metric
            ins_cost del_cost sub_cost shift_cost src tar.

(** [dist_typo] has no [layout] argument: [typo] runs with its default,
    QWERTY.  The quotient and the difference from 1 are exact: the rounding
    of these two operations is not modelled. *)
Definition dist_typo (src tar : str) (metric : string) (cost : list Q)
  : result Q :=
  if decide (src = tar) then Ok 0
  else
    '(ins_cost, del_cost) ← unpack2 (take 2 cost);
    num ← typo src tar metric cost "QWERTY";
    let den := Qmax (inject_Z (len src) * del_cost)
                    (inject_Z (len tar) * ins_cost) in
    if Qeq_bool den 0 then Raise DivisionByZero
    else Ok (num / den).

Definition sim_typo (src tar : str) (metric : string) (cost : list Q)
  : result Q :=
  d ← dist_typo src tar metric cost;
  Ok (1 - d).
End Typo.

Definition default_cost : list Q := [1; 1; 1 # 2; 1 # 2].

(** A character is supported by a layout when one of its two tables holds
    it. *)
Definition supported (keyboard : keyboard) (char : str) : Prop :=
  char ∈ lowercase keyboard \/ char ∈ uppercase keyboard.

#[export] Instance supported_dec keyboard char :
  Decision (supported keyboard char).
Proof. unfold supported. apply _. Defined.

(** The names that [metric_dict] knows. *)
Definition known_metric (metric : string) : Prop :=
  metric ∈ [ "euclidean"; "manhattan";
             "log-euclidean"; "log-manhattan" ]%string.

(** Integer stand-ins for the two library functions, for evaluating the
    code where they are not called or their value does not matter: the
    integer square root, and zero. *)
Definition sqrt_floor (z : Z) : Q := inject_Z (Z.sqrt z).
Definition log_zero (q : Q) : Q := 0.

(** The nearest integer to [n / d], for a positive [d]; of two nearest
    integers, the even one. *)
Definition round_half_even (n d : Z) : Z :=
  let q := (n / d)%Z in
  let r := (2 * (n mod d))%Z in
  if (r <? d)%Z then q
  else if (d <? r)%Z then (q + 1)%Z
  else if Z.even q then q else (q + 1)%Z.

(** The integer [e] with 2 ** e <= n / d < 2 ** (e + 1), for positive [n]
    and [d]. *)
Definition ilog2 (n d : Z) : Z :=
  let e := (Z.log2 n - Z.log2 d)%Z in
  if (if (0 <=? e)%Z then (d * 2 ^ e <=? n)%Z else (d <=? n * 2 ^ (- e))%Z)
  then e else (e - 1)%Z.

(** The nearest binary floating-point number with [prec] bits of precision
    that is a multiple of 2 ** emin, ties going to the even one (IEEE 754);
    [q] is a fraction in lowest terms.  A number beyond the largest float
    rounds to [inf], which is not modelled. *)
Definition round_reduced (prec emin : Z) (q : Q) : Q :=
  let n := Z.abs (Qnum q) in
  let d := Zpos (Qden q) in
  if (n =? 0)%Z then 0
  else
    let k := Z.max (ilog2 n d - (prec - 1)) emin in
    let m := if (0 <=? k)%Z then round_half_even n (d * 2 ^ k)
             else round_half_even (n * 2 ^ (- k)) d in
    let m := (Z.sgn (Qnum q) * m)%Z in
    Qred (if (0 <=? k)%Z then inject_Z (m * 2 ^ k)
          else m # Z.to_pos (2 ^ (- k))).

Definition round_float (prec emin : Z) (q : Q) : Q :=
  round_reduced prec emin (Qred q).

Definition round_float_proper prec emin q q' (H : q == q')
  : round_float prec emin q == round_float prec emin q' :=
  match Qred_complete q q' H in _ = r
        return round_reduced prec emin (Qred q) == round_reduced prec emin r
  with
  | eq_refl => Qeq_refl _
  end.

Definition binary32 : Q -> Q := round_float 24 (-149).
Definition binary64 : Q -> Q := round_float 53 (-1074).

(** The float32 operations of numpy.  Before numpy 2 the sum of a float32
    cell and a Python number is a float64; since numpy 2 the Python number
    is made a float32 and the sum is a float32.  A Python number is taken
    for the fraction that it denotes. *)
Definition numpy_v1 : float32 :=
  {| f32 := binary32;
     add32 := fun a c => binary64 (a + c);
     f32_proper := round_float_proper 24 (-149);
     add32_proper := fun a a' c c' Ha Hc =>
       round_float_proper 53 (-1074) _ _ (Qplus_comp a a' Ha c c' Hc) |}.

Definition numpy_v2 : float32 :=
  {| f32 := binary32;
     add32 := fun a c => binary32 (a + binary32 c);
     f32_proper := round_float_proper 24 (-149);
     add32_proper := fun a a' c c' Ha Hc =>
       round_float_proper 24 (-149) _ _
         (Qplus_comp a a' Ha _ _ (round_float_proper 24 (-149) c c' Hc)) |}.

(** The rounding keeps the sign of what is not negative, as rounding to the
    nearest float32 does. *)
Definition keeps_sign (fp : float32) : Prop :=
  (forall q, 0 <= q -> 0 <= f32 fp q)
  /\ (forall a c, 0 <= a -> 0 <= c -> 0 <= add32 fp a c).

End Typo.

(** * Properties *)

(** ** Matrices and loops *)

Module MatrixFacts.
Section MatrixFacts.
Context {V : Type} `{!Inhabited V}.
Implicit Types (d : list (list V)) (v : V).

Lemma shape_np_zeros (zero : V) rows cols :
  shape (np_zeros zero rows cols) rows cols.
Proof.
  split; [apply length_replicate|].
  apply Forall_replicate, length_replicate.
Qed.

Lemma get_np_zeros (zero : V) rows cols i j :
  i < rows -> j < cols -> get (np_zeros zero rows cols) i j = zero.
Proof.
  intros Hi Hj. unfold get, np_zeros.
  rewrite lookup_total_replicate_2 by done.
  by rewrite lookup_total_replicate_2.
Qed.

Lemma shape_row_length d rows cols i :
  shape d rows cols -> i < rows -> length (d !!! i) = cols.
Proof.
  intros [Hlen Hrows] Hi.
  destruct (lookup_lt_is_Some_2 d i) as [row Hrow]; [lia|].
  rewrite (list_lookup_total_correct _ _ _ Hrow).
  by eapply (Forall_lookup_1 _ _ _ _ Hrows).
Qed.

Lemma shape_set d rows cols i j v :
  shape d rows cols -> i < rows -> shape (set d i j v) rows cols.
Proof.
  intros Hd Hi. pose proof (shape_row_length _ _ _ _ Hd Hi) as Hrow.
  destruct Hd as [Hlen Hrows]. split; unfold set.
  - by rewrite length_insert.
  - apply Forall_insert; [done|]. by rewrite length_insert.
Qed.

Lemma get_set_eq d rows cols i j v :
  shape d rows cols -> i < rows -> j < cols -> get (set d i j v) i j = v.
Proof.
  intros Hd Hi Hj. pose proof (shape_row_length _ _ _ _ Hd Hi) as Hrow.
  destruct Hd as [Hlen _]. unfold get, set.
  rewrite list_lookup_total_insert_eq by lia.
  apply list_lookup_total_insert_eq. lia.
Qed.

Lemma get_set_ne d i j i' j' v :
  (i, j) <> (i', j') -> get (set d i j v) i' j' = get d i' j'.
Proof.
  intros Hne. unfold get, set.
  destruct (decide (i = i')) as [<-|Hi].
  - destruct (decide (i < length d)) as [Hlt|Hge].
    + rewrite list_lookup_total_insert_eq by done.
      apply list_lookup_total_insert_ne. congruence.
    + by rewrite list_insert_ge by lia.
  - by rewrite list_lookup_total_insert_ne.
Qed.

(** A [for] loop over [range(start, start + n)] keeps an invariant that
    is indexed by the loop counter. *)
Lemma foldl_seq_invariant {A} (P : nat -> A -> Prop) (f : A -> nat -> A) n :
  forall start a,
    P start a ->
    (forall i a, start <= i < start + n -> P i a -> P (S i) (f a i)) ->
    P (start + n) (foldl f a (seq start n)).
Proof.
  induction n as [|n IH]; intros start a H0 Hstep; simpl.
  - by rewrite Nat.add_0_r.
  - replace (start + S n) with (S start + n) by lia.
    apply IH.
    + apply Hstep; [lia|done].
    + intros i b Hi. apply Hstep. lia.
Qed.

(** The same for a loop whose body may raise, when it ends normally. *)
Lemma for_each_seq_invariant {A} (P : nat -> A -> Prop)
      (body : A -> nat -> result A) n :
  forall start a a',
    P start a ->
    (forall i b b', start <= i < start + n ->
                    P i b -> body b i = Ok b' -> P (S i) b') ->
    for_each body (seq start n) a = Ok a' ->
    P (start + n) a'.
Proof.
  induction n as [|n IH]; intros start a a' H0 Hstep; simpl.
  - intros [= <-]. by rewrite Nat.add_0_r.
  - destruct (body a start) as [b|e] eqn:Hb; simpl; [|done].
    intros Hrest. replace (start + S n) with (S start + n) by lia.
    apply (IH (S start) b); [| |done].
    + apply (Hstep start a); [lia|done|done].
    + intros i c c' Hi. apply Hstep. lia.
Qed.

(** A loop whose body returns as long as the invariant holds ends normally,
    and the invariant holds at its end. *)
Lemma for_each_seq_total {A} (P : nat -> A -> Prop)
      (body : A -> nat -> result A) n :
  forall start a,
    P start a ->
    (forall i b, start <= i < start + n -> P i b ->
                 exists b', body b i = Ok b' /\ P (S i) b') ->
    exists a', for_each body (seq start n) a = Ok a' /\ P (start + n) a'.
Proof.
  induction n as [|n IH]; intros start a H0 Hstep; simpl.
  - exists a. by rewrite Nat.add_0_r.
  - destruct (Hstep start a) as (b & -> & Hb); [lia|done|]. simpl.
    replace (start + S n) with (S start + n) by lia.
    apply IH; [done|]. intros i c Hi. apply Hstep. lia.
Qed.
End MatrixFacts.

Section ForEach.
Context {S X : Type}.
Implicit Types (body : S -> X -> result S) (xs : list X).

(** An exception that ends a loop was raised by one of its iterations. *)
Lemma for_each_raise_inv body xs s e :
  for_each body xs s = Raise e ->
  exists s' x, x ∈ xs /\ body s' x = Raise e.
Proof.
  revert s. induction xs as [|x xs IH]; intros s; simpl; [done|].
  destruct (body s x) as [s'|e'] eqn:Hx; simpl.
  - intros (s'' & y & Hy & Hraise)%IH. exists s'', y.
    split; [by right|done].
  - intros [= ->]. exists s, x. split; [by left|done].
Qed.

(** A loop with an iteration that raises whatever the state ends with an
    exception. *)
Lemma for_each_raises body xs x s :
  x ∈ xs -> (forall s', exists e, body s' x = Raise e) ->
  exists e, for_each body xs s = Raise e.
Proof.
  intros Hx Hraise. revert s.
  induction xs as [|y xs IH]; intros s; [by apply elem_of_nil in Hx|].
  simpl. destruct (body s y) as [s'|e'] eqn:Hy; simpl; [|by eauto].
  apply elem_of_cons in Hx as [->|Hx]; [|by apply IH].
  destruct (Hraise s) as [e He]. congruence.
Qed.

(** A loop whose iterations all return ends normally. *)
Lemma for_each_Ok body xs s :
  (forall s' x, x ∈ xs -> exists s'', body s' x = Ok s'') ->
  exists s', for_each body xs s = Ok s'.
Proof.
  revert s. induction xs as [|x xs IH]; intros s Hok; simpl; [by eexists|].
  destruct (Hok s x) as [s' ->]; [by left|]. simpl.
  apply IH. intros s'' y Hy. apply Hok. by right.
Qed.
End ForEach.
End MatrixFacts.

Import MatrixFacts.

(** ** int64 *)

Module Int64Facts.
Import Int64.
Local Open Scope Z_scope.

Ltac int64_unfold :=
  unfold int64_min, int64_max, wrap in *;
  change (2 ^ 63) with 9223372036854775808 in *;
  change (2 ^ 64) with 18446744073709551616 in *.

Lemma fits_spec z : fits z = true <-> int64_min <= z <= int64_max.
Proof. unfold fits. by rewrite andb_true_iff, !Z.leb_le. Qed.

Lemma wrap_fits z : int64_min <= z <= int64_max -> wrap z = z.
Proof. int64_unfold. intros Hz. rewrite Z.mod_small by lia. lia. Qed.

Lemma wrap_range z : int64_min <= wrap z <= int64_max.
Proof.
  int64_unfold.
  pose proof (Z.mod_pos_bound (z + 9223372036854775808)
                18446744073709551616 ltac:(lia)).
  lia.
Qed.

(** Adding what is not negative to an int64 may wrap around to a smaller
    number, never to a larger one. *)
Lemma wrap_add_le a c : int64_min <= a -> 0 <= c -> wrap (a + c) <= a + c.
Proof.
  int64_unfold. intros Ha Hc.
  pose proof (Z.mod_le (a + c + 9223372036854775808) 18446744073709551616
                ltac:(lia) ltac:(lia)).
  lia.
Qed.

Lemma add_Ok a c : fits c = true -> add a c = Ok (wrap (a + c)).
Proof. unfold add. by intros ->. Qed.


Lemma add_inv a c v : add a c = Ok v -> fits c = true /\ v = wrap (a + c).
Proof. unfold add. destruct (fits c); [|done]. by intros [= <-]. Qed.

Lemma add_raise_inv a c e : add a c = Raise e -> e = OverflowError.
Proof. unfold add. destruct (fits c); [done|]. by intros [= <-]. Qed.

End Int64Facts.

(** ** Editex: the loops compute the recurrence *)

Module EditexFacts.
Import Int64 Int64Facts Editex.
Local Open Scope Z_scope.

Section Refinement.
Variables mc gc xc : Z.
Variables src tar : str.
Variable local : bool.
Variables lens lent : nat.

Local Abbreviation W := (wcell mc gc xc src tar local).
Local Abbreviation dc := (d_cost mc gc xc).
Local Abbreviation rc := (r_cost mc gc xc).

Lemma wcell_0_S j :
  W 0 (S j) = wrap (W 0 j + dc (tar !!! j) (tar !!! S j)).
Proof. reflexivity. Qed.

Lemma wcell_S_0 i :
  W (S i) 0
  = if local then 0 else wrap (W i 0 + dc (src !!! i) (src !!! S i)).
Proof. reflexivity. Qed.

Lemma wcell_S_S i j :
  W (S i) (S j) =
  Z.min (wrap (W i (S j) + dc (src !!! i) (src !!! S i)))
    (Z.min (wrap (W (S i) j + dc (tar !!! j) (tar !!! S j)))
           (wrap (W i j + rc (src !!! S i) (tar !!! S j)))).
Proof. reflexivity. Qed.

Lemma wcell_local_0 i : local = true -> W i 0 = 0.
Proof. intros ->. by destruct i. Qed.

(** The Python integers that the loops add to a cell: the costs of
    consuming each character of [src] and of [tar], and of each pair. *)
Definition src_fit : Prop :=
  forall i, (i < lens)%nat -> fits (dc (src !!! i) (src !!! S i)) = true.

Definition tar_fit : Prop :=
  forall j, (j < lent)%nat -> fits (dc (tar !!! j) (tar !!! S j)) = true.

Definition pairs_fit : Prop :=
  forall i j, (i < lens)%nat -> (j < lent)%nat ->
              fits (rc (src !!! S i) (tar !!! S j)) = true.

(** What is known of [d_mat] at the successive stages of [editex_dp]. *)
Definition well_shaped (d : matrix Z) : Prop :=
  shape d (lens + 1) (lent + 1).

Definition column_done (d : matrix Z) : Prop :=
  forall i, (i <= lens)%nat -> get d i 0 = W i 0.

Definition rows_done (k : nat) (d : matrix Z) : Prop :=
  forall i j, (i < k)%nat -> (j <= lent)%nat -> get d i j = W i j.

Definition row_done_upto (i l : nat) (d : matrix Z) : Prop :=
  forall j, (j < l)%nat -> get d i j = W i j.

Definition column_done_upto (k : nat) (d : matrix Z) : Prop :=
  forall i, (i < k)%nat -> get d i 0 = W i 0.

Lemma init_column_spec d d' :
  well_shaped d -> get d 0 0 = 0 -> local = false ->
  init_column mc gc xc src lens d = Ok d' ->
  well_shaped d' /\ column_done d'.
Proof.
  intros Hshape H00 Hlocal Hrun.
  cut (well_shaped d' /\ column_done_upto (1 + lens) d').
  { intros [? Hcol]. split; [done|]. intros i Hi. apply Hcol. lia. }
  revert Hrun. unfold init_column.
  apply (for_each_seq_invariant
           (fun k d => well_shaped d /\ column_done_upto k d)).
  - split; [done|]. intros i Hi. by replace i with 0%nat by lia.
  - intros i a a' Hi [Ha Hcol].
    destruct (add _ _) as [v|e] eqn:Hv; simpl; [|done].
    apply add_inv in Hv as [_ ->]. intros [= <-]. split.
    + apply shape_set; [done|lia].
    + intros i' Hi'. destruct (decide (i' = i)) as [->|Hne].
      * rewrite (get_set_eq _ _ _ _ _ _ Ha) by lia.
        rewrite Hcol by lia.
        destruct i as [|i]; [lia|]. rewrite wcell_S_0, Hlocal.
        by replace (S i - 1)%nat with i by lia.
      * rewrite get_set_ne by congruence. apply Hcol. lia.
Qed.

Lemma init_row_spec d d' :
  well_shaped d -> column_done d ->
  init_row mc gc xc tar lent d = Ok d' ->
  well_shaped d' /\ column_done d' /\ rows_done 1 d'.
Proof.
  intros Hshape Hcol Hrun.
  cut (well_shaped d' /\ column_done d' /\ row_done_upto 0 (1 + lent) d').
  { intros (? & ? & Hrow). split; [done|split; [done|]].
    intros i j Hi Hj. replace i with 0%nat by lia. apply Hrow. lia. }
  revert Hrun. unfold init_row.
  apply (for_each_seq_invariant
           (fun k d => well_shaped d /\ column_done d
                       /\ row_done_upto 0 k d)).
  - split; [done|split; [done|]]. intros j Hj.
    replace j with 0%nat by lia. apply Hcol. lia.
  - intros j a a' Hj (Ha & Hcola & Hrow).
    destruct (add _ _) as [v|e] eqn:Hv; simpl; [|done].
    apply add_inv in Hv as [_ ->]. intros [= <-].
    split; [|split].
    + apply shape_set; [done|lia].
    + intros i Hi. rewrite get_set_ne by (intros [=]; lia). by apply Hcola.
    + intros j' Hj'. destruct (decide (j' = j)) as [->|Hne].
      * rewrite (get_set_eq _ _ _ _ _ _ Ha) by lia.
        rewrite Hrow by lia.
        destruct j as [|j]; [lia|]. rewrite wcell_0_S.
        by replace (S j - 1)%nat with j by lia.
      * rewrite get_set_ne by congruence. apply Hrow. lia.
Qed.

Lemma fill_cell_inv d d' i j :
  fill_cell mc gc xc src tar d i j = Ok d' ->
  d' = set d i j
         (Z.min (wrap (get d (i - 1) j
                       + dc (src !!! (i - 1)%nat) (src !!! i)))
            (Z.min (wrap (get d i (j - 1)
                          + dc (tar !!! (j - 1)%nat) (tar !!! j)))
                   (wrap (get d (i - 1) (j - 1)
                          + rc (src !!! i) (tar !!! j))))).
Proof.
  unfold fill_cell.
  destruct (add (get d (i - 1) j) _) as [a|] eqn:Ha; simpl; [|done].
  destruct (add (get d i (j - 1)) _) as [b|] eqn:Hb; simpl; [|done].
  destruct (add (get d (i - 1) (j - 1)) _) as [c|] eqn:Hc; simpl; [|done].
  apply add_inv in Ha as [_ ->]. apply add_inv in Hb as [_ ->].
  apply add_inv in Hc as [_ ->]. by intros [= <-].
Qed.

Lemma fill_row_spec i d d' :
  (1 <= i <= lens)%nat ->
  well_shaped d -> column_done d -> rows_done i d ->
  for_each (fun d j => fill_cell mc gc xc src tar d i j) (seq 1 lent) d
  = Ok d' ->
  well_shaped d' /\ column_done d' /\ rows_done (S i) d'.
Proof.
  intros Hi Hshape Hcol Hrows Hrun.
  cut (well_shaped d' /\ column_done d' /\ rows_done i d'
       /\ row_done_upto i (1 + lent) d').
  { intros (? & ? & Habove & Hrow). split; [done|split; [done|]].
    intros i' j Hi' Hj. destruct (decide (i' = i)) as [->|Hne].
    - apply Hrow. lia.
    - apply Habove; lia. }
  revert Hrun.
  apply (for_each_seq_invariant
           (fun l d => well_shaped d /\ column_done d /\ rows_done i d
                       /\ row_done_upto i l d)).
  - split; [done|split; [done|split; [done|]]]. intros j Hj.
    replace j with 0%nat by lia. apply Hcol. lia.
  - intros j a a' Hj (Ha & Hcola & Hrowsa & Hrow) ->%fill_cell_inv.
    split; [|split; [|split]].
    + apply shape_set; [done|lia].
    + intros i' Hi'. rewrite get_set_ne by (intros [=]; lia).
      by apply Hcola.
    + intros i' j' Hi' Hj'. rewrite get_set_ne by (intros [=]; lia).
      by apply Hrowsa.
    + intros j' Hj'. destruct (decide (j' = j)) as [->|Hne].
      * rewrite (get_set_eq _ _ _ _ _ _ Ha) by lia.
        destruct i as [|i]; [lia|]. destruct j as [|j]; [lia|].
        replace (S i - 1)%nat with i by lia.
        replace (S j - 1)%nat with j by lia.
        by rewrite (Hrowsa i (S j)), (Hrowsa i j), (Hrow j), wcell_S_S
          by lia.
      * rewrite get_set_ne by congruence. apply Hrow. lia.
Qed.

Lemma fill_spec d d' :
  well_shaped d -> column_done d -> rows_done 1 d ->
  fill mc gc xc src tar lens lent d = Ok d' ->
  rows_done (1 + lens) d'.
Proof.
  intros Hshape Hcol Hrows Hrun.
  cut (well_shaped d' /\ column_done d' /\ rows_done (1 + lens) d').
  { by intros (_ & _ & ?). }
  revert Hrun. unfold fill.
  apply (for_each_seq_invariant
           (fun k d => well_shaped d /\ column_done d /\ rows_done k d)).
  - done.
  - intros i a a' Hi (Ha & Hcola & Hrowsa) Hrun.
    by eapply fill_row_spec; [lia|..].
Qed.

(** The loops return when every integer that they add is an int64. *)
Lemma init_column_Ok d :
  src_fit -> exists d', init_column mc gc xc src lens d = Ok d'.
Proof.
  intros Hfit. apply for_each_Ok. intros a i Hi%elem_of_seq.
  rewrite add_Ok; [by eexists|].
  destruct i as [|i]; [lia|]. replace (S i - 1)%nat with i by lia.
  apply Hfit. lia.
Qed.

Lemma init_row_Ok d :
  tar_fit -> exists d', init_row mc gc xc tar lent d = Ok d'.
Proof.
  intros Hfit. apply for_each_Ok. intros a j Hj%elem_of_seq.
  rewrite add_Ok; [by eexists|].
  destruct j as [|j]; [lia|]. replace (S j - 1)%nat with j by lia.
  apply Hfit. lia.
Qed.

Lemma fill_Ok d :
  src_fit -> tar_fit -> pairs_fit ->
  exists d', fill mc gc xc src tar lens lent d = Ok d'.
Proof.
  intros Hs Ht Hp. apply for_each_Ok. intros a i Hi%elem_of_seq.
  apply for_each_Ok. intros b j Hj%elem_of_seq. unfold fill_cell.
  destruct i as [|i]; [lia|]. destruct j as [|j]; [lia|].
  replace (S i - 1)%nat with i by lia. replace (S j - 1)%nat with j by lia.
  rewrite !add_Ok; [by eexists|apply Hs; lia|apply Ht; lia|apply Hp; lia].
Qed.





(** The loops raise nothing but the [OverflowError] of an addition. *)
Lemma init_column_raise_inv d e :
  init_column mc gc xc src lens d = Raise e -> e = OverflowError.
Proof.
  intros (a & i & _ & He)%for_each_raise_inv.
  destruct (add _ _) as [v|e'] eqn:Hv; simpl in He; [done|].
  injection He as <-. by eapply add_raise_inv.
Qed.

Lemma init_row_raise_inv d e :
  init_row mc gc xc tar lent d = Raise e -> e = OverflowError.
Proof.
  intros (a & i & _ & He)%for_each_raise_inv.
  destruct (add _ _) as [v|e'] eqn:Hv; simpl in He; [done|].
  injection He as <-. by eapply add_raise_inv.
Qed.

Lemma fill_raise_inv d e :
  fill mc gc xc src tar lens lent d = Raise e -> e = OverflowError.
Proof.
  intros (a & i & _ & He)%for_each_raise_inv.
  apply for_each_raise_inv in He as (b & j & _ & He).
  unfold fill_cell in He.
  destruct (add (get b (i - 1) j) _) as [x|e1] eqn:H1; simpl in He;
    [|injection He as <-; by eapply add_raise_inv].
  destruct (add (get b i (j - 1)) _) as [y|e2] eqn:H2; simpl in He;
    [|injection He as <-; by eapply add_raise_inv].
  destruct (add (get b (i - 1) (j - 1)) _) as [z|e3] eqn:H3; simpl in He;
    [done|injection He as <-; by eapply add_raise_inv].
Qed.
End Refinement.

(** [editex_dp] and the recurrence *)

Section Dp.
Variables mc gc xc : Z.
Variables src tar : str.

Local Abbreviation ps := (chr " " :: src).
Local Abbreviation pt := (chr " " :: tar).
Local Abbreviation lens := (length src).
Local Abbreviation lent := (length tar).

(** When [editex_dp] returns, it returns the cell [(len(src), len(tar))] of
    the recurrence. *)
Lemma editex_dp_wcell local v :
  editex_dp mc gc xc src tar local = Ok v ->
  v = wcell mc gc xc ps pt local lens lent.
Proof.
  unfold editex_dp.
  set (s := chr " " :: src) in *. set (t := chr " " :: tar) in *.
  set (d0 := np_zeros 0 (lens + 1) (lent + 1)).
  assert (well_shaped lens lent d0) as H0 by apply shape_np_zeros.
  assert (forall i j, (i <= lens)%nat -> (j <= lent)%nat -> get d0 i j = 0)
    as Hz by (intros; apply get_np_zeros; lia).
  destruct (if negb local then init_column mc gc xc s lens d0 else Ok d0)
    as [d1|e1] eqn:Hd1; simpl; [|done].
  assert (well_shaped lens lent d1
          /\ column_done mc gc xc s t local lens d1) as [H1 Hcol].
  { destruct local eqn:Hlocal; simpl in Hd1.
    - injection Hd1 as <-. split; [done|]. intros i Hi.
      rewrite wcell_local_0 by done. apply Hz; lia.
    - eapply init_column_spec; [done| |done|done]. apply Hz; lia. }
  destruct (init_row mc gc xc t lent d1) as [d2|e2] eqn:Hd2; simpl; [|done].
  destruct (init_row_spec mc gc xc s t local lens lent d1 d2 H1 Hcol Hd2)
    as (H2 & Hcol2 & Hrow2).
  destruct (fill mc gc xc s t lens lent d2) as [d3|e3] eqn:Hd3; simpl;
    [|done].
  intros [= <-].
  apply (fill_spec mc gc xc s t local lens lent d2 d3 H2 Hcol2 Hrow2 Hd3);
    lia.
Qed.

(** It returns when every cost that the loops add is an int64. *)
Lemma editex_dp_Ok local :
  src_fit mc gc xc ps lens -> tar_fit mc gc xc pt lent ->
  pairs_fit mc gc xc ps pt lens lent ->
  exists v, editex_dp mc gc xc src tar local = Ok v.
Proof.
  intros Hs Ht Hp. unfold editex_dp.
  set (s := chr " " :: src) in *. set (t := chr " " :: tar) in *.
  set (d0 := np_zeros 0 (lens + 1) (lent + 1)).
  assert (exists d1, (if negb local then init_column mc gc xc s lens d0
                      else Ok d0) = Ok d1) as [d1 ->].
  { destruct local; simpl; [by eexists|]. by apply init_column_Ok. }
  simpl.
  destruct (init_row_Ok mc gc xc t lent d1 Ht) as [d2 ->]. simpl.
  destruct (fill_Ok mc gc xc s t lens lent d2 Hs Ht Hp) as [d3 ->].
  by eexists.
Qed.


(** It raises nothing but the [OverflowError] of an addition. *)
Lemma editex_dp_raise_inv local e :
  editex_dp mc gc xc src tar local = Raise e -> e = OverflowError.
Proof.
  unfold editex_dp.
  set (s := chr " " :: src) in *. set (t := chr " " :: tar) in *.
  set (d0 := np_zeros 0 (lens + 1) (lent + 1)).
  destruct (if negb local then init_column mc gc xc s lens d0 else Ok d0)
    as [d1|e1] eqn:Hd1; simpl.
  - destruct (init_row mc gc xc t lent d1) as [d2|e2] eqn:Hd2; simpl.
    + destruct (fill mc gc xc s t lens lent d2) as [d3|e3] eqn:Hd3; simpl;
        [done|].
      intros [= <-]. by eapply fill_raise_inv.
    + intros [= <-]. by eapply init_row_raise_inv.
  - intros [= <-]. destruct local; simpl in Hd1; [done|].
    by eapply init_column_raise_inv.
Qed.
End Dp.

(** *** The two cost functions *)

Section CostFacts.
Variables mc gc xc : Z.

Lemma existsb_pointwise {A} (f g : A -> bool) (l : list A) :
  (forall x, f x = g x) -> existsb f l = existsb g l.
Proof.
  intros Hfg. induction l as [|x l IH]; simpl; [done|].
  by rewrite Hfg, IH.
Qed.

Lemma r_cost_sym ch1 ch2 : r_cost mc gc xc ch1 ch2 = r_cost mc gc xc ch2 ch1.
Proof.
  unfold r_cost.
  destruct (decide (ch1 = ch2)) as [->|Hne].
  - by rewrite decide_True.
  - rewrite decide_False by congruence.
    rewrite (andb_comm (bool_decide (ch1 ∈ all_letters))).
    rewrite (existsb_pointwise _
               (fun group : gset N =>
                  bool_decide (ch2 ∈ group) && bool_decide (ch1 ∈ group))).
    + done.
    + intros group. apply andb_comm.
Qed.

Lemma r_cost_cases ch1 ch2 :
  (ch1 = ch2 /\ r_cost mc gc xc ch1 ch2 = mc)
  \/ (ch1 <> ch2 /\ (r_cost mc gc xc ch1 ch2 = gc
                    \/ r_cost mc gc xc ch1 ch2 = xc)).
Proof.
  unfold r_cost. destruct (decide (ch1 = ch2)); [by left|right].
  split; [done|]. repeat case_match; auto.
Qed.

Lemma d_cost_cases ch1 ch2 :
  (ch1 = ch2 /\ d_cost mc gc xc ch1 ch2 = mc)
  \/ (ch1 <> ch2 /\ (d_cost mc gc xc ch1 ch2 = gc
                    \/ d_cost mc gc xc ch1 ch2 = xc)).
Proof.
  unfold d_cost. destruct (decide (ch1 = ch2)) as [->|Hne].
  - left. split; [done|].
    rewrite bool_decide_eq_false_2 by auto. simpl.
    destruct (r_cost_cases ch2 ch2) as [[_ ->]|[? _]]; done.
  - right. split; [done|]. case_match; [auto|].
    destruct (r_cost_cases ch1 ch2) as [[? _]|[_ ?]]; done.
Qed.

(** A blank in front of a letter always costs a mismatch. *)
Lemma d_cost_blank ch :
  ch <> chr " " -> d_cost mc gc xc (chr " ") ch = xc.
Proof.
  intros Hne. unfold d_cost, r_cost.
  rewrite decide_False by congruence. by rewrite andb_false_r.
Qed.
End CostFacts.

(** *** The recurrence *)

Section CellFacts.
Variables mc gc xc : Z.
Variables src tar : str.

Local Abbreviation D := (cell mc gc xc src tar).
Local Abbreviation dc := (d_cost mc gc xc).
Local Abbreviation rc := (r_cost mc gc xc).

Lemma cell_0_S local j :
  D local 0 (S j) = D local 0 j + dc (tar !!! j) (tar !!! S j).
Proof. reflexivity. Qed.

Lemma cell_S_0 local i :
  D local (S i) 0
  = if local then 0 else D local i 0 + dc (src !!! i) (src !!! S i).
Proof. reflexivity. Qed.

Lemma cell_S_S local i j :
  D local (S i) (S j) =
  Z.min (D local i (S j) + dc (src !!! i) (src !!! S i))
    (Z.min (D local (S i) j + dc (tar !!! j) (tar !!! S j))
           (D local i j + rc (src !!! S i) (tar !!! S j))).
Proof. reflexivity. Qed.

(** Induction over the cells in the order in which the loops fill them. *)
Lemma cell_ind2 (P : nat -> nat -> Prop) :
  P 0%nat 0%nat ->
  (forall j, P 0%nat j -> P 0%nat (S j)) ->
  (forall i, P i 0%nat -> P (S i) 0%nat) ->
  (forall i j, P i (S j) -> P (S i) j -> P i j -> P (S i) (S j)) ->
  forall i j, P i j.
Proof.
  intros H00 H0 HS0 HSS. induction i as [|i IHi]; induction j as [|j IHj];
    auto.
Qed.

Section NonNegative.
Hypothesis mc_nonneg : 0 <= mc.
Hypothesis gc_nonneg : 0 <= gc.
Hypothesis xc_nonneg : 0 <= xc.

Lemma r_cost_nonneg a b : 0 <= rc a b.
Proof. destruct (r_cost_cases mc gc xc a b); lia. Qed.

Lemma d_cost_nonneg a b : 0 <= dc a b.
Proof. destruct (d_cost_cases mc gc xc a b); lia. Qed.

Lemma cell_nonneg local i j : 0 <= D local i j.
Proof.
  revert i j. apply cell_ind2.
  - done.
  - intros j IH. rewrite cell_0_S.
    pose proof (d_cost_nonneg (tar !!! j) (tar !!! S j)). lia.
  - intros i IH. rewrite cell_S_0. destruct local; [done|].
    pose proof (d_cost_nonneg (src !!! i) (src !!! S i)). lia.
  - intros i j IH1 IH2 IH3. rewrite cell_S_S.
    pose proof (d_cost_nonneg (src !!! i) (src !!! S i)).
    pose proof (d_cost_nonneg (tar !!! j) (tar !!! S j)).
    pose proof (r_cost_nonneg (src !!! S i) (tar !!! S j)). lia.
Qed.

(** Freeing the first column cannot increase any cell. *)
Lemma cell_local_le i j : D true i j <= D false i j.
Proof.
  revert i j. apply cell_ind2.
  - done.
  - intros j IH. rewrite !cell_0_S. lia.
  - intros i IH. rewrite !cell_S_0.
    pose proof (cell_nonneg false i 0).
    pose proof (d_cost_nonneg (src !!! i) (src !!! S i)). lia.
  - intros i j IH1 IH2 IH3. rewrite !cell_S_S. lia.
Qed.

(** When no edit costs more than a mismatch, a cell is at most the
    mismatch cost times the larger of its two indices. *)
Lemma cell_upper local i j :
  mc <= xc -> gc <= xc ->
  D local i j <= Z.of_nat (i `max` j) * xc.
Proof.
  intros Hmc Hgc.
  assert (forall a b, rc a b <= xc) as Hr
      by (intros a b; destruct (r_cost_cases mc gc xc a b); lia).
  assert (forall a b, dc a b <= xc) as Hd
      by (intros a b; destruct (d_cost_cases mc gc xc a b); lia).
  revert i j. apply cell_ind2.
  - simpl. lia.
  - intros j IH. rewrite cell_0_S.
    specialize (Hd (tar !!! j) (tar !!! S j)). nia.
  - intros i IH. rewrite cell_S_0. destruct local; [nia|].
    specialize (Hd (src !!! i) (src !!! S i)). nia.
  - intros i j _ _ IH. rewrite cell_S_S.
    specialize (Hr (src !!! S i) (tar !!! S j)).
    replace (S i `max` S j)%nat with (S (i `max` j)) by lia. nia.
Qed.
End NonNegative.
End CellFacts.

Lemma costs_fit mc gc xc a b :
  fits mc = true -> fits gc = true -> fits xc = true ->
  fits (r_cost mc gc xc a b) = true /\ fits (d_cost mc gc xc a b) = true.
Proof.
  intros Hmc Hgc Hxc. split.
  - destruct (r_cost_cases mc gc xc a b) as [[_ ->]|[_ [->| ->]]]; done.
  - destruct (d_cost_cases mc gc xc a b) as [[_ ->]|[_ [->| ->]]]; done.
Qed.

(** *** The wrapped recurrence *)

Section WrappedCells.
Variables mc gc xc : Z.
Variables src tar : str.

Local Abbreviation W := (wcell mc gc xc src tar).
Local Abbreviation D := (cell mc gc xc src tar).
Local Abbreviation dc := (d_cost mc gc xc).
Local Abbreviation rc := (r_cost mc gc xc).

(** Every cell is an int64. *)
Lemma wcell_range local i j : int64_min <= W local i j <= int64_max.
Proof.
  destruct i as [|i], j as [|j].
  - int64_unfold. simpl. lia.
  - rewrite wcell_0_S. apply wrap_range.
  - rewrite wcell_S_0. destruct local; [int64_unfold; lia|apply wrap_range].
  - rewrite wcell_S_S.
    pose proof (wrap_range (W local i (S j) + dc (src !!! i) (src !!! S i))).
    pose proof (wrap_range (W local (S i) j + dc (tar !!! j) (tar !!! S j))).
    pose proof (wrap_range (W local i j + rc (src !!! S i) (tar !!! S j))).
    lia.
Qed.


(** In the local variant a cell is at most the mismatch cost times its
    column, whether sums wrap around or not. *)
Lemma wcell_local_upper i j :
  0 <= mc <= xc -> 0 <= gc <= xc ->
  W true i j <= Z.of_nat j * xc.
Proof.
  intros Hmc Hgc.
  assert (forall a b, 0 <= dc a b <= xc) as Hd.
  { intros a b. pose proof (d_cost_nonneg mc gc xc).
    destruct (d_cost_cases mc gc xc a b) as [[_ ->]|[_ [->| ->]]]; lia. }
  revert i j. apply cell_ind2.
  - simpl. lia.
  - intros j IH. rewrite wcell_0_S.
    pose proof (wrap_add_le (W true 0 j) (dc (tar !!! j) (tar !!! S j))
                  (proj1 (wcell_range true 0 j))
                  (proj1 (Hd (tar !!! j) (tar !!! S j)))).
    specialize (Hd (tar !!! j) (tar !!! S j)). lia.
  - intros i _. rewrite wcell_S_0. lia.
  - intros i j _ IH _. rewrite wcell_S_S.
    pose proof (wrap_add_le (W true (S i) j) (dc (tar !!! j) (tar !!! S j))
                  (proj1 (wcell_range true (S i) j))
                  (proj1 (Hd (tar !!! j) (tar !!! S j)))).
    specialize (Hd (tar !!! j) (tar !!! S j)). lia.
Qed.

(** As long as the costs are not negative and the largest of them, times the
    sum of the two indices, is an int64, no sum wraps around. *)
Section NoOverflow.
Variable M : Z.
Hypothesis mc_bounds : 0 <= mc <= M.
Hypothesis gc_bounds : 0 <= gc <= M.
Hypothesis xc_bounds : 0 <= xc <= M.

Lemma r_cost_le a b : 0 <= rc a b <= M.
Proof. destruct (r_cost_cases mc gc xc a b) as [[_ ->]|[_ [->| ->]]]; lia. Qed.

Lemma d_cost_le a b : 0 <= dc a b <= M.
Proof. destruct (d_cost_cases mc gc xc a b) as [[_ ->]|[_ [->| ->]]]; lia. Qed.

Lemma cell_sum_upper local i j : 0 <= D local i j <= Z.of_nat (i + j) * M.
Proof.
  revert i j. apply cell_ind2.
  - simpl. lia.
  - intros j IH. rewrite cell_0_S.
    pose proof (d_cost_le (tar !!! j) (tar !!! S j)). nia.
  - intros i IH. rewrite cell_S_0. destruct local; [nia|].
    pose proof (d_cost_le (src !!! i) (src !!! S i)). nia.
  - intros i j IH1 IH2 IH3. rewrite cell_S_S.
    pose proof (d_cost_le (src !!! i) (src !!! S i)).
    pose proof (d_cost_le (tar !!! j) (tar !!! S j)).
    pose proof (r_cost_le (src !!! S i) (tar !!! S j)).
    split; [lia|].
    apply Z.min_le_iff. left. nia.
Qed.

Lemma wcell_cell local i j :
  Z.of_nat (i + j) * M <= int64_max -> W local i j = D local i j.
Proof.
  assert (0 <= int64_min + int64_max + 1) as _ by (int64_unfold; lia).
  assert (int64_min <= 0) as Hmin by (int64_unfold; lia).
  revert i j.
  apply (cell_ind2 (fun i j => Z.of_nat (i + j) * M <= int64_max ->
                               W local i j = D local i j)).
  - done.
  - intros j IH Hb. rewrite wcell_0_S, cell_0_S, IH by nia.
    pose proof (cell_sum_upper local 0 j).
    pose proof (d_cost_le (tar !!! j) (tar !!! S j)).
    apply wrap_fits. nia.
  - intros i IH Hb. rewrite wcell_S_0, cell_S_0. destruct local; [done|].
    rewrite IH by nia.
    pose proof (cell_sum_upper false i 0).
    pose proof (d_cost_le (src !!! i) (src !!! S i)).
    apply wrap_fits. nia.
  - intros i j IH1 IH2 IH3 Hb.
    rewrite wcell_S_S, cell_S_S, IH1, IH2, IH3 by nia.
    pose proof (cell_sum_upper local i (S j)).
    pose proof (cell_sum_upper local (S i) j).
    pose proof (cell_sum_upper local i j).
    pose proof (d_cost_le (src !!! i) (src !!! S i)).
    pose proof (d_cost_le (tar !!! j) (tar !!! S j)).
    pose proof (r_cost_le (src !!! S i) (tar !!! S j)).
    rewrite !wrap_fits by nia. done.
Qed.
End NoOverflow.
End WrappedCells.

(** *** Zero cells and repeated characters *)

Section Squeeze.
Lemma squeeze_cons_cons c c' s :
  squeeze (c :: c' :: s)
  = if decide (c = c') then squeeze (c' :: s) else c :: squeeze (c' :: s).
Proof. reflexivity. Qed.

Lemma squeeze_head c s : exists s', squeeze (c :: s) = c :: s'.
Proof.
  revert c. induction s as [|c' s IH]; intros c; [by exists []|].
  rewrite squeeze_cons_cons. destruct (decide (c = c')) as [->|_]; eauto.
Qed.

(** Appending to a string or to its squeezed form gives the same squeezed
    string. *)
Lemma squeeze_app_squeeze s k : squeeze (s ++ k) = squeeze (squeeze s ++ k).
Proof.
  induction s as [|c s IH]; [done|].
  destruct s as [|c' s]; [done|].
  change (squeeze (c :: c' :: (s ++ k))
          = squeeze (squeeze (c :: c' :: s) ++ k)).
  change (squeeze (c' :: (s ++ k)) = squeeze (squeeze (c' :: s) ++ k))
    in IH.
  rewrite !squeeze_cons_cons.
  destruct (decide (c = c')) as [->|Hne]; [done|].
  rewrite IH. destruct (squeeze_head c' s) as [s' ->].
  change (c :: squeeze (c' :: (s' ++ k)) = squeeze (c :: c' :: (s' ++ k))).
  rewrite squeeze_cons_cons. by rewrite decide_False.
Qed.

Lemma squeeze_snoc_eq s1 s2 c :
  squeeze s1 = squeeze s2 -> squeeze (s1 ++ [c]) = squeeze (s2 ++ [c]).
Proof.
  intros Heq.
  by rewrite (squeeze_app_squeeze s1), (squeeze_app_squeeze s2), Heq.
Qed.

(** Repeating the last character changes nothing. *)
Lemma squeeze_snoc_last s c :
  last s = Some c -> squeeze (s ++ [c]) = squeeze s.
Proof.
  induction s as [|a s IH]; [done|].
  destruct s as [|b s].
  - intros [= ->]. simpl. by rewrite decide_True.
  - intros Hlast. simpl app. rewrite !squeeze_cons_cons.
    specialize (IH Hlast). simpl app in IH. by rewrite IH.
Qed.

Lemma take_S_lookup_total (s : str) i :
  (i < length s)%nat -> take (S i) s = take i s ++ [s !!! i].
Proof.
  intros Hi. destruct (lookup_lt_is_Some_2 s i Hi) as [c Hc].
  rewrite (list_lookup_total_correct _ _ _ Hc). by apply take_S_r.
Qed.

Lemma last_take_S (s : str) i :
  (i < length s)%nat -> last (take (S i) s) = Some (s !!! i).
Proof. intros Hi. rewrite take_S_lookup_total by done. apply last_snoc. Qed.

(** Consuming a character that repeats its predecessor. *)
Lemma squeeze_take_repeat (s : str) i :
  (S i < length s)%nat -> s !!! i = s !!! S i ->
  squeeze (take (S (S i)) s) = squeeze (take (S i) s).
Proof.
  intros Hi Heq. rewrite (take_S_lookup_total s (S i)) by done.
  apply squeeze_snoc_last. rewrite <- Heq. apply last_take_S. lia.
Qed.
End Squeeze.

Section ZeroCells.
Variables mc gc xc : Z.
Variables src tar : str.
Hypothesis mc_nonneg : 0 <= mc.
Hypothesis gc_pos : 0 < gc.
Hypothesis xc_pos : 0 < xc.

Local Abbreviation D := (cell mc gc xc src tar false).

Lemma r_cost_zero a b : r_cost mc gc xc a b = 0 -> a = b.
Proof. destruct (r_cost_cases mc gc xc a b) as [[? _]|[_ ?]]; [done|lia]. Qed.

Lemma d_cost_zero a b : d_cost mc gc xc a b = 0 -> a = b.
Proof. destruct (d_cost_cases mc gc xc a b) as [[? _]|[_ ?]]; [done|lia]. Qed.

(** In the global variant a cell is zero only if the two prefixes that it
    aligns are equal up to repeated characters. *)
Lemma cell_zero_squeeze i j :
  (i < length src)%nat -> (j < length tar)%nat ->
  src !!! 0%nat = tar !!! 0%nat ->
  D i j = 0 ->
  squeeze (take (S i) src) = squeeze (take (S j) tar).
Proof.
  intros Hi Hj H0. revert i j Hi Hj.
  assert (forall a b, 0 <= d_cost mc gc xc a b) as Hd
      by (intros; apply d_cost_nonneg; lia).
  assert (forall a b, 0 <= r_cost mc gc xc a b) as Hr
      by (intros; apply r_cost_nonneg; lia).
  assert (forall i j, 0 <= D i j) as HD
      by (intros; apply cell_nonneg; lia).
  apply (cell_ind2
           (fun i j => (i < length src)%nat -> (j < length tar)%nat ->
                       D i j = 0 ->
                       squeeze (take (S i) src) = squeeze (take (S j) tar))).
  - intros Hi Hj _. rewrite !take_S_lookup_total by done. simpl.
    by rewrite H0.
  - intros j IH Hi Hj. rewrite cell_0_S. intros Hz.
    specialize (Hd (tar !!! j) (tar !!! S j)). specialize (HD 0%nat j).
    rewrite squeeze_take_repeat; [apply IH; lia|done|].
    apply d_cost_zero. lia.
  - intros i IH Hi Hj. rewrite cell_S_0. intros Hz.
    specialize (Hd (src !!! i) (src !!! S i)). specialize (HD i 0%nat).
    rewrite squeeze_take_repeat; [apply IH; lia|done|].
    apply d_cost_zero. lia.
  - intros i j IH1 IH2 IH3 Hi Hj. rewrite cell_S_S. intros Hz.
    pose proof (Hd (src !!! i) (src !!! S i)).
    pose proof (Hd (tar !!! j) (tar !!! S j)).
    pose proof (Hr (src !!! S i) (tar !!! S j)).
    pose proof (HD i (S j)). pose proof (HD (S i) j). pose proof (HD i j).
    assert ((D i (S j) = 0 /\ d_cost mc gc xc (src !!! i) (src !!! S i) = 0)
            \/ (D (S i) j = 0
                /\ d_cost mc gc xc (tar !!! j) (tar !!! S j) = 0)
            \/ (D i j = 0
                /\ r_cost mc gc xc (src !!! S i) (tar !!! S j) = 0))
      as [[Hc Hk]|[[Hc Hk]|[Hc Hk]]] by lia.
    + rewrite squeeze_take_repeat; [apply IH1; lia|done|].
      by apply d_cost_zero.
    + rewrite (squeeze_take_repeat tar); [apply IH2; lia|done|].
      by apply d_cost_zero.
    + rewrite (take_S_lookup_total src (S i)) by done.
      rewrite (take_S_lookup_total tar (S j)) by done.
      rewrite (r_cost_zero _ _ Hk).
      apply squeeze_snoc_eq, IH3; [lia..|done].
Qed.
End ZeroCells.

(** *** Strings that differ by repeated characters only *)

Section SqueezeConverse.
Lemma squeeze_snoc_ne (s : str) b c :
  last s = Some b -> b <> c -> squeeze (s ++ [c]) = squeeze s ++ [c].
Proof.
  induction s as [|a s IH]; [done|].
  destruct s as [|b' s].
  - intros [= ->] Hne. simpl. by rewrite decide_False.
  - intros Hlast Hne. specialize (IH Hlast Hne).
    change (squeeze (a :: b' :: (s ++ [c]))
            = squeeze (a :: b' :: s) ++ [c]).
    change (squeeze (b' :: (s ++ [c])) = squeeze (b' :: s) ++ [c]) in IH.
    rewrite !squeeze_cons_cons, IH. by case_decide.
Qed.

(** Consuming a character that differs from its predecessor. *)
Lemma squeeze_take_new (s : str) i :
  (S i < length s)%nat -> s !!! i <> s !!! S i ->
  squeeze (take (S (S i)) s) = squeeze (take (S i) s) ++ [s !!! S i].
Proof.
  intros Hi Hne. rewrite (take_S_lookup_total s (S i)) by done.
  apply (squeeze_snoc_ne _ (s !!! i)); [|done]. apply last_take_S. lia.
Qed.

Lemma squeeze_take_nonempty (s : str) i :
  (i < length s)%nat -> exists c s', squeeze (take (S i) s) = c :: s'.
Proof.
  intros Hi. destruct s as [|c s]; [simpl in Hi; lia|].
  simpl take. destruct (squeeze_head c (take i s)) as [s' ->]. eauto.
Qed.
End SqueezeConverse.

Section ZeroConverse.
Variables gc xc : Z.
Variables src tar : str.
Hypothesis gc_nonneg : 0 <= gc.
Hypothesis xc_nonneg : 0 <= xc.

Local Abbreviation D := (cell 0 gc xc src tar false).

Lemma d_cost_same a : d_cost 0 gc xc a a = 0.
Proof. by destruct (d_cost_cases 0 gc xc a a) as [[_ ?]|[? _]]. Qed.

Lemma r_cost_same a : r_cost 0 gc xc a a = 0.
Proof. by destruct (r_cost_cases 0 gc xc a a) as [[_ ?]|[? _]]. Qed.

(** With a match cost of zero, two prefixes that are equal up to repeated
    characters are aligned at no cost. *)
Lemma cell_squeeze_zero i j :
  (i < length src)%nat -> (j < length tar)%nat ->
  squeeze (take (S i) src) = squeeze (take (S j) tar) ->
  D i j = 0.
Proof.
  revert i j.
  assert (forall i j, 0 <= D i j) as HD by (intros; apply cell_nonneg; lia).
  apply (cell_ind2
           (fun i j => (i < length src)%nat -> (j < length tar)%nat ->
                       squeeze (take (S i) src) = squeeze (take (S j) tar) ->
                       D i j = 0)).
  - done.
  - intros j IH Hi Hj Heq. rewrite cell_0_S.
    destruct (decide (tar !!! j = tar !!! S j)) as [Hrep|Hnew].
    + rewrite squeeze_take_repeat in Heq by done.
      rewrite IH by (done || lia). by rewrite Hrep, d_cost_same.
    + rewrite (squeeze_take_new tar) in Heq by done.
      destruct (squeeze_take_nonempty tar j) as (c & s' & Hs'); [lia|].
      rewrite Hs' in Heq. destruct src as [|c0 src']; [simpl in Hi; lia|].
      simpl in Heq. by destruct s'.
  - intros i IH Hi Hj Heq. rewrite cell_S_0.
    destruct (decide (src !!! i = src !!! S i)) as [Hrep|Hnew].
    + rewrite squeeze_take_repeat in Heq by done.
      rewrite IH by (done || lia). by rewrite Hrep, d_cost_same.
    + rewrite (squeeze_take_new src) in Heq by done.
      destruct (squeeze_take_nonempty src i) as (c & s' & Hs'); [lia|].
      rewrite Hs' in Heq. destruct tar as [|c0 tar']; [simpl in Hj; lia|].
      simpl in Heq. by destruct s'.
  - intros i j IH1 IH2 IH3 Hi Hj Heq.
    pose proof (HD (S i) (S j)) as Hlo. rewrite cell_S_S in *.
    destruct (decide (src !!! i = src !!! S i)) as [Hrep|Hnew].
    { rewrite squeeze_take_repeat in Heq by done.
      rewrite IH1 in * by (done || lia).
      rewrite Hrep, d_cost_same in *. lia. }
    destruct (decide (tar !!! j = tar !!! S j)) as [Hrep'|Hnew'].
    { rewrite (squeeze_take_repeat tar) in Heq by done.
      rewrite IH2 in * by (done || lia).
      rewrite Hrep', d_cost_same in *. lia. }
    rewrite (squeeze_take_new src), (squeeze_take_new tar) in Heq by done.
    apply app_inj_tail in Heq as [Heq Hc].
    rewrite IH3 in * by (done || lia).
    rewrite Hc, r_cost_same in *. lia.
Qed.
End ZeroConverse.

(** *** [editex] *)

Section EditexFunction.
Variable upper : str -> str.
Variable nfkd : str -> str.
Variables mc gc xc : Z.

Local Abbreviation pre := (preprocess upper nfkd).
Local Abbreviation editex' := (editex upper nfkd).

(** What [editex] returns on two preprocessed strings when no sum of the
    matrix wraps around.  Not part of the source. *)
Definition unwrapped (src tar : str) (local : bool) : Z :=
  if decide (src = tar) then 0
  else if decide (src = []) then len tar * xc
  else if decide (tar = []) then len src * xc
  else cell mc gc xc (chr " " :: src) (chr " " :: tar) local
            (length src) (length tar).

(** [editex] by cases on the preprocessed strings. *)
Lemma editex_unfold src tar local :
  editex' src tar (mc, gc, xc) local =
  if decide (pre src = pre tar) then Ok 0
  else if decide (pre src = []) then Ok (len (pre tar) * xc)
  else if decide (pre tar = []) then Ok (len (pre src) * xc)
  else editex_dp mc gc xc (pre src) (pre tar) local.
Proof. reflexivity. Qed.

Lemma editex_same src local : editex' src src (mc, gc, xc) local = Ok 0.
Proof. rewrite editex_unfold. by rewrite decide_True. Qed.

Lemma editex_empty_src tar local :
  pre [] = [] ->
  editex' [] tar (mc, gc, xc) local = Ok (len (pre tar) * xc).
Proof.
  intros Hnil. rewrite editex_unfold, Hnil.
  case_decide as Heq; [by rewrite <- Heq|].
  by rewrite decide_True.
Qed.

Lemma editex_empty_tar src local :
  pre [] = [] ->
  editex' src [] (mc, gc, xc) local = Ok (len (pre src) * xc).
Proof.
  intros Hnil. rewrite editex_unfold, Hnil.
  case_decide as Heq; [by rewrite Heq|].
  rewrite decide_False by done. by rewrite decide_True.
Qed.

(** [editex] raises nothing but the [OverflowError] of an addition, and
    returns when the three costs are int64. *)
Lemma editex_raise_inv src tar local e :
  editex' src tar (mc, gc, xc) local = Raise e -> e = OverflowError.
Proof.
  rewrite editex_unfold. repeat case_decide; try done.
  apply editex_dp_raise_inv.
Qed.

Lemma editex_Ok src tar local :
  fits mc = true -> fits gc = true -> fits xc = true ->
  exists v, editex' src tar (mc, gc, xc) local = Ok v.
Proof.
  intros Hmc Hgc Hxc. rewrite editex_unfold.
  repeat case_decide; try by eexists.
  apply editex_dp_Ok; repeat intro; by apply costs_fit.
Qed.

(** With costs that are small for the two strings, [editex] returns what it
    would return on unbounded integers. *)
Lemma editex_small src tar local :
  0 <= mc -> 0 <= gc -> 0 <= xc ->
  small_costs upper nfkd src tar (mc, gc, xc) ->
  editex' src tar (mc, gc, xc) local
  = Ok (unwrapped (pre src) (pre tar) local).
Proof.
  intros Hmc Hgc Hxc Hsmall. rewrite editex_unfold. unfold unwrapped.
  unfold small_costs, len in Hsmall.
  set (M := Z.max mc (Z.max gc xc)) in *.
  repeat case_decide; try done.
  assert (0 < length (pre src) /\ 0 < length (pre tar))%nat as [Hs Ht]
      by (destruct (pre src), (pre tar); simpl; done || lia).
  assert (M <= int64_max) as HM by nia.
  assert (forall c, 0 <= c <= M -> fits c = true) as Hfit.
  { intros c Hc. apply fits_spec. int64_unfold. lia. }
  destruct (editex_dp_Ok mc gc xc (pre src) (pre tar) local) as [v Hv];
    try (repeat intro; apply costs_fit; apply Hfit; lia).
  rewrite Hv. f_equal. apply editex_dp_wcell in Hv as ->.
  apply (wcell_cell _ _ _ _ _ M); [lia..|].
  rewrite Nat2Z.inj_add. lia.
Qed.


(** In the local variant the distance is at most the mismatch cost times
    the length of the target. *)
Lemma editex_local_upper src tar v :
  0 <= mc <= xc -> 0 <= gc <= xc -> pre tar <> [] ->
  editex' src tar (mc, gc, xc) true = Ok v ->
  v <= len (pre tar) * xc.
Proof.
  intros Hmc Hgc Ht. rewrite editex_unfold. unfold len.
  repeat case_decide; try done; try (intros [= <-]; nia).
  intros ->%editex_dp_wcell. by apply wcell_local_upper.
Qed.

(** *** The properties of the distance on unbounded integers *)

Lemma unwrapped_nonneg src tar local :
  0 <= mc -> 0 <= gc -> 0 <= xc -> 0 <= unwrapped src tar local.
Proof.
  intros Hmc Hgc Hxc. unfold unwrapped, len.
  repeat case_decide; [lia..|]. by apply cell_nonneg.
Qed.

Lemma unwrapped_upper src tar local :
  0 <= mc <= xc -> 0 <= gc <= xc ->
  unwrapped src tar local <= Z.of_nat (length src `max` length tar) * xc.
Proof.
  intros Hmc Hgc. unfold unwrapped, len.
  repeat case_decide; [nia..|]. apply cell_upper; lia.
Qed.

Lemma unwrapped_local_le_global src tar :
  0 <= mc -> 0 <= gc -> 0 <= xc ->
  unwrapped src tar true <= unwrapped src tar false.
Proof.
  intros Hmc Hgc Hxc. unfold unwrapped.
  repeat case_decide; [lia..|]. by apply cell_local_le.
Qed.

Lemma unwrapped_zero_squeeze src tar :
  0 <= mc -> 0 < gc -> 0 < xc ->
  unwrapped src tar false = 0 ->
  squeeze (chr " " :: src) = squeeze (chr " " :: tar).
Proof.
  intros Hmc Hgc Hxc. unfold unwrapped, len.
  destruct (decide (src = tar)) as [->|Hne]; [done|].
  destruct (decide (src = [])) as [Hs|Hs].
  { intros Hz. destruct tar; [done|]. simpl length in Hz. lia. }
  destruct (decide (tar = [])) as [Ht|Ht].
  { intros Hz. destruct src; [done|]. simpl length in Hz. lia. }
  intros Hz.
  apply (cell_zero_squeeze mc gc xc) in Hz;
    [|done..|simpl; lia|simpl; lia|done].
  by rewrite !take_ge in Hz by (simpl; lia).
Qed.
End EditexFunction.

Lemma unwrapped_squeeze_zero gc xc src tar :
  0 <= gc -> 0 <= xc -> src <> [] -> tar <> [] ->
  squeeze (chr " " :: src) = squeeze (chr " " :: tar) ->
  unwrapped 0 gc xc src tar false = 0.
Proof.
  intros Hgc Hxc Hs Ht Heq. unfold unwrapped.
  case_decide; [done|]. rewrite !decide_False by done.
  apply cell_squeeze_zero; [lia|lia|simpl; lia|simpl; lia|].
  by rewrite !take_ge by (simpl; lia).
Qed.

(** *** [dist_editex] *)

Section Normalised.
Variable upper : str -> str.
Variable nfkd : str -> str.
Variables mc gc xc : Z.

Local Abbreviation pre := (preprocess upper nfkd).

Lemma Qdiv_bounds (num den : Z) :
  0 <= num <= den -> 0 < den ->
  (0 <= inject_Z num / inject_Z den <= 1)%Q.
Proof.
  intros [Hnum Hle] Hden.
  assert (0 < inject_Z den)%Q as Hden' by (by rewrite <- (Zlt_Qlt 0)).
  split.
  - apply Qle_shift_div_l; [done|]. rewrite Qmult_0_l.
    by rewrite <- (Zle_Qle 0).
  - apply Qle_shift_div_r; [done|]. rewrite Qmult_1_l.
    by rewrite <- Zle_Qle.
Qed.

Lemma Qdiv_zero (num den : Z) :
  den <> 0 -> (inject_Z num / inject_Z den == 0)%Q -> num = 0.
Proof.
  intros Hden Hq.
  assert (~ inject_Z den == 0)%Q as Hden'.
  { intros H. apply Hden. by apply (inject_Z_injective den 0). }
  apply (inject_Z_injective num 0).
  rewrite <- (Qmult_div_r (inject_Z num) (inject_Z den)) by done.
  rewrite Hq. ring.
Qed.

(** With a positive mismatch cost that no edit exceeds and that is small
    for the two strings, as they are given and as preprocessing leaves them,
    the quotient is defined and lies between 0 and 1. *)
Lemma dist_editex_bounds src tar local :
  0 <= mc <= xc -> 0 <= gc <= xc -> 0 < xc ->
  (length (pre src) <= length src)%nat ->
  (length (pre tar) <= length tar)%nat ->
  (len src + len tar) * xc <= int64_max ->
  exists d, dist_editex upper nfkd src tar (mc, gc, xc) local = Ok d
            /\ (0 <= d <= 1)%Q.
Proof.
  intros Hmc Hgc Hxc Hs Ht Hsmall. unfold dist_editex. simpl snd.
  destruct (decide (src = tar)) as [->|Hne]; [by exists 0%Q|].
  rewrite (editex_small upper nfkd mc gc xc src tar local); [|lia..|].
  2:{ unfold small_costs, len in *.
      replace (Z.max mc (Z.max gc xc)) with xc by lia. nia. }
  simpl.
  pose proof (unwrapped_nonneg mc gc xc (pre src) (pre tar) local) as Hlo.
  pose proof (unwrapped_upper mc gc xc (pre src) (pre tar) local) as Hhi.
  set (num := unwrapped mc gc xc (pre src) (pre tar) local) in *.
  set (den := Z.max (len src * xc) (len tar * xc)).
  assert (0 < length src \/ 0 < length tar)%nat as Hlen.
  { destruct src, tar; simpl; try lia. done. }
  assert (0 < den /\ num <= den) as [Hden Hnum].
  { subst den. unfold len.
    specialize (Hhi ltac:(lia) ltac:(lia)).
    destruct (Z.max_spec (Z.of_nat (length src) * xc)
                         (Z.of_nat (length tar) * xc)) as [[? ->]|[? ->]];
      destruct (Nat.max_spec (length (pre src)) (length (pre tar)))
      as [[? Hm]|[? Hm]]; rewrite Hm in Hhi; nia. }
  rewrite decide_False by lia.
  eexists; split; [done|]. apply Qdiv_bounds; lia.
Qed.

Lemma dist_editex_zero src tar local d :
  dist_editex upper nfkd src tar (mc, gc, xc) local = Ok d ->
  (d == 0)%Q ->
  src = tar \/ editex upper nfkd src tar (mc, gc, xc) local = Ok 0.
Proof.
  unfold dist_editex. simpl snd.
  destruct (decide (src = tar)) as [->|Hne]; [by left|].
  destruct (editex upper nfkd src tar (mc, gc, xc) local) as [num|e];
    simpl; [|done].
  case_decide as Hden; [done|]. intros [= <-] Hd. right.
  f_equal. by apply (Qdiv_zero _ _ Hden).
Qed.

(** The similarity is 1 minus the distance, and is undefined with it. *)
Lemma sim_editex_dist src tar cost local :
  (forall d, dist_editex upper nfkd src tar cost local = Ok d ->
             sim_editex upper nfkd src tar cost local = Ok (1 - d)%Q)
  /\ (forall e, dist_editex upper nfkd src tar cost local = Raise e ->
                sim_editex upper nfkd src tar cost local = Raise e).
Proof. unfold sim_editex. split; by intros ? ->. Qed.
End Normalised.

End EditexFacts.
(** ** Typo *)

Module TypoFacts.
Import Typo.
Local Open Scope Q_scope.

(** *** Configuration *)

Section Configuration.
Lemma unpack4_length (cost : list Q) :
  length cost = 4%nat ->
  exists ins del sub shift, cost = [ins; del; sub; shift].
Proof.
  intros Hlen. do 5 (destruct cost as [|? cost]; try done). eauto 6.
Qed.

Lemma unpack4_bad_length (cost : list Q) :
  length cost <> 4%nat -> unpack4 cost = Raise (ValueError_unpack 4).
Proof.
  intros Hlen. do 5 (destruct cost as [|? cost]; try done).
Qed.

Lemma kbs_lookup layout keyboard :
  kbs !! layout = Some keyboard ->
  (layout = "QWERTY"%string /\ keyboard = QWERTY)
  \/ (layout = "Dvorak"%string /\ keyboard = Dvorak)
  \/ (layout = "AZERTY"%string /\ keyboard = AZERTY)
  \/ (layout = "QWERTZ"%string /\ keyboard = QWERTZ).
Proof.
  unfold kbs. simpl list_to_map.
  rewrite !lookup_insert_Some, lookup_empty.
  intros [[<- <-]|[_ [[<- <-]|[_ [[<- <-]|[_ [[<- <-]|[_ [=]]]]]]]]];
    auto 6.
Qed.

Lemma kbs_qwerty : kbs !! "QWERTY"%string = Some QWERTY.
Proof. unfold kbs. simpl list_to_map. by rewrite lookup_insert_eq. Qed.
End Configuration.

(** *** Characters and their coordinates *)

Section Characters.
Variable sqrt_f : Z -> Q.
Variable log_f : Q -> Q.
Variable keyboard : keyboard.

Lemma index_elem_of {A} `{EqDecision A} (l : list A) x :
  x ∈ l -> is_Some (index l x).
Proof.
  induction 1 as [x l|x y l _ IH]; simpl.
  - by rewrite decide_True.
  - case_decide; [done|]. destruct IH as [n ->]. by eexists.
Qed.

Lemma get_char_coord_found char (kb_array : kb_array) :
  char ∈ concat kb_array -> is_Some (_get_char_coord char kb_array).
Proof.
  intros Hin. unfold _get_char_coord.
  destruct (List.find _ kb_array) as [row|] eqn:Hfind.
  - apply find_some in Hfind as [Hrow Hchar].
    apply list_elem_of_In in Hrow. apply bool_decide_eq_true in Hchar.
    simpl. destruct (index_elem_of kb_array row Hrow) as [r ->].
    simpl. destruct (index_elem_of row char Hchar) as [col ->]. by eexists.
  - apply list_elem_of_In, in_concat in Hin as (row & Hrow & Hchar).
    apply (find_none _ _ Hfind) in Hrow.
    apply bool_decide_eq_false in Hrow.
    by apply list_elem_of_In in Hchar.
Qed.

Lemma kb_array_for_char_cases char :
  (supported keyboard char
   /\ exists kb, _kb_array_for_char keyboard char = Ok kb
                 /\ char ∈ concat kb)
  \/ (~ supported keyboard char
      /\ _kb_array_for_char keyboard char
         = Raise (ValueError_not_found char)).
Proof.
  unfold _kb_array_for_char, supported.
  destruct (decide (char ∈ lowercase keyboard)) as [Hl|Hl].
  - left. rewrite bool_decide_eq_true_2 by done. split; [by left|].
    eexists; split; [done|]. by apply elem_of_list_to_set in Hl.
  - rewrite bool_decide_eq_false_2 by done.
    destruct (decide (char ∈ uppercase keyboard)) as [Hu|Hu].
    + left. rewrite bool_decide_eq_true_2 by done. split; [by right|].
      eexists; split; [done|]. by apply elem_of_list_to_set in Hu.
    + right. rewrite bool_decide_eq_false_2 by done. split; [tauto|done].
Qed.

Lemma char_coord_cases char :
  (supported keyboard char /\ exists rc, char_coord keyboard char = Ok rc)
  \/ (~ supported keyboard char
      /\ char_coord keyboard char = Raise (ValueError_not_found char)).
Proof.
  unfold char_coord.
  destruct (kb_array_for_char_cases char)
    as [[Hs (kb & -> & Hin)]|[Hs ->]]; [left|by right].
  split; [done|]. simpl.
  destruct (get_char_coord_found char kb Hin) as [[r col] ->]. by eexists.
Qed.

(** The four metrics: each is defined exactly on the pairs of supported
    characters, asks for the first character first, and does not depend on
    the order of its arguments. *)
Definition metric_ok (f : str -> str -> result Q) : Prop :=
  forall char1 char2,
    match char_coord keyboard char1, char_coord keyboard char2 with
    | Ok _, Ok _ =>
        exists m, f char1 char2 = Ok m /\ f char2 char1 = Ok m
    | Ok _, Raise e => f char1 char2 = Raise e
    | Raise e, _ => f char1 char2 = Raise e
    end.

Lemma euclidean_ok :
  metric_ok (_euclidean_keyboard_distance sqrt_f keyboard).
Proof.
  intros char1 char2. unfold _euclidean_keyboard_distance.
  destruct (char_coord keyboard char1) as [[row1 col1]|e1]; [|done].
  destruct (char_coord keyboard char2) as [[row2 col2]|e2]; [|done].
  simpl. eexists; split; [done|]. do 2 f_equal. ring.
Qed.

Lemma manhattan_ok : metric_ok (_manhattan_keyboard_distance keyboard).
Proof.
  intros char1 char2. unfold _manhattan_keyboard_distance.
  destruct (char_coord keyboard char1) as [[row1 col1]|e1]; [|done].
  destruct (char_coord keyboard char2) as [[row2 col2]|e2]; [|done].
  simpl. eexists; split; [done|]. do 2 f_equal. lia.
Qed.

Lemma log_euclidean_ok :
  metric_ok (_log_euclidean_keyboard_distance sqrt_f log_f keyboard).
Proof.
  intros char1 char2. unfold _log_euclidean_keyboard_distance.
  pose proof (euclidean_ok char1 char2) as H.
  destruct (char_coord keyboard char1) as [rc1|e1]; [|by rewrite H].
  destruct (char_coord keyboard char2) as [rc2|e2]; [|by rewrite H].
  destruct H as (m & -> & ->). by eexists.
Qed.

Lemma log_manhattan_ok :
  metric_ok (_log_manhattan_keyboard_distance log_f keyboard).
Proof.
  intros char1 char2. unfold _log_manhattan_keyboard_distance.
  pose proof (manhattan_ok char1 char2) as H.
  destruct (char_coord keyboard char1) as [rc1|e1]; [|by rewrite H].
  destruct (char_coord keyboard char2) as [rc2|e2]; [|by rewrite H].
  destruct H as (m & -> & ->). by eexists.
Qed.

Lemma metric_dict_lookup metric f :
  metric_dict sqrt_f log_f keyboard !! metric = Some f -> metric_ok f.
Proof.
  unfold metric_dict. simpl list_to_map.
  rewrite !lookup_insert_Some, lookup_empty.
  intros [[_ <-]|[_ [[_ <-]|[_ [[_ <-]|[_ [[_ <-]|[_ [=]]]]]]]]].
  - apply euclidean_ok.
  - apply manhattan_ok.
  - apply log_euclidean_ok.
  - apply log_manhattan_ok.
Qed.

Lemma metric_dict_unknown metric :
  metric <> "euclidean"%string -> metric <> "manhattan"%string ->
  metric <> "log-euclidean"%string -> metric <> "log-manhattan"%string ->
  getitem (metric_dict sqrt_f log_f keyboard) metric
  = Raise (KeyError metric).
Proof.
  intros. unfold getitem, metric_dict. simpl list_to_map.
  by rewrite !lookup_insert_ne, lookup_empty by done.
Qed.
End Characters.

(** *** The substitution cost *)

Section Substitution.
Variable sqrt_f : Z -> Q.
Variable log_f : Q -> Q.
Variable keyboard : keyboard.
Variable metric : string.
Variables sub_cost shift_cost : Q.

Local Abbreviation subst_cost :=
  (_substitution_cost sqrt_f log_f keyboard metric sub_cost shift_cost).
Local Abbreviation supp := (supported keyboard).

Lemma getitem_Ok {A} (d : gmap string A) k a :
  getitem d k = Ok a -> d !! k = Some a.
Proof. unfold getitem. by destruct (d !! k); intros [= ->]. Qed.

Lemma getitem_cases {A} (d : gmap string A) k :
  (exists a, getitem d k = Ok a) \/ getitem d k = Raise (KeyError k).
Proof. unfold getitem. destruct (d !! k); eauto. Qed.

(** With an unknown metric name the cost of any pair is a [KeyError]. *)
Lemma substitution_cost_unknown_metric char1 char2 :
  getitem (metric_dict sqrt_f log_f keyboard) metric
  = Raise (KeyError metric) ->
  subst_cost char1 char2 = Raise (KeyError metric).
Proof. intros H. unfold _substitution_cost. by rewrite H. Qed.

(** With a known metric the cost is defined on supported characters and
    otherwise names the first unsupported one. *)
Lemma substitution_cost_cases f char1 char2 :
  getitem (metric_dict sqrt_f log_f keyboard) metric = Ok f ->
  (supp char1 /\ supp char2
   /\ exists m kb1 kb2,
       f char1 char2 = Ok m /\ f char2 char1 = Ok m
       /\ _kb_array_for_char keyboard char1 = Ok kb1
       /\ _kb_array_for_char keyboard char2 = Ok kb2
       /\ subst_cost char1 char2
          = Ok (sub_cost
                * (m + shift_cost
                       * (if bool_decide (kb1 ≠ kb2) then 1 else 0))))
  \/ (~ supp char1
      /\ subst_cost char1 char2 = Raise (ValueError_not_found char1))
  \/ (supp char1 /\ ~ supp char2
      /\ subst_cost char1 char2 = Raise (ValueError_not_found char2)).
Proof.
  intros Hf. unfold _substitution_cost. rewrite Hf. simpl.
  apply getitem_Ok, metric_dict_lookup in Hf.
  pose proof (Hf char1 char2) as H12. pose proof (Hf char2 char1) as H21.
  destruct (char_coord_cases keyboard char1) as [[Hs1 [rc1 Hc1]]|[Hs1 Hc1]];
    rewrite Hc1 in H12, H21.
  - destruct (char_coord_cases keyboard char2)
      as [[Hs2 [rc2 Hc2]]|[Hs2 Hc2]]; rewrite Hc2 in H12, H21.
    + left. split; [done|]. split; [done|].
      destruct H12 as (m & H12 & H12').
      destruct (kb_array_for_char_cases keyboard char1)
        as [[_ (kb1 & Hk1 & _)]|[? _]]; [|done].
      destruct (kb_array_for_char_cases keyboard char2)
        as [[_ (kb2 & Hk2 & _)]|[? _]]; [|done].
      exists m, kb1, kb2. by rewrite H12, Hk1, Hk2.
    + right; right. by rewrite H12.
  - right; left. by rewrite H12.
Qed.

Lemma substitution_cost_sym_Ok char1 char2 v :
  subst_cost char1 char2 = Ok v -> subst_cost char2 char1 = Ok v.
Proof.
  intros H12.
  destruct (getitem_cases (metric_dict sqrt_f log_f keyboard) metric)
    as [[f Hf]|Hf].
  - destruct (substitution_cost_cases f char1 char2 Hf)
      as [(_ & _ & m & kb1 & kb2 & Hm & Hm' & Hk1 & Hk2 & Hv)
         |[[_ H]|(_ & _ & H)]];
      [|congruence..].
    destruct (substitution_cost_cases f char2 char1 Hf)
      as [(_ & _ & m' & kb2' & kb1' & Hn & Hn' & Hk2' & Hk1' & Hv')
         |[[? H]|(_ & ? & H)]].
    + rewrite Hv', <- H12, Hv.
      rewrite Hm' in Hn. rewrite Hk1 in Hk1'. rewrite Hk2 in Hk2'.
      injection Hn as <-. injection Hk1' as <-. injection Hk2' as <-.
      by rewrite (bool_decide_ext (kb2 ≠ kb1) (kb1 ≠ kb2)) by naive_solver.
    + by destruct (kb_array_for_char_cases keyboard char2) as [[? _]|[_ ?]];
        [|congruence].
    + by destruct (kb_array_for_char_cases keyboard char1) as [[? _]|[_ ?]];
        [|congruence].
  - by rewrite substitution_cost_unknown_metric in H12.
Qed.
End Substitution.

(** *** Exceptions raised while the matrix is filled *)

Section FillRaises.
Variable fp : float32.
Variable sqrt_f : Z -> Q.
Variable log_f : Q -> Q.
Variable keyboard : keyboard.
Variable metric : string.
Variables ins_cost del_cost sub_cost shift_cost : Q.
Variables src tar : str.

Local Abbreviation subst_cost :=
  (_substitution_cost sqrt_f log_f keyboard metric sub_cost shift_cost).
Local Abbreviation fill_cell' :=
  (fill_cell fp sqrt_f log_f keyboard metric ins_cost del_cost sub_cost
             shift_cost src tar).
Local Abbreviation fill' :=
  (fill fp sqrt_f log_f keyboard metric ins_cost del_cost sub_cost
        shift_cost src tar).

(** A cell raises exactly what the substitution cost of its pair of
    distinct characters raises. *)
Lemma fill_cell_raise d i j e :
  fill_cell' d i j = Raise e <->
  item src i ≠ item tar j
  /\ subst_cost (item src i) (item tar j) = Raise e.
Proof.
  unfold fill_cell. case_bool_decide as Hne; simpl.
  - destruct (subst_cost _ _) as [v|e']; simpl.
    + split; [done|]. by intros [_ ?].
    + split; [by intros [= ->]|]. by intros [_ [= ->]].
  - split; [done|]. by intros [? _].
Qed.

Lemma fill_raises (E : exn -> Prop) d i j :
  (i < length src)%nat -> (j < length tar)%nat ->
  (exists e, item src i ≠ item tar j
             /\ subst_cost (item src i) (item tar j) = Raise e) ->
  (forall i' j' e,
      (i' < length src)%nat -> (j' < length tar)%nat ->
      item src i' ≠ item tar j' ->
      subst_cost (item src i') (item tar j') = Raise e -> E e) ->
  exists e, fill' d = Raise e /\ E e.
Proof.
  intros Hi Hj (e0 & Hne & He0) HE. unfold fill.
  edestruct (for_each_raises
               (fun d i => for_each (fun d j => fill_cell' d i j)
                                    (seq 0 (length tar)) d)
               (seq 0 (length src)) i d) as [e He].
  { apply elem_of_seq. lia. }
  { intros d'. apply (for_each_raises _ _ j); [apply elem_of_seq; lia|].
    intros d''. exists e0. by apply fill_cell_raise. }
  exists e. split; [done|].
  apply for_each_raise_inv in He as (d1 & i' & Hi' & He).
  apply for_each_raise_inv in He as (d2 & j' & Hj' & He).
  apply fill_cell_raise in He as [? ?].
  apply elem_of_seq in Hi'. apply elem_of_seq in Hj'.
  apply (HE i' j'); [lia|lia|done..].
Qed.
End FillRaises.

(** *** [typo]: the early returns and the configuration errors *)

Section TypoFunction.
Variable fp : float32.
Variable sqrt_f : Z -> Q.
Variable log_f : Q -> Q.

Local Abbreviation typo' := (typo fp sqrt_f log_f).

Lemma typo_unpacked src tar metric ins del sub shift layout :
  typo' src tar metric [ins; del; sub; shift] layout =
  if decide (src = tar) then Ok 0
  else if decide (src = []) then Ok (inject_Z (len tar) * ins)
  else if decide (tar = []) then Ok (inject_Z (len src) * del)
  else
    keyboard ← getitem kbs layout;
    typo_dp fp sqrt_f log_f keyboard metric ins del sub shift src tar.
Proof. reflexivity. Qed.

Lemma typo_bad_arity src tar metric cost layout :
  length cost <> 4%nat ->
  typo' src tar metric cost layout = Raise (ValueError_unpack 4).
Proof. intros H. unfold typo. by rewrite unpack4_bad_length. Qed.

Lemma typo_same src metric cost layout :
  length cost = 4%nat -> typo' src src metric cost layout = Ok 0.
Proof.
  intros (ins & del & sub & shift & ->)%unpack4_length.
  rewrite typo_unpacked. by rewrite decide_True.
Qed.

Lemma typo_empty_src tar metric ins del sub shift layout :
  tar <> [] ->
  typo' [] tar metric [ins; del; sub; shift] layout
  = Ok (inject_Z (len tar) * ins).
Proof.
  intros Hne. rewrite typo_unpacked.
  rewrite decide_False by done. by rewrite decide_True.
Qed.

Lemma typo_empty_tar src metric ins del sub shift layout :
  src <> [] ->
  typo' src [] metric [ins; del; sub; shift] layout
  = Ok (inject_Z (len src) * del).
Proof.
  intros Hne. rewrite typo_unpacked.
  rewrite !decide_False by done. by rewrite decide_True.
Qed.

(** Past the early returns, [typo] is the dynamic programme on the layout
    that [kbs] gives. *)
Lemma typo_dp_reached src tar metric ins del sub shift layout :
  src <> tar -> src <> [] -> tar <> [] ->
  typo' src tar metric [ins; del; sub; shift] layout
  = (keyboard ← getitem kbs layout;
     typo_dp fp sqrt_f log_f keyboard metric ins del sub shift src tar).
Proof.
  intros Hne Hs Ht. rewrite typo_unpacked. by rewrite !decide_False by done.
Qed.

Lemma typo_unknown_layout src tar metric cost layout :
  length cost = 4%nat -> src <> tar -> src <> [] -> tar <> [] ->
  kbs !! layout = None ->
  typo' src tar metric cost layout = Raise (KeyError layout).
Proof.
  intros (ins & del & sub & shift & ->)%unpack4_length Hne Hs Ht Hl.
  rewrite typo_dp_reached by done. unfold getitem. by rewrite Hl.
Qed.

Lemma nonempty_of_index (s : str) i : (i < length s)%nat -> s <> [].
Proof. destruct s; simpl; [lia|done]. Qed.

Lemma typo_unknown_metric src tar metric cost layout keyboard i j :
  length cost = 4%nat -> src <> tar ->
  kbs !! layout = Some keyboard ->
  metric <> "euclidean"%string -> metric <> "manhattan"%string ->
  metric <> "log-euclidean"%string -> metric <> "log-manhattan"%string ->
  (i < length src)%nat -> (j < length tar)%nat ->
  item src i ≠ item tar j ->
  typo' src tar metric cost layout = Raise (KeyError metric).
Proof.
  intros (ins & del & sub & shift & ->)%unpack4_length Hne Hl
         Hm1 Hm2 Hm3 Hm4 Hi Hj Hij.
  rewrite typo_dp_reached by eauto using nonempty_of_index.
  unfold getitem. rewrite Hl. simpl. unfold typo_dp.
  pose proof (metric_dict_unknown sqrt_f log_f keyboard metric
                Hm1 Hm2 Hm3 Hm4) as Hmetric.
  edestruct (fill_raises fp sqrt_f log_f keyboard metric ins del sub shift
               src tar (fun e => e = KeyError metric)) as (e & -> & ->);
    [exact Hi|exact Hj| | |done].
  - eexists. split; [done|].
    by apply substitution_cost_unknown_metric.
  - intros i' j' e _ _ _.
    rewrite substitution_cost_unknown_metric by done. by intros [= <-].
Qed.

Lemma typo_unsupported_char src tar metric cost layout keyboard f i j :
  length cost = 4%nat -> src <> tar ->
  kbs !! layout = Some keyboard ->
  metric_dict sqrt_f log_f keyboard !! metric = Some f ->
  (i < length src)%nat -> (j < length tar)%nat ->
  item src i ≠ item tar j ->
  ~ supported keyboard (item src i) \/ ~ supported keyboard (item tar j) ->
  exists k,
    typo' src tar metric cost layout
    = Raise (ValueError_not_found [k])
    /\ ~ supported keyboard [k] /\ (k ∈ src \/ k ∈ tar).
Proof.
  intros (ins & del & sub & shift & ->)%unpack4_length Hne Hl Hf
         Hi Hj Hij Hunsupp.
  rewrite typo_dp_reached by eauto using nonempty_of_index.
  unfold getitem at 1. rewrite Hl. simpl. unfold typo_dp.
  assert (getitem (metric_dict sqrt_f log_f keyboard) metric = Ok f)
    as Hget by (unfold getitem; by rewrite Hf).
  edestruct (fill_raises fp sqrt_f log_f keyboard metric ins del sub shift
               src tar
               (fun e => exists k, e = ValueError_not_found [k]
                                   /\ ~ supported keyboard [k]
                                   /\ (k ∈ src \/ k ∈ tar)))
    as (e & -> & k & -> & Hk); [exact Hi|exact Hj| | |by exists k].
  - destruct (substitution_cost_cases sqrt_f log_f keyboard metric sub
                shift f (item src i) (item tar j) Hget)
      as [(? & ? & _)|[[_ H]|(_ & _ & H)]]; [tauto|eauto..].
  - intros i' j' e Hi' Hj' _ He.
    destruct (substitution_cost_cases sqrt_f log_f keyboard metric sub
                shift f (item src i') (item tar j') Hget)
      as [(_ & _ & m & kb1 & kb2 & _ & _ & _ & _ & H)|[[Hs H]|(_ & Hs & H)]];
      rewrite H in He; [done|injection He as <-..].
    + exists (src !!! i'). split; [done|]. split; [done|]. left.
      by apply list_elem_of_lookup_total_2.
    + exists (tar !!! j'). split; [done|]. split; [done|]. right.
      by apply list_elem_of_lookup_total_2.
Qed.
End TypoFunction.

(** *** The distance is not negative *)

Section NonNegative.
Variable fp : float32.
Hypothesis fp_sign : keeps_sign fp.
Variable sqrt_f : Z -> Q.
Variable log_f : Q -> Q.
Hypothesis sqrt_nonneg : forall z, 0 <= sqrt_f z.
Hypothesis log_nonneg : forall q, 0 <= q -> 0 <= log_f (1 + q).

Variable keyboard : keyboard.
Variable metric : string.
Variables ins_cost del_cost sub_cost shift_cost : Q.
Hypothesis ins_nonneg : 0 <= ins_cost.
Hypothesis del_nonneg : 0 <= del_cost.
Hypothesis sub_nonneg : 0 <= sub_cost.
Hypothesis shift_nonneg : 0 <= shift_cost.

Local Abbreviation subst_cost :=
  (_substitution_cost sqrt_f log_f keyboard metric sub_cost shift_cost).

Definition qn (n : nat) : Q := inject_Z (Z.of_nat n).

Lemma qn_nonneg n : 0 <= qn n.
Proof. unfold qn. rewrite <- (Zle_Qle 0). lia. Qed.

Lemma metric_value_nonneg f char1 char2 m :
  metric_dict sqrt_f log_f keyboard !! metric = Some f ->
  f char1 char2 = Ok m -> 0 <= m.
Proof.
  unfold metric_dict. simpl list_to_map.
  rewrite !lookup_insert_Some, lookup_empty.
  assert (forall m, _euclidean_keyboard_distance sqrt_f keyboard
                      char1 char2 = Ok m -> 0 <= m) as Heuclid.
  { intros m'. unfold _euclidean_keyboard_distance.
    destruct (char_coord keyboard char1) as [[row1 col1]|]; [|done].
    destruct (char_coord keyboard char2) as [[row2 col2]|]; [|done].
    simpl. intros [= <-]. apply sqrt_nonneg. }
  assert (forall m, _manhattan_keyboard_distance keyboard
                      char1 char2 = Ok m -> 0 <= m) as Hmanh.
  { intros m'. unfold _manhattan_keyboard_distance.
    destruct (char_coord keyboard char1) as [[row1 col1]|]; [|done].
    destruct (char_coord keyboard char2) as [[row2 col2]|]; [|done].
    simpl. intros [= <-]. rewrite <- (Zle_Qle 0). lia. }
  intros [[_ <-]|[_ [[_ <-]|[_ [[_ <-]|[_ [[_ <-]|[_ [=]]]]]]]]].
  - apply Heuclid.
  - apply Hmanh.
  - unfold _log_euclidean_keyboard_distance.
    destruct (_euclidean_keyboard_distance _ _ _ _) as [d|] eqn:Hd; [|done].
    simpl. intros [= <-]. by apply log_nonneg, Heuclid.
  - unfold _log_manhattan_keyboard_distance.
    destruct (_manhattan_keyboard_distance _ _ _) as [d|] eqn:Hd; [|done].
    simpl. intros [= <-]. by apply log_nonneg, Hmanh.
Qed.

Lemma substitution_cost_nonneg char1 char2 v :
  subst_cost char1 char2 = Ok v -> 0 <= v.
Proof.
  intros Hv.
  destruct (getitem_cases (metric_dict sqrt_f log_f keyboard) metric)
    as [[f Hf]|Hf].
  - destruct (substitution_cost_cases sqrt_f log_f keyboard metric
                sub_cost shift_cost f char1 char2 Hf)
      as [(_ & _ & m & kb1 & kb2 & Hm & _ & _ & _ & H)|[[_ H]|(_ & _ & H)]];
      rewrite H in Hv; [injection Hv as <-|done..].
    apply getitem_Ok in Hf.
    pose proof (metric_value_nonneg f char1 char2 m Hf Hm).
    apply Qmult_le_0_compat; [done|].
    case_bool_decide; lra.
  - by rewrite substitution_cost_unknown_metric in Hv.
Qed.

Variables src tar : str.

(** No cell of the matrix is negative. *)
Definition nonneg_cells (d : matrix Q) : Prop :=
  shape d (length src + 1) (length tar + 1)
  /\ forall i j, (i <= length src)%nat -> (j <= length tar)%nat ->
                 0 <= get d i j.

Lemma nonneg_set d i j v :
  nonneg_cells d -> (i <= length src)%nat -> (j <= length tar)%nat ->
  0 <= v -> nonneg_cells (set d i j v).
Proof.
  intros [Hshape Hd] Hi Hj Hv. split; [apply shape_set; [done|lia]|].
  intros i' j' Hi' Hj'.
  destruct (decide ((i, j) = (i', j'))) as [[= <- <-]|Hne].
  - by rewrite (get_set_eq _ _ _ _ _ _ Hshape) by lia.
  - rewrite get_set_ne by done. by apply Hd.
Qed.

Lemma nonneg_zeros :
  nonneg_cells (np_zeros 0 (length src + 1) (length tar + 1)).
Proof.
  split; [apply shape_np_zeros|]. intros i j Hi Hj.
  rewrite get_np_zeros by lia. lra.
Qed.

Lemma nonneg_init_column d :
  nonneg_cells d -> nonneg_cells (init_column fp del_cost (length src) d).
Proof.
  intros Hd. unfold init_column.
  apply (foldl_seq_invariant (fun _ d => nonneg_cells d)); [done|].
  intros i a Hi Ha. apply nonneg_set; [done|lia|lia|].
  apply fp_sign. apply Qmult_le_0_compat; [apply (qn_nonneg i)|done].
Qed.

Lemma nonneg_init_row d :
  nonneg_cells d -> nonneg_cells (init_row fp ins_cost (length tar) d).
Proof.
  intros Hd. unfold init_row.
  apply (foldl_seq_invariant (fun _ d => nonneg_cells d)); [done|].
  intros j a Hj Ha. apply nonneg_set; [done|lia|lia|].
  apply fp_sign. apply Qmult_le_0_compat; [apply (qn_nonneg j)|done].
Qed.

Lemma nonneg_fill_cell d d' i j :
  (i < length src)%nat -> (j < length tar)%nat ->
  nonneg_cells d ->
  fill_cell fp sqrt_f log_f keyboard metric ins_cost del_cost sub_cost
            shift_cost src tar d i j = Ok d' ->
  nonneg_cells d'.
Proof.
  intros Hi Hj Hd. unfold fill_cell.
  destruct (if bool_decide (item src i ≠ item tar j)
            then subst_cost (item src i) (item tar j)
            else Ok 0) as [s|e] eqn:Hs; simpl; [|done].
  assert (0 <= s) as Hs0.
  { case_bool_decide; [by eapply substitution_cost_nonneg|].
    injection Hs as <-. lra. }
  intros [= <-]. apply nonneg_set; [done|lia|lia|].
  destruct Hd as [_ Hd]. destruct fp_sign as [Hf32 Hadd32].
  apply Hf32. repeat apply Q.min_glb; apply Hadd32; try done;
    apply Hd; lia.
Qed.

Lemma typo_dp_nonneg v :
  typo_dp fp sqrt_f log_f keyboard metric ins_cost del_cost sub_cost
          shift_cost src tar = Ok v ->
  0 <= v.
Proof.
  unfold typo_dp.
  destruct (fill _ _ _ _ _ _ _ _ _ _ _ _) as [d|e] eqn:Hfill; simpl;
    [|done].
  intros [= <-].
  assert (nonneg_cells d) as [_ Hd]; [|apply Hd; lia].
  revert Hfill. unfold fill.
  apply (for_each_seq_invariant (fun _ d => nonneg_cells d)).
  - apply nonneg_init_row, nonneg_init_column, nonneg_zeros.
  - intros i a a' Hi Ha.
    apply (for_each_seq_invariant (fun _ d => nonneg_cells d)); [done|].
    intros j b b' Hj Hb. apply nonneg_fill_cell; [lia|lia|done].
Qed.
End NonNegative.

Section NormalisedNonNegative.
Variable fp : float32.
Hypothesis fp_sign : keeps_sign fp.
Variable sqrt_f : Z -> Q.
Variable log_f : Q -> Q.
Hypothesis sqrt_nonneg : forall z, 0 <= sqrt_f z.
Hypothesis log_nonneg : forall q, 0 <= q -> 0 <= log_f (1 + q).
Variables ins del sub shift : Q.
Hypothesis ins_nonneg : 0 <= ins.
Hypothesis del_nonneg : 0 <= del.
Hypothesis sub_nonneg : 0 <= sub.
Hypothesis shift_nonneg : 0 <= shift.

Lemma typo_nonneg src tar metric layout v :
  typo fp sqrt_f log_f src tar metric [ins; del; sub; shift] layout = Ok v ->
  0 <= v.
Proof.
  rewrite typo_unpacked.
  pose proof (Qmult_le_0_compat _ _ (qn_nonneg (length src)) del_nonneg).
  pose proof (Qmult_le_0_compat _ _ (qn_nonneg (length tar)) ins_nonneg).
  unfold len. fold (qn (length src)) (qn (length tar)).
  repeat case_decide; try (intros [= <-]; lra).
  destruct (getitem kbs layout) as [keyboard|e]; simpl; [|done].
  by apply typo_dp_nonneg.
Qed.

(** The normalised distance, when it is defined, is not negative. *)
Lemma dist_typo_nonneg src tar metric d :
  dist_typo fp sqrt_f log_f src tar metric [ins; del; sub; shift] = Ok d ->
  0 <= d.
Proof.
  unfold dist_typo. case_decide; [intros [= <-]; lra|].
  change (unpack2 (take 2 [ins; del; sub; shift])) with (Ok (ins, del)).
  simpl.
  destruct (typo _ _ _ _ _ _ _ _) as [num|e] eqn:Hnum; simpl; [|done].
  apply typo_nonneg in Hnum.
  unfold len. fold (qn (length src)) (qn (length tar)).
  pose proof (Qmult_le_0_compat _ _ (qn_nonneg (length src)) del_nonneg).
  pose proof (Qmult_le_0_compat _ _ (qn_nonneg (length tar)) ins_nonneg).
  set (den := Qmax (qn (length src) * del) (qn (length tar) * ins)).
  pose proof (Q.le_max_l (qn (length src) * del) (qn (length tar) * ins))
    as Hl.
  fold den in Hl.
  destruct (Qeq_bool den 0) eqn:Hden; [done|]. intros [= <-].
  apply Qeq_bool_neq in Hden.
  assert (0 < den).
  { assert (0 <= den) as [?|Hz]%Qle_lteq by lra; [done|].
    by destruct Hden. }
  apply Qle_shift_div_l; [done|]. lra.
Qed.

(** The similarity is 1 minus the distance, and is undefined with it. *)
Lemma sim_typo_dist src tar metric cost :
  (forall d, dist_typo fp sqrt_f log_f src tar metric cost = Ok d ->
             sim_typo fp sqrt_f log_f src tar metric cost = Ok (1 - d))
  /\ (forall e, dist_typo fp sqrt_f log_f src tar metric cost = Raise e ->
                sim_typo fp sqrt_f log_f src tar metric cost = Raise e).
Proof. unfold sim_typo. split; by intros ? ->. Qed.
End NormalisedNonNegative.

(** *** Names of metrics, and the stand-ins for the library functions *)

Section Instances.
Lemma known_metric_lookup sqrt_f log_f keyboard metric :
  known_metric metric ->
  exists f, metric_dict sqrt_f log_f keyboard !! metric = Some f.
Proof.
  unfold known_metric, metric_dict. simpl list_to_map.
  rewrite !elem_of_cons, elem_of_nil.
  intros [->|[->|[->|[->|[]]]]]; by eexists.
Qed.

Lemma unknown_metric_getitem sqrt_f log_f keyboard metric :
  ~ known_metric metric ->
  getitem (metric_dict sqrt_f log_f keyboard) metric
  = Raise (KeyError metric).
Proof.
  unfold known_metric. rewrite !elem_of_cons, elem_of_nil. intros H.
  apply metric_dict_unknown; tauto.
Qed.

Lemma sqrt_floor_nonneg z : 0 <= sqrt_floor z.
Proof. unfold sqrt_floor. rewrite <- (Zle_Qle 0). apply Z.sqrt_nonneg. Qed.

Lemma log_zero_nonneg q : 0 <= q -> 0 <= log_zero (1 + q).
Proof. intros _. unfold log_zero. lra. Qed.

Lemma round_half_even_nonneg n d :
  (0 <= n)%Z -> (0 < d)%Z -> (0 <= round_half_even n d)%Z.
Proof.
  intros Hn Hd. unfold round_half_even.
  pose proof (Z.div_pos n d Hn Hd).
  repeat match goal with |- context [if ?b then _ else _] => destruct b end;
    lia.
Qed.

(** Rounding to the nearest float keeps the sign. *)
Lemma round_float_nonneg prec emin q :
  0 <= q -> 0 <= round_float prec emin q.
Proof.
  intros Hq. unfold round_float, round_reduced.
  assert (0 <= Qnum (Qred q))%Z as Hnum.
  { rewrite <- (Qred_correct q) in Hq. unfold Qle in Hq. simpl in Hq. lia. }
  destruct (Z.abs (Qnum (Qred q)) =? 0)%Z eqn:Hz; [apply Qle_refl|].
  apply Z.eqb_neq in Hz.
  rewrite Qred_correct.
  set (k := Z.max _ emin).
  assert (0 <= Z.sgn (Qnum (Qred q))
               * (if (0 <=? k)%Z
                  then round_half_even (Z.abs (Qnum (Qred q)))
                         (Z.pos (Qden (Qred q)) * 2 ^ k)
                  else round_half_even (Z.abs (Qnum (Qred q)) * 2 ^ (- k))
                         (Z.pos (Qden (Qred q)))))%Z as Hm.
  { apply Z.mul_nonneg_nonneg; [lia|].
    destruct (0 <=? k)%Z eqn:Hk.
    - apply Z.leb_le in Hk. apply round_half_even_nonneg; [lia|].
      apply Z.mul_pos_pos; [lia|]. by apply Z.pow_pos_nonneg.
    - apply Z.leb_gt in Hk. apply round_half_even_nonneg; [|lia].
      apply Z.mul_nonneg_nonneg; [lia|]. apply Z.pow_nonneg. lia. }
  destruct (0 <=? k)%Z eqn:Hk.
  - apply Z.leb_le in Hk. unfold Qle. simpl.
    assert (0 <= 2 ^ k)%Z by (apply Z.pow_nonneg; lia). nia.
  - unfold Qle. simpl. lia.
Qed.

Lemma numpy_v1_keeps_sign : keeps_sign numpy_v1.
Proof.
  split; simpl; intros; apply round_float_nonneg; [done|]. lra.
Qed.

Lemma numpy_v2_keeps_sign : keeps_sign numpy_v2.
Proof.
  split; simpl.
  - intros q Hq. by apply round_float_nonneg.
  - intros a c Ha Hc. apply round_float_nonneg.
    pose proof (round_float_nonneg 24 (-149) c Hc) as Hc'.
    unfold binary32. lra.
Qed.
End Instances.

End TypoFacts.

Module TypoMore.
Import Typo TypoFacts.
Local Open Scope Q_scope.

(** *** The recurrence of the typo matrix *)

Section Recurrence.
Variable fp : float32.
Variable sqrt_f : Z -> Q.
Variable log_f : Q -> Q.
Variable keyboard : keyboard.
Variable metric : string.
Variables ins_cost del_cost sub_cost shift_cost : Q.
Variables src tar : str.

Local Abbreviation subst_cost :=
  (_substitution_cost sqrt_f log_f keyboard metric sub_cost shift_cost).
Local Abbreviation fill_cell' :=
  (fill_cell fp sqrt_f log_f keyboard metric ins_cost del_cost sub_cost
             shift_cost src tar).

(** What the third argument of [min] adds at the cell [(i + 1, j + 1)]. *)
Definition pair_cost (i j : nat) : result Q :=
  if bool_decide (item src i ≠ item tar j)
  then subst_cost (item src i) (item tar j)
  else Ok 0.

Definition pair_value (i j : nat) : Q :=
  match pair_cost i j with
  | Ok v => v
  | Raise _ => 0
  end.

(** The value that ends up in [d_mat[i, j]] when no pair raises. *)
Fixpoint tcell (i : nat) : nat -> Q :=
  match i with
  | O => fun j => f32 fp (inject_Z (Z.of_nat j) * ins_cost)
  | S i' =>
      fix row (j : nat) : Q :=
        match j with
        | O => f32 fp (inject_Z (Z.of_nat (S i')) * del_cost)
        | S j' =>
            f32 fp
              (Qmin (add32 fp (row j') ins_cost)
                 (Qmin (add32 fp (tcell i' (S j')) del_cost)
                       (add32 fp (tcell i' j') (pair_value i' j'))))
        end
  end.

Lemma tcell_0 j : tcell 0 j = f32 fp (inject_Z (Z.of_nat j) * ins_cost).
Proof. reflexivity. Qed.

Lemma tcell_S_0 i :
  tcell (S i) 0 = f32 fp (inject_Z (Z.of_nat (S i)) * del_cost).
Proof. reflexivity. Qed.

Lemma tcell_S_S i j :
  tcell (S i) (S j)
  = f32 fp
      (Qmin (add32 fp (tcell (S i) j) ins_cost)
         (Qmin (add32 fp (tcell i (S j)) del_cost)
               (add32 fp (tcell i j) (pair_value i j)))).
Proof. reflexivity. Qed.

Lemma fill_cell_pair d i j :
  fill_cell' d i j
  = (s ← pair_cost i j;
     Ok (set d (i + 1) (j + 1)
             (f32 fp
                (Qmin (add32 fp (get d (i + 1) j) ins_cost)
                   (Qmin (add32 fp (get d i (j + 1)) del_cost)
                         (add32 fp (get d i j) s)))))).
Proof. reflexivity. Qed.

Definition tshape (d : matrix Q) : Prop :=
  shape d (length src + 1) (length tar + 1).

Definition tcolumn (d : matrix Q) : Prop :=
  forall i, (1 <= i <= length src)%nat -> get d i 0 = tcell i 0.

Definition trows (k : nat) (d : matrix Q) : Prop :=
  forall i j, (i < k)%nat -> (j <= length tar)%nat -> get d i j = tcell i j.

Definition trow_upto (i l : nat) (d : matrix Q) : Prop :=
  forall j, (j < l)%nat -> get d i j = tcell i j.

Lemma typo_init_spec :
  let d := init_row fp ins_cost (length tar)
             (init_column fp del_cost (length src)
                (np_zeros 0 (length src + 1) (length tar + 1))) in
  tshape d /\ tcolumn d /\ trows 1 d.
Proof.
  set (d0 := np_zeros 0 _ _).
  assert (tshape d0) as H0 by apply shape_np_zeros.
  assert (tshape (init_column fp del_cost (length src) d0)
          /\ forall i, (i < 0 + (length src + 1))%nat ->
                       get (init_column fp del_cost (length src) d0) i 0
                       = f32 fp (inject_Z (Z.of_nat i) * del_cost))
    as [H1 Hcol].
  { unfold init_column.
    apply (foldl_seq_invariant
             (fun k d => tshape d
                         /\ forall i, (i < k)%nat ->
                                      get d i 0
                                      = f32 fp (inject_Z (Z.of_nat i)
                                                * del_cost))).
    - split; [done|]. intros i Hi. lia.
    - intros i a Hi [Ha Hcol]. split; [apply shape_set; [done|lia]|].
      intros i' Hi'. destruct (decide (i' = i)) as [->|Hne].
      + by rewrite (get_set_eq _ _ _ _ _ _ Ha) by lia.
      + rewrite get_set_ne by congruence. apply Hcol. lia. }
  simpl.
  cut (tshape (init_row fp ins_cost (length tar)
                 (init_column fp del_cost (length src) d0))
       /\ tcolumn (init_row fp ins_cost (length tar)
                     (init_column fp del_cost (length src) d0))
       /\ trow_upto 0 (0 + (length tar + 1))
            (init_row fp ins_cost (length tar)
               (init_column fp del_cost (length src) d0))).
  { intros (? & ? & Hrow). split; [done|]. split; [done|].
    intros i j Hi Hj. replace i with 0%nat by lia. apply Hrow. lia. }
  unfold init_row.
  apply (foldl_seq_invariant
           (fun k d => tshape d /\ tcolumn d /\ trow_upto 0 k d)).
  - split; [done|]. split.
    + intros i Hi. rewrite Hcol by lia. by destruct i; [lia|].
    + intros j Hj. lia.
  - intros j a Hj (Ha & Hcola & Hrow). split; [|split].
    + apply shape_set; [done|lia].
    + intros i Hi. rewrite get_set_ne by (intros [=]; lia). by apply Hcola.
    + intros j' Hj'. destruct (decide (j' = j)) as [->|Hne].
      * by rewrite (get_set_eq _ _ _ _ _ _ Ha) by lia.
      * rewrite get_set_ne by congruence. apply Hrow. lia.
Qed.

Lemma typo_fill_row_spec i d d' :
  (i < length src)%nat ->
  tshape d -> tcolumn d -> trows (S i) d ->
  for_each (fun d j => fill_cell' d i j) (seq 0 (length tar)) d = Ok d' ->
  tshape d' /\ tcolumn d' /\ trows (S (S i)) d'.
Proof.
  intros Hi Hshape Hcol Hrows Hrun.
  cut (tshape d' /\ tcolumn d' /\ trows (S i) d'
       /\ trow_upto (S i) (S (0 + length tar)) d').
  { intros (? & ? & Habove & Hrow). split; [done|]. split; [done|].
    intros i' j Hi' Hj. destruct (decide (i' = S i)) as [->|Hne].
    - apply Hrow. lia.
    - apply Habove; lia. }
  revert Hrun.
  apply (for_each_seq_invariant
           (fun l d => tshape d /\ tcolumn d /\ trows (S i) d
                       /\ trow_upto (S i) (S l) d)).
  - split; [done|]. split; [done|]. split; [done|].
    intros j Hj. replace j with 0%nat by lia. apply Hcol. lia.
  - intros j a a' Hj (Ha & Hcola & Hrowsa & Hrow).
    rewrite fill_cell_pair. unfold pair_value.
    destruct (pair_cost i j) as [s|e] eqn:Hs; simpl; [|done].
    intros [= <-]. replace (i + 1)%nat with (S i) by lia.
    replace (j + 1)%nat with (S j) by lia.
    split; [|split; [|split]].
    + apply shape_set; [done|lia].
    + intros i' Hi'. rewrite get_set_ne by (intros [=]; lia).
      by apply Hcola.
    + intros i' j' Hi' Hj'. rewrite get_set_ne by (intros [=]; lia).
      by apply Hrowsa.
    + intros j' Hj'. destruct (decide (j' = S j)) as [->|Hne].
      * rewrite (get_set_eq _ _ _ _ _ _ Ha) by lia.
        rewrite (Hrow j), (Hrowsa i (S j)), (Hrowsa i j) by lia.
        rewrite tcell_S_S. unfold pair_value. by rewrite Hs.
      * rewrite get_set_ne by congruence. apply Hrow. lia.
Qed.

(** When [typo_dp] returns, it returns the cell of the recurrence. *)
Lemma typo_dp_tcell v :
  typo_dp fp sqrt_f log_f keyboard metric ins_cost del_cost sub_cost shift_cost
          src tar = Ok v ->
  v = tcell (length src) (length tar).
Proof.
  unfold typo_dp.
  destruct typo_init_spec as (H0 & Hcol & Hrows). revert H0 Hcol Hrows.
  generalize (init_row fp ins_cost (length tar)
                (init_column fp del_cost (length src)
                   (np_zeros 0 (length src + 1) (length tar + 1)))).
  intros d0 H0 Hcol Hrows.
  destruct (fill _ _ _ _ _ _ _ _ _ _ _ _) as [d|e] eqn:Hfill; simpl; [|done].
  intros [= <-].
  cut (tshape d /\ tcolumn d /\ trows (S (0 + length src)) d).
  { intros (_ & _ & Hd). apply Hd; lia. }
  revert Hfill. unfold fill.
  apply (for_each_seq_invariant
           (fun k d => tshape d /\ tcolumn d /\ trows (S k) d)).
  - done.
  - intros i a a' Hi (Ha & Hcola & Hrowsa) Hrun.
    by eapply typo_fill_row_spec; [lia|..].
Qed.

(** [typo_dp] returns exactly when no pair of characters raises. *)
Lemma fill_cell_Ok d i j :
  (exists d', fill_cell' d i j = Ok d') <-> exists v, pair_cost i j = Ok v.
Proof.
  rewrite fill_cell_pair.
  destruct (pair_cost i j) as [v|e]; simpl; split; intros [? ?]; eauto;
    done.
Qed.

Lemma typo_dp_Ok :
  (exists v, typo_dp fp sqrt_f log_f keyboard metric ins_cost del_cost sub_cost
                     shift_cost src tar = Ok v)
  <-> forall i j, (i < length src)%nat -> (j < length tar)%nat ->
                  exists v, pair_cost i j = Ok v.
Proof.
  unfold typo_dp, fill. split.
  - intros [v Hv] i j Hi Hj.
    destruct (pair_cost i j) as [w|e] eqn:Hpair; [by eexists|].
    edestruct (for_each_raises
                 (fun d i => for_each (fun d j => fill_cell' d i j)
                                      (seq 0 (length tar)) d)
                 (seq 0 (length src)) i) as [e' He'].
    { apply elem_of_seq. lia. }
    { intros d'. apply (for_each_raises _ _ j); [apply elem_of_seq; lia|].
      intros d''. exists e. rewrite fill_cell_pair. by rewrite Hpair. }
    by rewrite He' in Hv.
  - intros Hok.
    edestruct (for_each_Ok
                 (fun d i => for_each (fun d j => fill_cell' d i j)
                                      (seq 0 (length tar)) d)
                 (seq 0 (length src))) as [d' ->].
    { intros d i Hi%elem_of_seq. apply for_each_Ok.
      intros d'' j Hj%elem_of_seq. apply fill_cell_Ok, Hok; lia. }
    by eexists.
Qed.
End Recurrence.

(** *** Exchanging the two strings *)

Section Exchange.
Variable fp : float32.
Variable sqrt_f : Z -> Q.
Variable log_f : Q -> Q.
Variable keyboard : keyboard.
Variable metric : string.
Variables ins_cost del_cost sub_cost shift_cost : Q.
Variables src tar : str.

Local Abbreviation pair_cost' :=
  (pair_cost sqrt_f log_f keyboard metric sub_cost shift_cost).
Local Abbreviation pair_value' :=
  (pair_value sqrt_f log_f keyboard metric sub_cost shift_cost).

Lemma pair_cost_exchange i j v :
  pair_cost' src tar i j = Ok v -> pair_cost' tar src j i = Ok v.
Proof.
  unfold pair_cost.
  rewrite (bool_decide_ext (item tar j ≠ item src i)
                           (item src i ≠ item tar j)) by naive_solver.
  case_bool_decide; [|done]. apply substitution_cost_sym_Ok.
Qed.

Lemma pair_value_exchange i j :
  pair_value' src tar i j = pair_value' tar src j i.
Proof.
  unfold pair_value.
  destruct (pair_cost' src tar i j) as [v|e] eqn:H1.
  - by rewrite (pair_cost_exchange _ _ _ H1).
  - destruct (pair_cost' tar src j i) as [w|e'] eqn:H2; [|done].
    unfold pair_cost in *.
    rewrite (bool_decide_ext (item tar j ≠ item src i)
                             (item src i ≠ item tar j)) in H2 by naive_solver.
    case_bool_decide; [|congruence].
    apply substitution_cost_sym_Ok in H2. congruence.
Qed.

(** The matrix of [tar] against [src], with the insert and delete costs
    exchanged, is the transpose of the matrix of [src] against [tar]. *)
Lemma tcell_exchange i j :
  tcell fp sqrt_f log_f keyboard metric ins_cost del_cost sub_cost shift_cost
        src tar i j
  == tcell fp sqrt_f log_f keyboard metric del_cost ins_cost sub_cost
           shift_cost tar src j i.
Proof.
  revert i j. apply EditexFacts.cell_ind2.
  - rewrite !tcell_0. apply f32_proper. simpl. ring.
  - intros j _. rewrite tcell_0, tcell_S_0. reflexivity.
  - intros i _. rewrite tcell_0, tcell_S_0. reflexivity.
  - intros i j IH1 IH2 IH3. rewrite !tcell_S_S, pair_value_exchange.
    apply f32_proper.
    set (s := pair_value' tar src j i).
    pose proof (add32_proper fp _ _ ins_cost ins_cost IH2 (Qeq_refl _))
      as Ha.
    pose proof (add32_proper fp _ _ del_cost del_cost IH1 (Qeq_refl _))
      as Hb.
    pose proof (add32_proper fp _ _ s s IH3 (Qeq_refl _)) as Hc.
    revert Ha Hb Hc.
    generalize (add32 fp (tcell fp sqrt_f log_f keyboard metric ins_cost
                            del_cost sub_cost shift_cost src tar (S i) j)
                         ins_cost).
    generalize (add32 fp (tcell fp sqrt_f log_f keyboard metric ins_cost
                            del_cost sub_cost shift_cost src tar i (S j))
                         del_cost).
    generalize (add32 fp (tcell fp sqrt_f log_f keyboard metric ins_cost
                            del_cost sub_cost shift_cost src tar i j) s).
    generalize (add32 fp (tcell fp sqrt_f log_f keyboard metric del_cost
                            ins_cost sub_cost shift_cost tar src j (S i))
                         ins_cost).
    generalize (add32 fp (tcell fp sqrt_f log_f keyboard metric del_cost
                            ins_cost sub_cost shift_cost tar src (S j) i)
                         del_cost).
    generalize (add32 fp (tcell fp sqrt_f log_f keyboard metric del_cost
                            ins_cost sub_cost shift_cost tar src j i) s).
    intros c' b' a' c b a Ha Hb Hc.
    destruct (Q.min_spec b c) as [[? ->]|[? ->]];
      destruct (Q.min_spec a' c') as [[? ->]|[? ->]];
      match goal with
      | |- Qmin ?x ?y == Qmin ?z ?w =>
          destruct (Q.min_spec x y) as [[? ->]|[? ->]];
          destruct (Q.min_spec z w) as [[? ->]|[? ->]]
      end; lra.
Qed.
End Exchange.

(** The same for [typo] with its early returns. *)
Lemma typo_swap fp sqrt_f log_f (src tar : str) metric ins del sub shift
    layout v :
  typo fp sqrt_f log_f src tar metric [ins; del; sub; shift] layout = Ok v ->
  exists v',
    typo fp sqrt_f log_f tar src metric [del; ins; sub; shift] layout = Ok v'
    /\ v' == v.
Proof.
  intros Hv. rewrite typo_unpacked in Hv. rewrite typo_unpacked.
  destruct (decide (src = tar)) as [->|Hne].
  { rewrite decide_True by done. injection Hv as <-.
    eexists; split; [done|reflexivity]. }
  rewrite (decide_False (P := tar = src)) by congruence.
  destruct (decide (src = [])) as [->|Hs].
  { rewrite (decide_False (P := tar = [])) by congruence.
    injection Hv as <-. eexists; split; [done|reflexivity]. }
  destruct (decide (tar = [])) as [->|Ht].
  { injection Hv as <-. eexists; split; [done|reflexivity]. }
  unfold getitem in *. destruct (kbs !! layout) as [keyboard|]; [|done].
  simpl in *.
  pose proof (typo_dp_tcell _ _ _ _ _ _ _ _ _ _ _ _ Hv) as Hvt.
  assert (exists v', typo_dp fp sqrt_f log_f keyboard metric del ins sub shift
                             tar src = Ok v') as [v' Hv'].
  { apply typo_dp_Ok. intros j i Hj Hi.
    destruct (proj1 (typo_dp_Ok fp sqrt_f log_f keyboard metric ins del sub
                       shift src tar) (ex_intro _ v Hv) i j Hi Hj)
      as [c Hc].
    exists c. by apply pair_cost_exchange. }
  exists v'. split; [done|].
  rewrite (typo_dp_tcell _ _ _ _ _ _ _ _ _ _ _ _ Hv'), Hvt.
  symmetry. apply tcell_exchange.
Qed.


(** *** Coordinates point at the character *)

Section Coordinates.
Lemma index_lookup {A} `{EqDecision A} (l : list A) x n :
  index l x = Some n -> l !! n = Some x.
Proof.
  revert n. induction l as [|y l IH]; intros n; simpl; [done|].
  case_decide as Hy; [by intros [= <-]; subst|].
  destruct (index l x) as [m|]; simpl; [|done].
  intros [= <-]. by apply IH.
Qed.

(** No earlier position holds [x]. *)
Lemma index_first {A} `{EqDecision A} (l : list A) x n m :
  index l x = Some n -> (m < n)%nat -> l !! m <> Some x.
Proof.
  revert n m. induction l as [|y l IH]; intros n m; simpl; [done|].
  case_decide as Hy; [intros [= <-]; lia|].
  destruct (index l x) as [k|] eqn:Hk; simpl; [|done].
  intros [= <-] Hm. destruct m as [|m]; simpl; [congruence|].
  apply (IH k); [done|lia].
Qed.

Lemma get_char_coord_lookup char (kb : kb_array) r col :
  _get_char_coord char kb = Some (r, col) ->
  exists row, kb !! r = Some row /\ row !! col = Some char.
Proof.
  unfold _get_char_coord.
  destruct (List.find _ kb) as [row|] eqn:Hfind; simpl; [|done].
  destruct (index kb row) as [r'|] eqn:Hr; simpl; [|done].
  destruct (index row char) as [c'|] eqn:Hc; simpl; [|done].
  intros [= <- <-]. exists row. eauto using index_lookup.
Qed.
Lemma find_first {A} (f : A -> bool) (l : list A) x :
  List.find f l = Some x ->
  exists p, l !! p = Some x /\ f x = true
            /\ forall q y, (q < p)%nat -> l !! q = Some y -> f y = false.
Proof.
  induction l as [|a l IH]; simpl; [done|].
  destruct (f a) eqn:Hfa.
  - intros [= ->]. exists 0%nat. split; [done|]. split; [done|].
    intros q y Hq. lia.
  - intros Hfind. destruct (IH Hfind) as (p & Hp & Hfx & Hbefore).
    exists (S p). split; [done|]. split; [done|].
    intros [|q] y Hq Hy; simpl in Hy; [by inversion Hy; subst|].
    eapply Hbefore; [|done]. lia.
Qed.
End Coordinates.

(** *** Every exception of the matrix loops *)

Section Exceptions.
Variable fp : float32.
Variable sqrt_f : Z -> Q.
Variable log_f : Q -> Q.
Variable keyboard : keyboard.
Variable metric : string.
Variables ins_cost del_cost sub_cost shift_cost : Q.
Variables src tar : str.

Lemma item_elem_of (s : str) i : (i < length s)%nat -> s !!! i ∈ s.
Proof. intros. by apply list_elem_of_lookup_total_2. Qed.

Lemma typo_dp_raise e :
  typo_dp fp sqrt_f log_f keyboard metric ins_cost del_cost sub_cost shift_cost
          src tar = Raise e ->
  (e = KeyError metric /\ ~ known_metric metric)
  \/ exists k, e = ValueError_not_found [k]
               /\ ~ supported keyboard [k] /\ (k ∈ src \/ k ∈ tar).
Proof.
  unfold typo_dp.
  destruct (fill _ _ _ _ _ _ _ _ _ _ _ _) as [d|e'] eqn:Hfill; simpl; [done|].
  intros [= ->]. unfold fill in Hfill.
  apply for_each_raise_inv in Hfill as (d1 & i & Hi%elem_of_seq & Hfill).
  apply for_each_raise_inv in Hfill as (d2 & j & Hj%elem_of_seq & Hfill).
  apply fill_cell_raise in Hfill as [Hne He].
  destruct (getitem_cases (metric_dict sqrt_f log_f keyboard) metric)
    as [[f Hf]|Hf].
  - right.
    destruct (substitution_cost_cases sqrt_f log_f keyboard metric sub_cost
                shift_cost f (item src i) (item tar j) Hf)
      as [(_ & _ & m & kb1 & kb2 & _ & _ & _ & _ & H)|[[Hs H]|(_ & Hs & H)]];
      rewrite H in He; [done|injection He as <-..].
    + exists (src !!! i). split; [done|]. split; [done|]. left.
      apply item_elem_of. lia.
    + exists (tar !!! j). split; [done|]. split; [done|]. right.
      apply item_elem_of. lia.
  - left. rewrite substitution_cost_unknown_metric in He by done.
    injection He as <-. split; [done|]. intros Hknown.
    destruct (known_metric_lookup sqrt_f log_f keyboard metric Hknown)
      as [f Hf'].
    unfold getitem in Hf. by rewrite Hf' in Hf.
Qed.

Lemma typo_dp_supported :
  known_metric metric ->
  (forall k, k ∈ src -> supported keyboard [k]) ->
  (forall k, k ∈ tar -> supported keyboard [k]) ->
  exists v, typo_dp fp sqrt_f log_f keyboard metric ins_cost del_cost sub_cost
                    shift_cost src tar = Ok v.
Proof.
  intros Hm Hs Ht. apply typo_dp_Ok. intros i j Hi Hj. unfold pair_cost.
  case_bool_decide as Hne; [|by eexists].
  destruct (known_metric_lookup sqrt_f log_f keyboard metric Hm) as [f Hf].
  assert (getitem (metric_dict sqrt_f log_f keyboard) metric = Ok f)
    as Hget by (unfold getitem; by rewrite Hf).
  destruct (substitution_cost_cases sqrt_f log_f keyboard metric sub_cost
              shift_cost f (item src i) (item tar j) Hget)
    as [(_ & _ & m & kb1 & kb2 & _ & _ & _ & _ & Hv)|[[Hu _]|(_ & Hu & _)]].
  - by eexists.
  - destruct Hu. apply Hs, item_elem_of. lia.
  - destruct Hu. apply Ht, item_elem_of. lia.
Qed.
End Exceptions.


End TypoMore.
Module EditexInstances.
Import Editex.

Lemma upper_latin_on_ascii : upper_on_ascii upper_latin.
Proof.
  intros s Hs. induction Hs as [|c s Hc _ IH]; [done|].
  change (upper_latin (c :: s))
    with ((if bool_decide (97 ≤ c ≤ 122)%N then [(c - 32)%N]
           else if decide (c = 223%N) then lit "SS" else [c])
          ++ upper_latin s).
  rewrite IH, fmap_cons. generalize (ascii_upper <$> s). intros l.
  unfold ascii_upper. case_bool_decide; [done|].
  by rewrite decide_False by lia.
Qed.

Lemma nfkd_latin_on_ascii : nfkd_on_ascii nfkd_latin.
Proof. by intros s _. Qed.

(** The two assumptions fix the preprocessing of an ASCII string. *)
Lemma preprocess_ascii upper nfkd s :
  upper_on_ascii upper -> nfkd_on_ascii nfkd ->
  ascii_only s ->
  preprocess upper nfkd s = replace_eszett (ascii_upper <$> s).
Proof.
  intros Hupper Hnfkd Hs. unfold preprocess.
  rewrite (Hupper s Hs). rewrite Hnfkd; [done|].
  unfold ascii_only in *. apply Forall_fmap.
  eapply Forall_impl; [exact Hs|]. intros c Hc. simpl in *.
  unfold ascii_upper. case_bool_decide; lia.
Qed.

End EditexInstances.

(** * The claims about the engine *)

Module Claims.
Import Editex Typo EditexFacts TypoFacts TypoMore EditexInstances.

Ltac ascii_string := unfold ascii_only; compute_done.

(** On ASCII strings [editex] is determined by the two assumptions on the
    library functions. *)
Lemma editex_ascii upper nfkd src tar cost local :
  upper_on_ascii upper -> nfkd_on_ascii nfkd ->
  ascii_only src -> ascii_only tar ->
  editex upper nfkd src tar cost local
  = editex upper_latin nfkd_latin src tar cost local.
Proof.
  intros Hu Hn Hs Ht. unfold editex.
  rewrite !(preprocess_ascii upper nfkd) by done.
  by rewrite !(preprocess_ascii upper_latin nfkd_latin)
    by auto using upper_latin_on_ascii, nfkd_latin_on_ascii.
Qed.

(** ** C1: bounds of the normalised distances *)

(** C1, as stated, fails: (0, 5, 2) is a tuple of non-negative costs, and
    with it the normalised Editex distance of B and P is 2.  The two letters
    share a group, whose cost 5 exceeds the two mismatches of a deletion and
    an insertion, of cost 4, while the divisor is one mismatch, 2. *)
Lemma dist_editex_exceeds_one :
  exists d, dist_editex upper_latin nfkd_latin (lit "B") (lit "P")
                        (0, 5, 2)%Z false = Ok d
            /\ ~ (d <= 1)%Q.
Proof. exists (4 # 2). split; by vm_compute. Qed.

(** C1, amended.  Each similarity is exactly 1 minus the corresponding
    normalised distance whenever that distance is defined, and is undefined
    with it, whatever the costs.  For Editex, when the costs are not
    negative, the mismatch cost is positive, neither the match nor the group
    cost exceeds it, preprocessing lengthens neither string, and the sum of
    the two lengths times the mismatch cost is below 2 ** 63 (so that no sum
    of the int64 matrix wraps around), the normalised distance is defined and
    lies between 0 and 1.  For typo, when the costs are not negative (and the
    square root, the logarithm and the rounding to float32 return nothing
    negative on what is not negative), the normalised distance, whenever it
    is defined, is not negative. *)
Theorem normalized_distance_bounds upper nfkd fp sqrt_f log_f
        (src tar : str) (cost : Z * Z * Z) (cost' : list Q)
        mc gc xc local metric ins del sub shift :
  ((forall d, dist_editex upper nfkd src tar cost local = Ok d ->
              sim_editex upper nfkd src tar cost local = Ok (1 - d)%Q)
   /\ (forall e, dist_editex upper nfkd src tar cost local = Raise e ->
                 sim_editex upper nfkd src tar cost local = Raise e)
   /\ (forall d, dist_typo fp sqrt_f log_f src tar metric cost' = Ok d ->
                 sim_typo fp sqrt_f log_f src tar metric cost' = Ok (1 - d)%Q)
   /\ (forall e, dist_typo fp sqrt_f log_f src tar metric cost' = Raise e ->
                 sim_typo fp sqrt_f log_f src tar metric cost' = Raise e))
  /\ ((0 <= mc <= xc)%Z -> (0 <= gc <= xc)%Z -> (0 < xc)%Z ->
      (length (preprocess upper nfkd src) <= length src)%nat ->
      (length (preprocess upper nfkd tar) <= length tar)%nat ->
      ((len src + len tar) * xc < 2 ^ 63)%Z ->
      exists d, dist_editex upper nfkd src tar (mc, gc, xc) local = Ok d
                /\ (0 <= d <= 1)%Q)
  /\ (keeps_sign fp ->
      (forall z, 0 <= sqrt_f z)%Q ->
      (forall q, 0 <= q -> 0 <= log_f (1 + q))%Q ->
      (0 <= ins)%Q -> (0 <= del)%Q -> (0 <= sub)%Q -> (0 <= shift)%Q ->
      forall d, dist_typo fp sqrt_f log_f src tar metric
                          [ins; del; sub; shift] = Ok d ->
                (0 <= d)%Q).
Proof.
  split; [|split].
  - destruct (sim_editex_dist upper nfkd src tar cost local) as [H1 H2].
    destruct (sim_typo_dist fp sqrt_f log_f src tar metric cost')
      as [H3 H4].
    done.
  - intros Hmc Hgc Hxc Hs Ht Hsmall.
    apply dist_editex_bounds; try done.
    unfold Int64.int64_max. lia.
  - intros Hfp Hsqrt Hlog Hins Hdel Hsub Hshift d Hd.
    by apply (dist_typo_nonneg fp Hfp sqrt_f log_f Hsqrt Hlog ins del sub
                shift Hins Hdel Hsub Hshift src tar metric).
Qed.

Lemma normalized_distance_bounds_witness :
  (exists d, dist_editex upper_latin nfkd_latin (lit "cat") (lit "hat")
                         (0, 1, 2)%Z false = Ok d
             /\ (0 <= d <= 1)%Q)
  /\ (forall d, dist_typo numpy_v1 sqrt_floor log_zero (lit "cat") (lit "hat")
                          "manhattan" [1; 1; 1 # 2; 1 # 2]%Q = Ok d ->
                (0 <= d)%Q).
Proof.
  destruct (normalized_distance_bounds upper_latin nfkd_latin numpy_v1
              sqrt_floor log_zero (lit "cat") (lit "hat") (0, 1, 2)%Z
              [1; 1; 1 # 2; 1 # 2]%Q 0 1 2 false "manhattan"
              1 1 (1 # 2) (1 # 2)) as (_ & Heditex & Htypo).
  split.
  - apply Heditex; [lia|lia|lia|vm_compute; lia|vm_compute; lia|].
    by vm_compute.
  - apply Htypo;
      [exact numpy_v1_keeps_sign|exact sqrt_floor_nonneg
      |exact log_zero_nonneg|by vm_compute..].
Defined.

(** Four more ways in which the bound of C1 is missed.  The docstring of
    [dist_typo] promises a distance normalised to [0, 1], but with the
    default costs the distance of a and p is 2: the keys are far apart, the
    cheapest edit is a deletion and an insertion, of cost 2, and the divisor
    is 1.  The divisor of [dist_editex] counts the characters of the strings
    as given although [editex] measures them after preprocessing.  A
    mismatch cost of zero makes the divisor zero.  And a mismatch cost of
    2 ** 62 makes the sums of the int64 matrix wrap around: the distance of
    ab and cd is negative. *)
Remark dist_typo_exceeds_one :
  exists d, dist_typo numpy_v1 sqrt_floor log_zero (lit "a") (lit "p")
                      "manhattan" Typo.default_cost = Ok d
            /\ ~ (d <= 1)%Q.
Proof. exists 2%Q. split; by vm_compute. Qed.

Remark dist_editex_eszett_exceeds_one :
  exists d, dist_editex upper_latin nfkd_latin [223%N] []
                        Editex.default_cost false = Ok d
            /\ ~ (d <= 1)%Q.
Proof. exists (4 # 2). split; by vm_compute. Qed.

Remark dist_editex_zero_mismatch :
  dist_editex upper_latin nfkd_latin (lit "a") (lit "b") (0, 0, 0)%Z false
  = Raise DivisionByZero.
Proof. by vm_compute. Qed.

Remark editex_wraps_around :
  editex upper_latin nfkd_latin (lit "ab") (lit "cd") (0, 1, 2 ^ 62)%Z false
  = Ok (- 2 ^ 62)%Z.
Proof. by vm_compute. Qed.

(** ** C2: configuration errors of [typo] *)

(** C2, as stated, fails: an unknown metric name goes unnoticed when no two
    distinct characters are compared, an unknown layout name goes unnoticed
    on equal strings, and a negative cost is accepted. *)
Lemma typo_accepts_invalid_configuration :
  (~ known_metric "bogus"
   /\ typo numpy_v1 sqrt_floor log_zero (lit "a") (lit "aa") "bogus"
           Typo.default_cost "QWERTY" = Ok 1%Q)
  /\ (kbs !! "bogus"%string = None
      /\ typo numpy_v1 sqrt_floor log_zero (lit "a") (lit "a") "euclidean"
              Typo.default_cost "bogus" = Ok 0%Q)
  /\ typo numpy_v1 sqrt_floor log_zero (lit "a") (lit "b") "manhattan"
          [-1; 1; 1; 1]%Q "QWERTY" = Ok 0%Q.
Proof.
  split; [split; [|by vm_compute]|split; [by vm_compute|by vm_compute]].
  unfold known_metric. rewrite !elem_of_cons, elem_of_nil.
  by intros [|[|[|[|]]]].
Qed.

(** C2, amended.  A cost tuple that does not have four elements makes
    [typo] raise at once, whatever the strings, the metric and the layout.
    With four costs and two distinct, non-empty strings, an unknown layout
    name makes it raise before the matrix is built, whatever the metric; and
    with a known layout, an unknown metric name makes it raise as soon as
    the strings hold two characters, one of [src] and one of [tar], that
    differ.  (Python raises a [ValueError] in the first case and a [KeyError]
    in the other two.) *)
Theorem typo_configuration_errors fp sqrt_f log_f (src tar : str)
        (bad_cost cost : list Q) (bad_layout layout bad_metric : string) :
  length bad_cost <> 4%nat -> length cost = 4%nat ->
  src <> tar -> src <> [] -> tar <> [] ->
  kbs !! bad_layout = None -> is_Some (kbs !! layout) ->
  ~ known_metric bad_metric ->
  (forall s t metric layout',
      typo fp sqrt_f log_f s t metric bad_cost layout'
      = Raise (ValueError_unpack 4))
  /\ (forall metric,
         typo fp sqrt_f log_f src tar metric cost bad_layout
         = Raise (KeyError bad_layout))
  /\ (forall i j,
         (i < length src)%nat -> (j < length tar)%nat ->
         item src i <> item tar j ->
         typo fp sqrt_f log_f src tar bad_metric cost layout
         = Raise (KeyError bad_metric)).
Proof.
  intros Hbad Hcost Hne Hs Ht Hbl [keyboard Hl] Hbm.
  split; [|split].
  - intros. by apply typo_bad_arity.
  - intros. by apply typo_unknown_layout.
  - intros i j Hi Hj Hij. unfold known_metric in Hbm.
    rewrite !elem_of_cons, elem_of_nil in Hbm.
    eapply typo_unknown_metric; eauto; tauto.
Qed.

Lemma typo_configuration_errors_witness :
  (forall s t metric layout',
      typo numpy_v1 sqrt_floor log_zero s t metric [1; 1; 1]%Q layout'
      = Raise (ValueError_unpack 4))
  /\ (forall metric,
         typo numpy_v1 sqrt_floor log_zero (lit "a") (lit "b") metric
              [1; 1; 1 # 2; 1 # 2]%Q "bogus"
         = Raise (KeyError "bogus"))
  /\ (forall i j,
         (i < length (lit "a"))%nat -> (j < length (lit "b"))%nat ->
         item (lit "a") i <> item (lit "b") j ->
         typo numpy_v1 sqrt_floor log_zero (lit "a") (lit "b") "bogus"
              [1; 1; 1 # 2; 1 # 2]%Q "QWERTY"
         = Raise (KeyError "bogus")).
Proof.
  apply (typo_configuration_errors numpy_v1 sqrt_floor log_zero (lit "a")
           (lit "b") [1; 1; 1]%Q [1; 1; 1 # 2; 1 # 2]%Q "bogus" "QWERTY"
           "bogus").
  - by vm_compute.
  - reflexivity.
  - by vm_compute.
  - by vm_compute.
  - by vm_compute.
  - by vm_compute.
  - rewrite kbs_qwerty. by eexists.
  - unfold known_metric. rewrite !elem_of_cons, elem_of_nil.
    by intros [|[|[|[|]]]].
Defined.

(** ** C3: unsupported characters *)

(** C3, as stated, fails: the euro sign is in no table of QWERTY, yet [typo]
    returns a distance when it is compared with nothing but itself, or when
    the other string is empty. *)
Lemma typo_ignores_unsupported_char :
  ~ supported QWERTY [8364%N]
  /\ typo numpy_v1 sqrt_floor log_zero [8364%N] [8364%N; 8364%N] "euclidean"
          Typo.default_cost "QWERTY" = Ok 1%Q
  /\ typo numpy_v1 sqrt_floor log_zero [] [8364%N] "euclidean"
          Typo.default_cost "QWERTY" = Ok 1%Q.
Proof. split; [compute_done|]. split; by vm_compute. Qed.

(** C3, amended.  For two different strings [src] and [tar], with four
    costs, a known layout and a known metric, if some character of [src]
    differs from some character of [tar] and one of the two is in neither
    table of the layout, then [typo] raises the [ValueError] that names a
    character of [src] or [tar] that is in neither table, and returns no
    distance. *)
Theorem typo_unsupported_character fp sqrt_f log_f (src tar : str)
        (metric : string) (cost : list Q) (layout : string) keyboard
        (i j : nat) :
  length cost = 4%nat -> src <> tar ->
  kbs !! layout = Some keyboard -> known_metric metric ->
  (i < length src)%nat -> (j < length tar)%nat ->
  item src i <> item tar j ->
  ~ supported keyboard (item src i) \/ ~ supported keyboard (item tar j) ->
  exists k,
    typo fp sqrt_f log_f src tar metric cost layout
    = Raise (ValueError_not_found [k])
    /\ ~ supported keyboard [k] /\ (k ∈ src \/ k ∈ tar).
Proof.
  intros Hcost Hne Hl Hm Hi Hj Hij Hunsupp.
  destruct (known_metric_lookup sqrt_f log_f keyboard metric Hm) as [f Hf].
  by eapply typo_unsupported_char.
Qed.

Lemma typo_unsupported_character_witness :
  exists k,
    typo numpy_v1 sqrt_floor log_zero [8364%N] (lit "a") "euclidean"
         [1; 1; 1 # 2; 1 # 2]%Q "QWERTY"
    = Raise (ValueError_not_found [k])
    /\ ~ supported QWERTY [k] /\ (k ∈ [8364%N] \/ k ∈ lit "a").
Proof.
  apply (typo_unsupported_character numpy_v1 sqrt_floor log_zero [8364%N]
           (lit "a") "euclidean" [1; 1; 1 # 2; 1 # 2]%Q "QWERTY" QWERTY
           0%nat 0%nat).
  - reflexivity.
  - by vm_compute.
  - exact kbs_qwerty.
  - unfold known_metric. rewrite !elem_of_cons. by left.
  - vm_compute. lia.
  - vm_compute. lia.
  - by vm_compute.
  - left. compute_done.
Defined.

(** Equal strings are at distance 0 even when they hold a character that
    the layout does not have next to one that it has. *)
Remark typo_equal_strings_unsupported :
  typo numpy_v1 sqrt_floor log_zero [8364%N; chr "a"] [8364%N; chr "a"]
       "euclidean" Typo.default_cost "QWERTY" = Ok 0%Q.
Proof. by vm_compute. Qed.

(** ** C4: the literal scenarios of Editex *)

(** C4.  With the default cost (0, 1, 2) and [local=False], [editex] returns
    2 on cat and hat, 2 on Niall and Neil, and 6 on ATCG and TAGC (for a
    [str.upper] and an NFKD that treat ASCII strings as Python's do). *)
Theorem editex_literal_scenarios upper nfkd :
  upper_on_ascii upper -> nfkd_on_ascii nfkd ->
  editex upper nfkd (lit "cat") (lit "hat") (0, 1, 2)%Z false = Ok 2%Z
  /\ editex upper nfkd (lit "Niall") (lit "Neil") (0, 1, 2)%Z false = Ok 2%Z
  /\ editex upper nfkd (lit "ATCG") (lit "TAGC") (0, 1, 2)%Z false = Ok 6%Z.
Proof.
  intros Hu Hn.
  rewrite !(editex_ascii upper nfkd) by (done || ascii_string).
  by vm_compute.
Qed.

Lemma editex_literal_scenarios_witness :
  upper_on_ascii upper_latin /\ nfkd_on_ascii nfkd_latin
  /\ editex upper_latin nfkd_latin (lit "cat") (lit "hat") (0, 1, 2)%Z false
     = Ok 2%Z
  /\ editex upper_latin nfkd_latin (lit "Niall") (lit "Neil") (0, 1, 2)%Z
            false = Ok 2%Z
  /\ editex upper_latin nfkd_latin (lit "ATCG") (lit "TAGC") (0, 1, 2)%Z
            false = Ok 6%Z.
Proof.
  split; [exact upper_latin_on_ascii|]. split; [exact nfkd_latin_on_ascii|].
  exact (editex_literal_scenarios upper_latin nfkd_latin
           upper_latin_on_ascii nfkd_latin_on_ascii).
Defined.

(** ** C5: the local variant *)

(** C5, as stated, fails for costs that are not negative: the matrix is a
    matrix of int64, whose sums wrap around.  With the costs (0, 2 ** 62, 1)
    the distance of BPB and X is 1 in the local variant, but in the global
    variant the first column adds the group cost of B and P twice, which
    wraps around to - 2 ** 63, and the distance is - 2 ** 63 + 2. *)
Lemma editex_local_exceeds_global :
  editex upper_latin nfkd_latin (lit "BPB") (lit "X") (0, 2 ^ 62, 1)%Z true
  = Ok 1%Z
  /\ editex upper_latin nfkd_latin (lit "BPB") (lit "X") (0, 2 ^ 62, 1)%Z
            false
     = Ok (- 2 ^ 63 + 2)%Z
  /\ ~ (1 <= - 2 ^ 63 + 2)%Z.
Proof. split; [by vm_compute|]. split; [by vm_compute|]. lia. Qed.

(** C5, amended.  For fixed [src] and [tar] and a cost tuple of costs that
    are not negative and are small for the two strings (the sum of the
    lengths of the preprocessed strings times the largest cost is below
    2 ** 63, so that no sum of the int64 matrix wraps around), both variants
    return, and the Editex alignment of the local variant is at most that of
    the global variant. *)
Theorem editex_local_monotone upper nfkd src tar mc gc xc :
  (0 <= mc)%Z -> (0 <= gc)%Z -> (0 <= xc)%Z ->
  small_costs upper nfkd src tar (mc, gc, xc) ->
  exists vl vg,
    editex upper nfkd src tar (mc, gc, xc) true = Ok vl
    /\ editex upper nfkd src tar (mc, gc, xc) false = Ok vg
    /\ (vl <= vg)%Z.
Proof.
  intros Hmc Hgc Hxc Hsmall.
  rewrite !(editex_small upper nfkd mc gc xc) by done.
  do 2 eexists. split; [done|]. split; [done|].
  by apply unwrapped_local_le_global.
Qed.

Lemma editex_local_monotone_witness :
  exists vl vg,
    editex upper_latin nfkd_latin (lit "aluminum") (lit "Catalan") (0, 1, 2)%Z
           true = Ok vl
    /\ editex upper_latin nfkd_latin (lit "aluminum") (lit "Catalan")
              (0, 1, 2)%Z false = Ok vg
    /\ (vl <= vg)%Z.
Proof.
  apply (editex_local_monotone upper_latin nfkd_latin
           (lit "aluminum") (lit "Catalan") 0 1 2); [lia|lia|lia|].
  by vm_compute.
Defined.

(** With a negative cost, which [editex] accepts as well, the claim fails
    without any sum wrapping around: with the costs (0, -5, 2) the distance
    of BPX and X is -3 in the global variant and -1 in the local one. *)
Remark editex_local_exceeds_global_negative :
  editex upper_latin nfkd_latin (lit "BPX") (lit "X") (0, -5, 2)%Z true
  = Ok (-1)%Z
  /\ editex upper_latin nfkd_latin (lit "BPX") (lit "X") (0, -5, 2)%Z false
     = Ok (-3)%Z.
Proof. by vm_compute. Qed.

(** ** C6: distance zero *)

(** C6, as stated, fails: with the default costs the normalised distance of
    aa and a is 0, yet the preprocessed strings AA and A differ. *)
Lemma dist_editex_zero_not_identical :
  (exists d, dist_editex upper_latin nfkd_latin (lit "aa") (lit "a")
                         (0, 1, 2)%Z false = Ok d
             /\ (d == 0)%Q)
  /\ preprocess upper_latin nfkd_latin (lit "aa")
     <> preprocess upper_latin nfkd_latin (lit "a").
Proof. split; [by eexists|]. by vm_compute. Qed.

(** C6, amended.  With a match cost that is not negative and positive group
    and mismatch costs that are small for the two strings (the sum of the
    lengths of the preprocessed strings times the largest cost is below
    2 ** 63, so that no sum of the int64 matrix wraps around), if the
    normalised global Editex distance of [src] and [tar] is 0 then the
    preprocessed strings, each behind the blank that the code puts in front
    of it, are identical once every run of adjacent equal characters is
    collapsed into one. *)
Theorem dist_editex_zero_squeeze upper nfkd src tar mc gc xc d :
  (0 <= mc)%Z -> (0 < gc)%Z -> (0 < xc)%Z ->
  small_costs upper nfkd src tar (mc, gc, xc) ->
  dist_editex upper nfkd src tar (mc, gc, xc) false = Ok d ->
  (d == 0)%Q ->
  squeeze (chr " " :: preprocess upper nfkd src)
  = squeeze (chr " " :: preprocess upper nfkd tar).
Proof.
  intros Hmc Hgc Hxc Hsmall Hd Hz.
  destruct (dist_editex_zero upper nfkd mc gc xc src tar false d Hd Hz)
    as [->|He]; [done|].
  rewrite (editex_small upper nfkd mc gc xc) in He by (done || lia).
  injection He as He.
  by apply (unwrapped_zero_squeeze mc gc xc).
Qed.

Lemma dist_editex_zero_squeeze_witness :
  squeeze (chr " " :: preprocess upper_latin nfkd_latin (lit "aa"))
  = squeeze (chr " " :: preprocess upper_latin nfkd_latin (lit "a")).
Proof.
  apply (dist_editex_zero_squeeze upper_latin nfkd_latin
           (lit "aa") (lit "a") 0 1 2 (0 # 4)); [lia|lia|lia| | |].
  - by vm_compute.
  - by vm_compute.
  - reflexivity.
Defined.

(** The local variant forgets any prefix of the source: its distance of ba
    and a is 0 as well.  And with a group cost of 2 ** 63 - 1 the sums of
    the int64 matrix wrap around to a distance of 0 between strings that
    differ by more than repeated characters. *)
Remark dist_editex_zero_local :
  editex upper_latin nfkd_latin (lit "ba") (lit "a") (0, 1, 2)%Z true
  = Ok 0%Z.
Proof. by vm_compute. Qed.

Remark dist_editex_zero_wraps :
  editex upper_latin nfkd_latin (lit "XPAPB") (lit "XPB")
         (0, 2 ^ 63 - 1, 2)%Z false = Ok 0%Z
  /\ squeeze (chr " " :: preprocess upper_latin nfkd_latin (lit "XPAPB"))
     <> squeeze (chr " " :: preprocess upper_latin nfkd_latin (lit "XPB")).
Proof. split; by vm_compute. Qed.

(** ** C7: an empty input *)

(** C7, as stated, fails: the eszett is one character, but against the empty
    string it costs two mismatches, because preprocessing turns it into SS. *)
Lemma editex_empty_counts_preprocessed :
  editex upper_latin nfkd_latin [] [223%N] (0, 1, 2)%Z false = Ok 4%Z
  /\ (len [223%N] * 2 = 2)%Z.
Proof. by vm_compute. Qed.

(** C7, amended.  For a cost tuple (match, group, mismatch), [editex] of the
    empty string and [tar] is the length of [tar] after preprocessing times
    the mismatch cost, and likewise for [src] and the empty string; on abc
    with the cost (0, 1, 2) this is 6.  For typo, an empty [src] gives
    len(tar) times the insert cost, and an empty [tar] gives len(src) times
    the delete cost. *)
Theorem empty_input_distances upper nfkd fp sqrt_f log_f (src tar : str)
        mc gc xc local metric ins del sub shift layout :
  upper_on_ascii upper -> nfkd_on_ascii nfkd ->
  editex upper nfkd [] tar (mc, gc, xc) local
  = Ok (len (preprocess upper nfkd tar) * xc)%Z
  /\ editex upper nfkd src [] (mc, gc, xc) local
     = Ok (len (preprocess upper nfkd src) * xc)%Z
  /\ editex upper nfkd [] (lit "abc") (0, 1, 2)%Z local = Ok 6%Z
  /\ (exists v, typo fp sqrt_f log_f [] tar metric [ins; del; sub; shift]
                     layout = Ok v
                /\ (v == inject_Z (len tar) * ins)%Q)
  /\ (exists v, typo fp sqrt_f log_f src [] metric [ins; del; sub; shift]
                     layout = Ok v
                /\ (v == inject_Z (len src) * del)%Q).
Proof.
  intros Hu Hn.
  assert (preprocess upper nfkd [] = []) as Hnil
      by (by rewrite (preprocess_ascii upper nfkd) by (done || ascii_string)).
  split; [by apply editex_empty_src|].
  split; [by apply editex_empty_tar|].
  split.
  { rewrite (editex_ascii upper nfkd) by (done || ascii_string).
    by destruct local; vm_compute. }
  split.
  - destruct (decide (tar = [])) as [->|Ht].
    + exists 0%Q. split; [by apply typo_same|]. unfold len. simpl. ring.
    + eexists. split; [by apply typo_empty_src|reflexivity].
  - destruct (decide (src = [])) as [->|Hs].
    + exists 0%Q. split; [by apply typo_same|]. unfold len. simpl. ring.
    + eexists. split; [by apply typo_empty_tar|reflexivity].
Qed.

Lemma empty_input_distances_witness :
  editex upper_latin nfkd_latin [] [223%N] (0, 1, 2)%Z false
  = Ok (len (preprocess upper_latin nfkd_latin [223%N]) * 2)%Z
  /\ editex upper_latin nfkd_latin (lit "abc") [] (0, 1, 2)%Z false
     = Ok (len (preprocess upper_latin nfkd_latin (lit "abc")) * 2)%Z
  /\ editex upper_latin nfkd_latin [] (lit "abc") (0, 1, 2)%Z false = Ok 6%Z
  /\ (exists v, typo numpy_v1 sqrt_floor log_zero [] [223%N] "euclidean"
                     [1; 1; 1 # 2; 1 # 2]%Q "QWERTY" = Ok v
                /\ (v == inject_Z (len [223%N]) * 1)%Q)
  /\ (exists v, typo numpy_v1 sqrt_floor log_zero (lit "abc") [] "euclidean"
                     [1; 1; 1 # 2; 1 # 2]%Q "QWERTY" = Ok v
                /\ (v == inject_Z (len (lit "abc")) * 1)%Q).
Proof.
  exact (empty_input_distances upper_latin nfkd_latin numpy_v1 sqrt_floor
           log_zero (lit "abc") [223%N] 0 1 2 false "euclidean" 1 1 (1 # 2)
           (1 # 2) "QWERTY"%string upper_latin_on_ascii nfkd_latin_on_ascii).
Defined.

(** ** C8: symmetry of the cost of a pair *)

(** C8.  The cost of a pair of characters is symmetric in both policies:
    [r_cost] for all characters and costs, and [_substitution_cost] for
    every layout and metric, where it returns the same value for the two
    orders of its arguments or returns for neither. *)
Theorem pair_cost_symmetric mc gc xc (ch1 ch2 : N) sqrt_f log_f keyboard
        metric sub_cost shift_cost (char1 char2 : str) (v : Q) :
  r_cost mc gc xc ch1 ch2 = r_cost mc gc xc ch2 ch1
  /\ (_substitution_cost sqrt_f log_f keyboard metric sub_cost shift_cost
                         char1 char2 = Ok v
      <-> _substitution_cost sqrt_f log_f keyboard metric sub_cost shift_cost
                             char2 char1 = Ok v).
Proof.
  split; [apply r_cost_sym|]. split; apply substitution_cost_sym_Ok.
Qed.

(** ** C9: the distance of a string to itself *)

(** C9.  The distance of a string to itself is 0, the empty string
    included: [editex], [typo] and their normalised variants all return 0 on
    equal arguments. *)
Theorem distance_to_itself upper nfkd fp sqrt_f log_f (s : str)
        mc gc xc local metric ins del sub shift layout :
  editex upper nfkd s s (mc, gc, xc) local = Ok 0%Z
  /\ typo fp sqrt_f log_f s s metric [ins; del; sub; shift] layout = Ok 0%Q
  /\ dist_editex upper nfkd s s (mc, gc, xc) local = Ok 0%Q
  /\ dist_typo fp sqrt_f log_f s s metric [ins; del; sub; shift] = Ok 0%Q.
Proof.
  split; [apply editex_same|]. split; [by apply typo_same|].
  split.
  - unfold dist_editex. by rewrite decide_True.
  - unfold dist_typo. by rewrite decide_True.
Qed.

(** ** C10: equal inputs come first in [typo] *)

(** C10.  In [typo] the return for equal inputs comes before the layout, the
    metric or any character is looked at: for every string [s], every cost
    tuple of four elements and arbitrary [metric] and [layout] strings,
    [typo(s, s, metric, cost, layout)] returns 0.0 and raises nothing. *)
Theorem typo_equal_inputs_before_validation fp sqrt_f log_f (s : str)
        (metric : string) (cost : list Q) (layout : string) :
  length cost = 4%nat ->
  typo fp sqrt_f log_f s s metric cost layout = Ok 0%Q.
Proof.
  intros (ins & del & sub & shift & ->)%unpack4_length.
  rewrite typo_unpacked. by rewrite decide_True.
Qed.

(** An unknown metric and layout, and a character that no layout holds. *)
Lemma typo_equal_inputs_before_validation_witness :
  length [1; 1; 1 # 2; 1 # 2]%Q = 4%nat
  /\ typo numpy_v1 sqrt_floor log_zero [8364%N] [8364%N] "bogus"
          [1; 1; 1 # 2; 1 # 2]%Q "nowhere" = Ok 0%Q.
Proof.
  split; [reflexivity|].
  apply (typo_equal_inputs_before_validation numpy_v1 sqrt_floor log_zero
           [8364%N] "bogus" [1; 1; 1 # 2; 1 # 2]%Q "nowhere"). reflexivity.
Defined.

End Claims.
(** * Further properties *)

Module Extras.
Import Int64 Editex Typo EditexFacts TypoFacts EditexInstances TypoMore.

(** ** editex.py *)


(** X2.  With a match cost of 0 and positive group and mismatch costs that
    are small for the two strings (no sum of the int64 matrix wraps around),
    the global Editex distance of two strings that are not empty after
    preprocessing is 0 exactly when the preprocessed strings, each behind its
    leading blank, are equal once every run of adjacent equal characters is
    collapsed into one: repeated characters cost nothing, everything else
    costs something. *)
Theorem editex_zero_iff upper nfkd (src tar : str) gc xc :
  (0 < gc)%Z -> (0 < xc)%Z ->
  small_costs upper nfkd src tar (0, gc, xc)%Z ->
  preprocess upper nfkd src <> [] -> preprocess upper nfkd tar <> [] ->
  editex upper nfkd src tar (0, gc, xc)%Z false = Ok 0%Z
  <-> squeeze (chr " " :: preprocess upper nfkd src)
      = squeeze (chr " " :: preprocess upper nfkd tar).
Proof.
  intros Hgc Hxc Hsmall Hs Ht.
  rewrite (editex_small upper nfkd 0 gc xc) by (done || lia). split.
  - intros [= Hz]. apply (unwrapped_zero_squeeze 0 gc xc); [lia|done..].
  - intros Heq. f_equal. apply unwrapped_squeeze_zero; (done || lia).
Qed.

Lemma editex_zero_iff_witness :
  editex upper_latin nfkd_latin (lit "Llloyd") (lit "loyd") (0, 1, 2)%Z false
  = Ok 0%Z
  <-> squeeze (chr " " :: preprocess upper_latin nfkd_latin (lit "Llloyd"))
      = squeeze (chr " " :: preprocess upper_latin nfkd_latin (lit "loyd")).
Proof.
  apply (editex_zero_iff upper_latin nfkd_latin (lit "Llloyd") (lit "loyd")
           1 2); [lia|lia|by vm_compute..].
Defined.

(** X3.  When the costs are not negative, neither the match nor the group
    cost exceeds the mismatch cost, and the costs are small for the two
    strings (no sum of the int64 matrix wraps around), [editex] returns a
    distance between 0 and the mismatch cost times the length of the longer
    preprocessed string. *)
Theorem editex_range upper nfkd (src tar : str) mc gc xc local :
  (0 <= mc <= xc)%Z -> (0 <= gc <= xc)%Z ->
  small_costs upper nfkd src tar (mc, gc, xc) ->
  exists v,
    editex upper nfkd src tar (mc, gc, xc) local = Ok v
    /\ (0 <= v <= Z.max (len (preprocess upper nfkd src))
                        (len (preprocess upper nfkd tar)) * xc)%Z.
Proof.
  intros Hmc Hgc Hsmall.
  rewrite (editex_small upper nfkd mc gc xc) by (done || lia).
  eexists. split; [done|]. split.
  - apply unwrapped_nonneg; lia.
  - pose proof (unwrapped_upper mc gc xc (preprocess upper nfkd src)
                  (preprocess upper nfkd tar) local Hmc Hgc).
    unfold len. by rewrite <- Nat2Z.inj_max.
Qed.

Lemma editex_range_witness :
  exists v,
    editex upper_latin nfkd_latin (lit "aluminum") (lit "Catalan")
           (0, 1, 2)%Z false = Ok v
    /\ (0 <= v
        <= Z.max (len (preprocess upper_latin nfkd_latin (lit "aluminum")))
                 (len (preprocess upper_latin nfkd_latin (lit "Catalan")))
           * 2)%Z.
Proof.
  apply (editex_range upper_latin nfkd_latin (lit "aluminum")
           (lit "Catalan") 0 1 2 false); [lia|lia|by vm_compute].
Defined.

(** X4.  In the local variant the length of the source does not count: when
    the costs are not negative and neither the match nor the group cost
    exceeds the mismatch cost, a local Editex distance to a target that is not
    empty after preprocessing is at most the mismatch cost times the length of
    the preprocessed target, whether sums wrap around or not; and the distance
    is returned whenever the mismatch cost is an int64. *)
Theorem editex_local_target_bound upper nfkd (src tar : str) mc gc xc :
  (0 <= mc <= xc)%Z -> (0 <= gc <= xc)%Z ->
  preprocess upper nfkd tar <> [] ->
  (forall v, editex upper nfkd src tar (mc, gc, xc) true = Ok v ->
             (v <= len (preprocess upper nfkd tar) * xc)%Z)
  /\ ((xc <= int64_max)%Z ->
      exists v, editex upper nfkd src tar (mc, gc, xc) true = Ok v).
Proof.
  intros Hmc Hgc Ht. split.
  - intros v Hv.
    exact (editex_local_upper upper nfkd mc gc xc src tar v Hmc Hgc Ht Hv).
  - intros Hxc.
    apply editex_Ok; apply Int64Facts.fits_spec;
      unfold int64_min, int64_max in *; lia.
Qed.

Lemma editex_local_target_bound_witness :
  (forall v, editex upper_latin nfkd_latin (lit "aluminum") (lit "al")
                    (0, 1, 2)%Z true = Ok v ->
             (v <= len (preprocess upper_latin nfkd_latin (lit "al")) * 2)%Z)
  /\ ((2 <= int64_max)%Z ->
      exists v, editex upper_latin nfkd_latin (lit "aluminum") (lit "al")
                       (0, 1, 2)%Z true = Ok v).
Proof.
  apply (editex_local_target_bound upper_latin nfkd_latin (lit "aluminum")
           (lit "al") 0 1 2); [lia|lia|by vm_compute].
Defined.

(** X5.  Editex ignores the case of ASCII letters: two ASCII strings with
    the same upper-case form have the same Editex distance to, and from,
    every string (for a [str.upper] and an NFKD that treat ASCII strings as
    Python's do). *)
Theorem editex_ascii_case upper nfkd (s s' t : str) cost local :
  upper_on_ascii upper -> nfkd_on_ascii nfkd ->
  ascii_only s -> ascii_only s' ->
  ascii_upper <$> s = ascii_upper <$> s' ->
  editex upper nfkd s t cost local = editex upper nfkd s' t cost local
  /\ editex upper nfkd t s cost local = editex upper nfkd t s' cost local.
Proof.
  intros Hu Hn Hs Hs' Heq.
  assert (preprocess upper nfkd s = preprocess upper nfkd s') as Hpre
      by (by rewrite !(preprocess_ascii upper nfkd), Heq by done).
  unfold editex. by rewrite Hpre.
Qed.

Lemma editex_ascii_case_witness :
  editex upper_latin nfkd_latin (lit "Niall") (lit "Neil") (0, 1, 2)%Z false
  = editex upper_latin nfkd_latin (lit "nIALL") (lit "Neil") (0, 1, 2)%Z false
  /\ editex upper_latin nfkd_latin (lit "Neil") (lit "Niall") (0, 1, 2)%Z
            false
     = editex upper_latin nfkd_latin (lit "Neil") (lit "nIALL") (0, 1, 2)%Z
              false.
Proof.
  apply (editex_ascii_case upper_latin nfkd_latin (lit "Niall")
           (lit "nIALL") (lit "Neil") (0, 1, 2)%Z false
           upper_latin_on_ascii nfkd_latin_on_ascii).
  - unfold ascii_only. compute_done.
  - unfold ascii_only. compute_done.
  - by vm_compute.
Defined.

(** X6.  For three costs that are int64, the three loops of [editex] fill
    the int64 matrix by the recurrence of Zobel and Dart, every sum wrapping
    around to an int64: with [s] and [t] the preprocessed strings behind
    their leading blank, D(0,0) = 0, D(0,j) = D(0,j-1) + d(t[j-1], t[j]),
    D(i,0) = D(i-1,0) + d(s[i-1], s[i]) in the global variant and 0 in the
    local one, D(i,j) = min(D(i-1,j) + d(s[i-1], s[i]),
    D(i,j-1) + d(t[j-1], t[j]), D(i-1,j-1) + r(s[i], t[j])); and the value
    returned is D(len(src), len(tar)). *)
Theorem editex_loops_recurrence mc gc xc (src tar : str) (local : bool) :
  (int64_min <= mc <= int64_max)%Z ->
  (int64_min <= gc <= int64_max)%Z ->
  (int64_min <= xc <= int64_max)%Z ->
  let s := chr " " :: src in
  let t := chr " " :: tar in
  exists D : nat -> nat -> Z,
    D 0%nat 0%nat = 0%Z
    /\ (forall j,
           D 0%nat (S j)
           = wrap (D 0%nat j + d_cost mc gc xc (t !!! j) (t !!! S j)))
    /\ (forall i,
           D (S i) 0%nat
           = if local then 0%Z
             else wrap (D i 0%nat + d_cost mc gc xc (s !!! i) (s !!! S i)))
    /\ (forall i j,
           D (S i) (S j)
           = Z.min
               (wrap (D i (S j) + d_cost mc gc xc (s !!! i) (s !!! S i)))
               (Z.min
                  (wrap (D (S i) j + d_cost mc gc xc (t !!! j) (t !!! S j)))
                  (wrap (D i j + r_cost mc gc xc (s !!! S i) (t !!! S j)))))
    /\ editex_dp mc gc xc src tar local = Ok (D (length src) (length tar)).
Proof.
  intros Hmc%Int64Facts.fits_spec Hgc%Int64Facts.fits_spec
         Hxc%Int64Facts.fits_spec s t.
  exists (wcell mc gc xc s t local).
  split; [done|]. split; [apply wcell_0_S|]. split; [apply wcell_S_0|].
  split; [apply wcell_S_S|].
  destruct (editex_dp_Ok mc gc xc src tar local) as [v Hv];
    try (repeat intro; by apply costs_fit).
  rewrite Hv. f_equal. by apply editex_dp_wcell.
Qed.

Lemma editex_loops_recurrence_witness :
  exists D : nat -> nat -> Z,
    D 0%nat 0%nat = 0%Z
    /\ (forall j,
           D 0%nat (S j)
           = wrap (D 0%nat j
                   + d_cost 0 1 2 ((chr " " :: lit "cat") !!! j)
                            ((chr " " :: lit "cat") !!! S j)))
    /\ (forall i,
           D (S i) 0%nat
           = if false then 0%Z
             else wrap (D i 0%nat
                        + d_cost 0 1 2 ((chr " " :: lit "hat") !!! i)
                                 ((chr " " :: lit "hat") !!! S i)))
    /\ (forall i j,
           D (S i) (S j)
           = Z.min
               (wrap (D i (S j)
                      + d_cost 0 1 2 ((chr " " :: lit "hat") !!! i)
                               ((chr " " :: lit "hat") !!! S i)))
               (Z.min
                  (wrap (D (S i) j
                         + d_cost 0 1 2 ((chr " " :: lit "cat") !!! j)
                                  ((chr " " :: lit "cat") !!! S j)))
                  (wrap (D i j
                         + r_cost 0 1 2 ((chr " " :: lit "hat") !!! S i)
                                  ((chr " " :: lit "cat") !!! S j)))))
    /\ editex_dp 0 1 2 (lit "hat") (lit "cat") false
       = Ok (D (length (lit "hat")) (length (lit "cat"))).
Proof.
  apply (editex_loops_recurrence 0 1 2 (lit "hat") (lit "cat") false);
    unfold int64_min, int64_max; lia.
Defined.

(** X7.  [dist_editex] divides by the mismatch cost times the length of the
    longer string.  With costs that are not negative, a positive mismatch
    cost that neither other cost exceeds, and the sum of the two lengths
    times the mismatch cost below 2 ** 63, it returns a number on two
    distinct strings; with a mismatch cost of 0, and match and group costs
    that are int64, it divides by zero on every pair of distinct strings. *)
Theorem dist_editex_division upper nfkd (src tar : str) mc gc xc local :
  src <> tar ->
  ((0 <= mc <= xc)%Z -> (0 <= gc <= xc)%Z -> (0 < xc)%Z ->
   ((len src + len tar) * xc < 2 ^ 63)%Z ->
   exists d, dist_editex upper nfkd src tar (mc, gc, xc) local = Ok d)
  /\ ((int64_min <= mc <= int64_max)%Z ->
      (int64_min <= gc <= int64_max)%Z ->
      dist_editex upper nfkd src tar (mc, gc, 0%Z) local
      = Raise DivisionByZero).
Proof.
  intros Hne. split.
  - intros Hmc Hgc Hxc Hsmall.
    assert (0 < length src \/ 0 < length tar)%nat as Hlen.
    { destruct src, tar; simpl; try lia. done. }
    assert (xc <= int64_max)%Z as Hfit
        by (unfold int64_max, len in *; nia).
    destruct (editex_Ok upper nfkd mc gc xc src tar local) as [v Hv];
      try (apply Int64Facts.fits_spec; unfold int64_min, int64_max in *;
           lia).
    unfold dist_editex. simpl snd. rewrite decide_False by done.
    rewrite Hv. simpl. rewrite decide_False; [by eexists|].
    unfold len. destruct Hlen; nia.
  - intros Hmc%Int64Facts.fits_spec Hgc%Int64Facts.fits_spec.
    destruct (editex_Ok upper nfkd mc gc 0 src tar local) as [v Hv];
      [done..|].
    unfold dist_editex. simpl snd. rewrite decide_False by done.
    rewrite Hv. simpl. rewrite decide_True; [done|]. unfold len. lia.
Qed.

Lemma dist_editex_division_witness :
  (exists d, dist_editex upper_latin nfkd_latin (lit "cat") (lit "hat")
                         (0, 1, 2)%Z false = Ok d)
  /\ dist_editex upper_latin nfkd_latin (lit "cat") (lit "hat") (0, 1, 0)%Z
                 false = Raise DivisionByZero.
Proof.
  destruct (dist_editex_division upper_latin nfkd_latin (lit "cat")
              (lit "hat") 0 1 2 false) as [Hreturns Hzero];
    [by vm_compute|].
  split.
  - apply Hreturns; [lia|lia|lia|by vm_compute].
  - apply Hzero; unfold int64_min, int64_max; lia.
Defined.

(** ** typo.py *)

Local Open Scope Q_scope.

(** X8.  The only exceptions that [typo] raises are: the [ValueError] of
    unpacking a cost that has not four elements; the [KeyError] of a layout
    name that is none of the four; the [KeyError] of a metric name that is
    none of the four; and the [ValueError] that names a character of [src] or
    [tar] that the layout does not have.  In particular
    [_get_char_coord] never returns [None] to a caller that unpacks it. *)
Theorem typo_exceptions fp sqrt_f log_f (src tar : str) metric cost layout e :
  typo fp sqrt_f log_f src tar metric cost layout = Raise e ->
  (e = ValueError_unpack 4 /\ length cost <> 4%nat)
  \/ (e = KeyError layout /\ kbs !! layout = None)
  \/ (e = KeyError metric /\ ~ known_metric metric)
  \/ (exists keyboard k,
         kbs !! layout = Some keyboard
         /\ e = ValueError_not_found [k]
         /\ ~ supported keyboard [k] /\ (k ∈ src \/ k ∈ tar)).
Proof.
  intros Hraise.
  destruct (decide (length cost = 4%nat)) as [Hlen|Hlen].
  - destruct (unpack4_length cost Hlen) as (ins & del & sub & shift & ->).
    rewrite typo_unpacked in Hraise.
    repeat case_decide; try discriminate.
    unfold getitem in Hraise.
    destruct (kbs !! layout) as [keyboard|] eqn:Hkb.
    + simpl in Hraise.
      destruct (typo_dp_raise _ _ _ _ _ _ _ _ _ _ _ _ Hraise)
        as [[-> Hm]|(k & -> & Hk & Hin)].
      * right; right; left. done.
      * right; right; right. by exists keyboard, k.
    + simpl in Hraise. right; left. by inversion Hraise.
  - left. rewrite typo_bad_arity in Hraise by done. by inversion Hraise.
Qed.

Lemma typo_exceptions_witness :
  (KeyError "taxicab" = ValueError_unpack 4
   /\ length [1; 1; 1 # 2; 1 # 2] <> 4%nat)
  \/ (KeyError "taxicab" = KeyError "QWERTY" /\ kbs !! "QWERTY" = None)
  \/ (KeyError "taxicab" = KeyError "taxicab" /\ ~ known_metric "taxicab")
  \/ (exists keyboard k,
         kbs !! "QWERTY" = Some keyboard
         /\ KeyError "taxicab" = ValueError_not_found [k]
         /\ ~ supported keyboard [k] /\ (k ∈ lit "cat" \/ k ∈ lit "hat")).
Proof.
  apply (typo_exceptions numpy_v1 sqrt_floor log_zero (lit "cat") (lit "hat")
           "taxicab" [1; 1; 1 # 2; 1 # 2] "QWERTY" (KeyError "taxicab")).
  by vm_compute.
Defined.

(** X9.  [typo] returns a distance whenever the cost has four elements, the
    layout and the metric are among the known names, and every character of
    both strings is on the layout. *)
Theorem typo_total_on_supported fp sqrt_f log_f (src tar : str) metric cost
    layout keyboard :
  length cost = 4%nat ->
  kbs !! layout = Some keyboard ->
  known_metric metric ->
  Forall (fun k => supported keyboard [k]) src ->
  Forall (fun k => supported keyboard [k]) tar ->
  exists v, typo fp sqrt_f log_f src tar metric cost layout = Ok v.
Proof.
  intros Hlen Hkb Hm Hsrc Htar.
  destruct (unpack4_length cost Hlen) as (ins & del & sub & shift & ->).
  rewrite typo_unpacked.
  repeat case_decide; try by eexists.
  unfold getitem. rewrite Hkb. simpl.
  rewrite Forall_forall in Hsrc. rewrite Forall_forall in Htar.
  by apply typo_dp_supported.
Qed.

Lemma typo_total_on_supported_witness :
  exists v, typo numpy_v1 sqrt_floor log_zero (lit "Niall") (lit "Neil")
                 "log-manhattan" [1; 1; 1 # 2; 1 # 2] "QWERTY" = Ok v.
Proof.
  apply (typo_total_on_supported numpy_v1 sqrt_floor log_zero (lit "Niall")
           (lit "Neil") "log-manhattan" [1; 1; 1 # 2; 1 # 2] "QWERTY"
           QWERTY).
  - reflexivity.
  - exact kbs_qwerty.
  - unfold known_metric. rewrite !elem_of_cons. tauto.
  - compute_done.
  - compute_done.
Defined.

(** X10.  When the four costs are not negative (and neither are the square
    root and the logarithm of the metric, nor what the float32 operations
    make of numbers that are not negative), no distance that [typo] returns
    is negative. *)
Theorem typo_not_negative fp sqrt_f log_f (src tar : str) metric
    ins del sub shift layout v :
  keeps_sign fp ->
  (forall z, 0 <= sqrt_f z) -> (forall q, 0 <= q -> 0 <= log_f (1 + q)) ->
  0 <= ins -> 0 <= del -> 0 <= sub -> 0 <= shift ->
  typo fp sqrt_f log_f src tar metric [ins; del; sub; shift] layout = Ok v ->
  0 <= v.
Proof.
  intros Hfp Hsqrt Hlog Hins Hdel Hsub Hshift Hv.
  exact (typo_nonneg fp Hfp sqrt_f log_f Hsqrt Hlog ins del sub shift
           Hins Hdel Hsub Hshift src tar metric layout v Hv).
Qed.

Lemma typo_not_negative_witness :
  typo numpy_v1 sqrt_floor log_zero (lit "cat") (lit "hat") "manhattan"
       [1; 1; 1 # 2; 1 # 2] "QWERTY" = Ok 2
  /\ 0 <= 2.
Proof.
  split; [by vm_compute|].
  apply (typo_not_negative numpy_v1 sqrt_floor log_zero (lit "cat")
           (lit "hat") "manhattan" 1 1 (1 # 2) (1 # 2) "QWERTY" 2
           numpy_v1_keeps_sign sqrt_floor_nonneg log_zero_nonneg);
    by vm_compute.
Defined.

(** The matrix rounds what it stores, so the distance is not bounded by
    sums of the costs themselves.  With the costs (0.1, 0.1, 0.5, 0.5), 0.1
    being the float64 nearest to 1/10, the distance of a and b is the float32
    nearest to 0.2, which is more than an insertion and a deletion together.
    With the costs (0.7, 0.7, 0.5, 0.5) the distance of a and ab is the
    float32 nearest to 0.7, which is less than one insertion.  And with four
    costs of 10 ** -50 the distance of a and b is 0. *)
Remark typo_rounds_to_float32 (fp : float32) :
  fp = numpy_v1 \/ fp = numpy_v2 ->
  let tenth := 3602879701896397 # 36028797018963968 in
  let seven_tenths := 3152519739159347 # 4503599627370496 in
  let tiny := 1 # 10 ^ 50 in
  (typo fp sqrt_floor log_zero (lit "a") (lit "b") "manhattan"
        [tenth; tenth; 1 # 2; 1 # 2] "QWERTY" = Ok (13421773 # 67108864)
   /\ tenth + tenth < 13421773 # 67108864)
  /\ (typo fp sqrt_floor log_zero (lit "a") (lit "ab") "manhattan"
            [seven_tenths; seven_tenths; 1 # 2; 1 # 2] "QWERTY"
       = Ok (11744051 # 16777216)
       /\ 11744051 # 16777216 < seven_tenths)
  /\ typo fp sqrt_floor log_zero (lit "a") (lit "b") "manhattan"
           [tiny; tiny; tiny; tiny] "QWERTY" = Ok 0.
Proof. by intros [->| ->]; vm_compute. Qed.

(** X12.  Exchanging the two strings together with the insertion and the
    deletion cost does not change the typo distance: when
    [typo(src, tar, cost=(ins, del, sub, shift))] returns a distance,
    [typo(tar, src, cost=(del, ins, sub, shift))] returns the same one.  So
    the distance is symmetric as soon as insertions and deletions cost the
    same. *)
Theorem typo_exchange fp sqrt_f log_f (src tar : str) metric ins del sub shift
    layout v :
  typo fp sqrt_f log_f src tar metric [ins; del; sub; shift] layout = Ok v ->
  exists v',
    typo fp sqrt_f log_f tar src metric [del; ins; sub; shift] layout = Ok v'
    /\ v' == v.
Proof.
  intros Hv.
  destruct (typo_swap fp sqrt_f log_f src tar metric ins del sub shift layout
              v Hv) as (v' & Hv' & Heq).
  exists v'. by split.
Qed.

Lemma typo_exchange_witness :
  exists v',
    typo numpy_v1 sqrt_floor log_zero (lit "hat") (lit "chat") "manhattan"
         [3; 1; 1 # 2; 1 # 2] "QWERTY" = Ok v'
    /\ v' == 3.
Proof.
  apply (typo_exchange numpy_v1 sqrt_floor log_zero (lit "chat") (lit "hat")
           "manhattan" 1 3 (1 # 2) (1 # 2) "QWERTY" 3).
  by vm_compute.
Defined.

(** X13.  A cost that has not four elements is not noticed on equal
    strings by [dist_typo], which returns 0 before it reads the cost, while
    [typo] itself raises the [ValueError] of the unpacking; on distinct
    strings [dist_typo] raises that error too, from its own unpacking of
    [cost[:2]] when the cost has fewer than two elements and from [typo]
    otherwise. *)
Theorem dist_typo_malformed_cost fp sqrt_f log_f (src tar : str) metric cost
    layout :
  length cost <> 4%nat -> src <> tar ->
  typo fp sqrt_f log_f src src metric cost layout = Raise (ValueError_unpack 4)
  /\ dist_typo fp sqrt_f log_f src src metric cost = Ok 0
  /\ dist_typo fp sqrt_f log_f src tar metric cost
     = Raise (ValueError_unpack (if (length cost <? 2)%nat then 2 else 4)).
Proof.
  intros Hlen Hne. split; [by apply typo_bad_arity|]. split.
  - unfold dist_typo. by rewrite decide_True.
  - unfold dist_typo. rewrite decide_False by done.
    destruct cost as [|a [|b cost]]; [done..|].
    change (take 2 (a :: b :: cost)) with [a; b].
    change (length (a :: b :: cost) <? 2)%nat with false.
    simpl unpack2. by rewrite typo_bad_arity.
Qed.

Lemma dist_typo_malformed_cost_witness :
  typo numpy_v1 sqrt_floor log_zero (lit "cat") (lit "cat") "euclidean"
       [1; 1; 1 # 2] "QWERTY" = Raise (ValueError_unpack 4)
  /\ dist_typo numpy_v1 sqrt_floor log_zero (lit "cat") (lit "cat") "euclidean"
               [1; 1; 1 # 2] = Ok 0
  /\ dist_typo numpy_v1 sqrt_floor log_zero (lit "cat") (lit "hat") "euclidean"
               [1; 1; 1 # 2]
     = Raise (ValueError_unpack
                (if (length [1; 1; 1 # 2]%Q <? 2)%nat then 2 else 4)).
Proof.
  apply (dist_typo_malformed_cost numpy_v1 sqrt_floor log_zero (lit "cat")
           (lit "hat") "euclidean" [1; 1; 1 # 2] "QWERTY");
    by vm_compute.
Defined.

(** X15.  The coordinates that [_get_char_coord] returns are those of the
    first occurrence of the character in reading order: the cell at that row
    and column holds the character, no earlier cell of the row does, and no
    earlier row holds it at all. *)
Theorem get_char_coord_first_occurrence char (kb : kb_array) r col :
  _get_char_coord char kb = Some (r, col) ->
  exists row,
    kb !! r = Some row /\ row !! col = Some char
    /\ (forall col', (col' < col)%nat -> row !! col' <> Some char)
    /\ (forall r' row', (r' < r)%nat -> kb !! r' = Some row' ->
                        char ∉ row').
Proof.
  unfold _get_char_coord.
  destruct (List.find _ kb) as [row|] eqn:Hfind; simpl; [|done].
  destruct (index kb row) as [r0|] eqn:Hr; simpl; [|done].
  destruct (index row char) as [c0|] eqn:Hc; simpl; [|done].
  intros [= <- <-]. exists row.
  split; [by apply index_lookup|]. split; [by apply index_lookup|].
  split; [intros col' Hcol'; by eapply index_first|].
  intros r' row' Hr' Hrow' Hin.
  destruct (find_first _ _ _ Hfind) as (p & Hp & Hfx & Hbefore).
  assert (r0 <= p)%nat as Hle.
  { destruct (decide (r0 <= p)%nat) as [|Hgt]; [done|].
    exfalso. eapply (index_first kb row r0 p); [done|lia|done]. }
  assert (bool_decide (char ∈ row') = false) as Hno
      by (eapply Hbefore; [|done]; lia).
  by apply bool_decide_eq_false in Hno.
Qed.

Lemma get_char_coord_first_occurrence_witness :
  exists row,
    QWERTY.1 !! 2%nat = Some row /\ row !! 5%nat = Some (lit "g")
    /\ (forall col', (col' < 5)%nat -> row !! col' <> Some (lit "g"))
    /\ (forall r' row', (r' < 2)%nat -> QWERTY.1 !! r' = Some row' ->
                        lit "g" ∉ row').
Proof.
  apply (get_char_coord_first_occurrence (lit "g") QWERTY.1 2 5).
  by vm_compute.
Defined.

(** X16.  The loops of [typo] ask for the substitution cost of every pair
    of positions that hold different characters, and of no other pair: on
    two distinct strings, neither empty, with a four-element cost and a known
    layout, [typo] returns a distance exactly when [_substitution_cost] is
    defined on each such pair. *)
Theorem typo_defined_iff fp sqrt_f log_f (src tar : str) metric ins del sub
    shift layout keyboard :
  kbs !! layout = Some keyboard ->
  src <> tar -> src <> [] -> tar <> [] ->
  (exists v,
      typo fp sqrt_f log_f src tar metric [ins; del; sub; shift] layout = Ok v)
  <-> (forall i j, (i < length src)%nat -> (j < length tar)%nat ->
                   src !!! i <> tar !!! j ->
                   exists c,
                     _substitution_cost sqrt_f log_f keyboard metric sub
                       shift [src !!! i] [tar !!! j] = Ok c).
Proof.
  intros Hkb Hne Hs Ht. rewrite typo_unpacked.
  rewrite !decide_False by done. unfold getitem. rewrite Hkb. simpl.
  rewrite typo_dp_Ok. unfold pair_cost, item.
  split; intros Hall i j Hi Hj.
  - intros Hij. specialize (Hall i j Hi Hj).
    rewrite bool_decide_eq_true_2 in Hall by congruence. done.
  - case_bool_decide as Hij; [|by eexists].
    apply Hall; [done|done|congruence].
Qed.

Lemma typo_defined_iff_witness :
  (exists v,
      typo numpy_v1 sqrt_floor log_zero (lit "aa") (lit "a") "taxicab"
           [1; 1; 1 # 2; 1 # 2] "QWERTY" = Ok v)
  <-> (forall i j, (i < length (lit "aa"))%nat ->
                   (j < length (lit "a"))%nat ->
                   lit "aa" !!! i <> lit "a" !!! j ->
                   exists c,
                     _substitution_cost sqrt_floor log_zero QWERTY "taxicab"
                       (1 # 2) (1 # 2) [lit "aa" !!! i] [lit "a" !!! j]
                     = Ok c).
Proof.
  apply (typo_defined_iff numpy_v1 sqrt_floor log_zero (lit "aa") (lit "a")
           "taxicab" 1 1 (1 # 2) (1 # 2) "QWERTY" QWERTY);
    [exact kbs_qwerty|by vm_compute..].
Defined.

(** X17.  When the loops of [typo] finish, the value they return is the
    one of the weighted edit-distance recurrence on the float32 matrix:
    D(0,j) is j * ins as stored in a cell, D(i,0) is i * del as stored in a
    cell, and D(i+1,j+1) is the least of D(i+1,j) + ins, D(i,j+1) + del and
    D(i,j) + c as stored in a cell, where c is 0 when [src[i]] and [tar[j]]
    are the same character and their substitution cost otherwise; the result
    is D(len(src), len(tar)). *)
Theorem typo_loops_recurrence fp sqrt_f log_f keyboard metric
    ins del sub shift (src tar : str) v :
  typo_dp fp sqrt_f log_f keyboard metric ins del sub shift src tar = Ok v ->
  exists D : nat -> nat -> Q,
    (forall j, D 0%nat j = f32 fp (inject_Z (Z.of_nat j) * ins))
    /\ (forall i, D (S i) 0%nat = f32 fp (inject_Z (Z.of_nat (S i)) * del))
    /\ (forall i j, (i < length src)%nat -> (j < length tar)%nat ->
          exists c,
            (if decide (src !!! i = tar !!! j) then c = 0
             else _substitution_cost sqrt_f log_f keyboard metric sub shift
                    [src !!! i] [tar !!! j] = Ok c)
            /\ D (S i) (S j)
               = f32 fp
                   (Qmin (add32 fp (D (S i) j) ins)
                      (Qmin (add32 fp (D i (S j)) del)
                            (add32 fp (D i j) c))))
    /\ v = D (length src) (length tar).
Proof.
  intros Hv.
  exists (tcell fp sqrt_f log_f keyboard metric ins del sub shift src tar).
  split; [apply tcell_0|]. split; [apply tcell_S_0|].
  split; [|by apply typo_dp_tcell].
  intros i j Hi Hj.
  destruct (proj1 (typo_dp_Ok fp sqrt_f log_f keyboard metric ins del sub
                     shift src tar) (ex_intro _ v Hv) i j Hi Hj) as [c Hc].
  exists c. rewrite tcell_S_S. unfold pair_value. rewrite Hc.
  split; [|done].
  unfold pair_cost, item in Hc.
  destruct (decide (src !!! i = tar !!! j)) as [Hij|Hij].
  - rewrite bool_decide_eq_false_2 in Hc by (intros H; apply H; congruence).
    by injection Hc as <-.
  - rewrite bool_decide_eq_true_2 in Hc by congruence. done.
Qed.

Lemma typo_loops_recurrence_witness :
  exists D : nat -> nat -> Q,
    (forall j, D 0%nat j = f32 numpy_v1 (inject_Z (Z.of_nat j) * 1))
    /\ (forall i,
           D (S i) 0%nat = f32 numpy_v1 (inject_Z (Z.of_nat (S i)) * 1))
    /\ (forall i j, (i < length (lit "cat"))%nat ->
                    (j < length (lit "hat"))%nat ->
          exists c,
            (if decide (lit "cat" !!! i = lit "hat" !!! j) then c = 0
             else _substitution_cost sqrt_floor log_zero QWERTY "manhattan"
                    (1 # 2) (1 # 2) [lit "cat" !!! i] [lit "hat" !!! j]
                  = Ok c)
            /\ D (S i) (S j)
               = f32 numpy_v1
                   (Qmin (add32 numpy_v1 (D (S i) j) 1)
                      (Qmin (add32 numpy_v1 (D i (S j)) 1)
                            (add32 numpy_v1 (D i j) c))))
    /\ 2 = D (length (lit "cat")) (length (lit "hat")).
Proof.
  apply (typo_loops_recurrence numpy_v1 sqrt_floor log_zero QWERTY
           "manhattan" 1 1 (1 # 2) (1 # 2) (lit "cat") (lit "hat") 2).
  by vm_compute.
Defined.

(** X19.  Exchanging the two strings together with the insertion and the
    deletion cost changes neither [dist_typo] nor [sim_typo]. *)
Theorem dist_typo_exchange fp sqrt_f log_f (src tar : str) metric
    ins del sub shift d :
  dist_typo fp sqrt_f log_f src tar metric [ins; del; sub; shift] = Ok d ->
  exists d',
    dist_typo fp sqrt_f log_f tar src metric [del; ins; sub; shift] = Ok d'
    /\ d' == d
    /\ sim_typo fp sqrt_f log_f src tar metric [ins; del; sub; shift]
       = Ok (1 - d)
    /\ sim_typo fp sqrt_f log_f tar src metric [del; ins; sub; shift]
       = Ok (1 - d').
Proof.
  intros Hd.
  assert (exists d',
             dist_typo fp sqrt_f log_f tar src metric [del; ins; sub; shift]
             = Ok d' /\ d' == d) as (d' & Hd' & Heq).
  { revert Hd. unfold dist_typo.
    destruct (decide (src = tar)) as [->|Hne].
    { rewrite decide_True by done. intros [= <-].
      eexists; split; [done|reflexivity]. }
    rewrite (decide_False (P := tar = src)) by congruence.
    change (take 2 [ins; del; sub; shift]) with [ins; del].
    change (take 2 [del; ins; sub; shift]) with [del; ins].
    simpl unpack2. simpl.
    destruct (typo fp sqrt_f log_f src tar metric [ins; del; sub; shift]
                "QWERTY") as [v|e] eqn:Hv; [|done].
    destruct (typo_swap _ _ _ _ _ _ _ _ _ _ _ _ Hv) as (v' & -> & Hvv).
    simpl.
    assert (Qmax (inject_Z (len tar) * ins) (inject_Z (len src) * del)
            == Qmax (inject_Z (len src) * del) (inject_Z (len tar) * ins))
      as Hden by apply Q.max_comm.
    destruct (Qeq_bool (Qmax (inject_Z (len src) * del)
                             (inject_Z (len tar) * ins)) 0) eqn:Hz;
      [done|].
    intros [= <-].
    assert (Qeq_bool (Qmax (inject_Z (len tar) * ins)
                           (inject_Z (len src) * del)) 0 = false) as ->.
    { apply Qeq_bool_neq in Hz. destruct (Qeq_bool _ 0) eqn:Hz'; [|done].
      apply Qeq_bool_eq in Hz'. rewrite Hden in Hz'. done. }
    eexists; split; [done|]. by rewrite Hvv, Hden. }
  exists d'. split; [done|]. split; [done|].
  unfold sim_typo. by rewrite Hd, Hd'.
Qed.

Lemma dist_typo_exchange_witness :
  exists d',
    dist_typo numpy_v1 sqrt_floor log_zero (lit "hat") (lit "chat") "manhattan"
              [3; 1; 1 # 2; 1 # 2] = Ok d'
    /\ d' == 3 # 12
    /\ sim_typo numpy_v1 sqrt_floor log_zero (lit "chat") (lit "hat")
                "manhattan" [1; 3; 1 # 2; 1 # 2] = Ok (1 - (3 # 12))
    /\ sim_typo numpy_v1 sqrt_floor log_zero (lit "hat") (lit "chat")
                "manhattan" [3; 1; 1 # 2; 1 # 2] = Ok (1 - d').
Proof.
  apply (dist_typo_exchange numpy_v1 sqrt_floor log_zero (lit "chat")
           (lit "hat") "manhattan" 1 3 (1 # 2) (1 # 2) (3 # 12)).
  by vm_compute.
Defined.

(** X20.  With positive insertion and deletion costs, [dist_typo] returns a
    number exactly when [typo] does on the QWERTY layout: the division never
    fails, and nothing but [typo] can. *)
Theorem dist_typo_defined_iff fp sqrt_f log_f (src tar : str) metric
    ins del sub shift :
  0 < ins -> 0 < del ->
  (exists d,
      dist_typo fp sqrt_f log_f src tar metric [ins; del; sub; shift] = Ok d)
  <-> (exists v,
          typo fp sqrt_f log_f src tar metric [ins; del; sub; shift] "QWERTY"
          = Ok v).
Proof.
  intros Hins Hdel. unfold dist_typo.
  destruct (decide (src = tar)) as [->|Hne].
  { rewrite typo_same by done. split; intros _; by eexists. }
  change (take 2 [ins; del; sub; shift]) with [ins; del].
  simpl unpack2. simpl.
  destruct (typo fp sqrt_f log_f src tar metric [ins; del; sub; shift]
              "QWERTY") as [v|e]; simpl.
  - assert (0 < Qmax (inject_Z (len src) * del) (inject_Z (len tar) * ins))
      as Hden.
    { assert (forall s : str, 0 <= inject_Z (len s)) as Hlen0
          by (intros s; unfold len; rewrite <- (Zle_Qle 0); lia).
      assert (forall s : str, s <> [] -> 0 < inject_Z (len s)) as Hlen.
      { intros s Hs. unfold len. rewrite <- (Zlt_Qlt 0).
        destruct s; [done|simpl; lia]. }
      destruct (decide (src = [])) as [->|Hs].
      - eapply Qlt_le_trans; [|apply Q.le_max_r].
        apply Qmult_lt_0_compat; [|done]. apply Hlen. congruence.
      - eapply Qlt_le_trans; [|apply Q.le_max_l].
        apply Qmult_lt_0_compat; [|done]. by apply Hlen. }
    destruct (Qeq_bool _ 0) eqn:Hz.
    + apply Qeq_bool_eq in Hz. rewrite Hz in Hden. lra.
    + split; intros _; by eexists.
  - split; intros [? [=]].
Qed.

Lemma dist_typo_defined_iff_witness :
  (exists d,
      dist_typo numpy_v1 sqrt_floor log_zero (lit "cat") (lit "hat") "euclidean"
                [1; 1; 1 # 2; 1 # 2] = Ok d)
  <-> (exists v,
          typo numpy_v1 sqrt_floor log_zero (lit "cat") (lit "hat") "euclidean"
               [1; 1; 1 # 2; 1 # 2] "QWERTY" = Ok v).
Proof.
  apply (dist_typo_defined_iff numpy_v1 sqrt_floor log_zero (lit "cat")
           (lit "hat") "euclidean" 1 1 (1 # 2) (1 # 2));
    by vm_compute.
Defined.

End Extras.
